(** * Boost.MMM: the scheduler kernel and the asynchronous I/O reactor

    A shallow embedding of [boost/mmm/scheduler.hpp] and
    [boost/mmm/detail/async_io_thread.hpp] (with the poll abstraction of
    [boost/mmm/io/detail/poll.hpp]).

    Sequential code is embedded as functions.  The code of one kernel thread
    is a computation over the shared scheduler record that logs the
    synchronisation events it performs; what other threads do while the
    mutex is released is an explicit input (an interference list). *)

From Stdlib Require Import ZArith.
From stdpp Require Import base option list gmap.

Local Open Scope Z_scope.

(** ** boost/mmm/io/detail/poll.hpp *)

Module Poll.

(** [struct pollfd { int fd; int events; int revents; }] *)
Record pollfd := { fd : Z; events : Z; revents : Z }.

(** [polling_events::in]: [POLLIN], or [1 << 0] in the select fallback. *)
Definition polling_in : Z := 1.

(** What one call of the operating system's wait reports: its result
    (negative on failure) and the returned events it wrote into the
    records, in order. *)
Record poll_report := { ret : Z; revents_out : list Z }.

(** [poll_result_handling]: the error code is set exactly when the result
    is negative. *)
Definition poll_result_handling (result : Z) : Z * bool :=
  (result, result <? 0).

Fixpoint write_revents (fds : list pollfd) (rs : list Z) : list pollfd :=
  match fds, rs with
  | p :: fds', r :: rs' =>
      {| fd := fd p; events := events p; revents := r |}
        :: write_revents fds' rs'
  | _, _ => fds
  end.

(** [poll_fds(fds, count, err_code)]: the records with their [revents]
    filled in, the result and the error flag. *)
Definition poll_fds (fds : list pollfd) (o : poll_report)
  : list pollfd * Z * bool :=
  let '(result, err) := poll_result_handling (ret o) in
  (write_revents fds (revents_out o), result, err).

End Poll.

Export Poll.

(** ** Synchronisation events *)

(** How control comes back from [start()] or [resume()] of a context. *)
Inductive back := Suspended | Finished | Threw.

(** What a kernel thread does to the mutex, the condition variable, the
    strategy's pool, the thread-local slot and the contexts. [C] is the type
    of contexts. *)
Inductive event (C : Type) : Type :=
  | EvLock                          (* unique_lock constructed / relocked *)
  | EvUnlock                        (* unique_lock destroyed / unlocked *)
  | EvWait                          (* _m_cond.wait(guard) returned *)
  | EvNotifyOne                     (* _m_cond.notify_one() *)
  | EvNotifyAll                     (* _m_cond.notify_all() *)
  | EvPush (c : C)                  (* strategy_traits::push_ctx *)
  | EvPop (c : C)                   (* strategy_traits::pop_ctx *)
  | EvSetJoin (b : bool)            (* _m_join = b *)
  | EvSetTerminate                  (* _m_terminate = true *)
  | EvSetCurrent (p : option nat)   (* current_context::set_current_ctx(p) *)
  | EvStart (id : nat)              (* ctx.start() is called *)
  | EvResume (id : nat)             (* ctx.resume() is called *)
  | EvFunctor (f : nat)             (* the user functor is entered *)
  | EvBack (id : nat) (b : back) (complete : bool)
                                    (* control is back; ctx.is_complete() *)
  | EvSpawn (tid : nat)             (* thread th(&scheduler::_m_exec, ...) *)
  | EvJoinThread (tid : nat).       (* itr->second.join() *)

Arguments EvLock {C}.
Arguments EvUnlock {C}.
Arguments EvWait {C}.
Arguments EvNotifyOne {C}.
Arguments EvNotifyAll {C}.
Arguments EvPush {C} c.
Arguments EvPop {C} c.
Arguments EvSetJoin {C} b.
Arguments EvSetTerminate {C}.
Arguments EvSetCurrent {C} p.
Arguments EvStart {C} id.
Arguments EvResume {C} id.
Arguments EvFunctor {C} f.
Arguments EvBack {C} id b complete.
Arguments EvSpawn {C} tid.
Arguments EvJoinThread {C} tid.

Definition is_notify {C} (e : event C) : bool :=
  match e with EvNotifyOne | EvNotifyAll => true | _ => false end.

(** The strategy: an opaque policy over the runnable pool. The pool is a
    container of contexts ([_m_users.size()] is its length). *)
Class StrategyTraits (C : Type) := {
  push_ctx : list C -> C -> list C;
  pop_ctx : list C -> option (C * list C)
}.

(** ** std::partition

    The two-pointer algorithm the standard libraries run on bidirectional
    iterators (the zip iterator is one): [first] walks up over elements
    satisfying the predicate, [last] walks down over elements failing it,
    and the two elements they stop at are exchanged. The standard fixes the
    grouping only, not the order inside a group. *)

Section std_partition.
Context {A : Type} (pred : A -> bool).

(** The inner loop on [last]: [None] when [first == last] is reached,
    otherwise the split [mid ++ y :: suf] at the last [y] satisfying
    [pred]. *)
Fixpoint scan_back (l : list A) : option (list A * A * list A) :=
  match l with
  | [] => None
  | x :: l' =>
      match scan_back l' with
      | Some (mid, y, suf) => Some (x :: mid, y, suf)
      | None => if pred x then Some ([], x, l') else None
      end
  end.

(** The result is the pair of the first group and the second group, as
    they lie in the range afterwards. *)
Fixpoint partition_go (fuel : nat) (l : list A) : list A * list A :=
  match l with
  | [] => ([], [])
  | x :: l' =>
      match fuel with
      | O => ([], l)
      | S n =>
          if pred x then
            let '(t, f) := partition_go n l' in (x :: t, f)
          else
            match scan_back l' with
            | None => ([], l)
            | Some (mid, y, suf) =>
                let '(t, f) := partition_go n mid in
                (y :: t, f ++ x :: suf)
            end
      end
  end.

Definition std_partition (l : list A) : list A * list A :=
  partition_go (length l) l.

(** The range is partitioned already: no element that satisfies the
    predicate follows one that fails it. The algorithm then exchanges
    nothing. *)
Fixpoint partitioned (l : list A) : bool :=
  match l with
  | [] => true
  | x :: l' =>
      if pred x then partitioned l' else forallb (fun y => negb (pred y)) l'
  end.

End std_partition.

(** ** boost/mmm/detail/async_io_thread.hpp *)

Module Reactor.

(** Modelled from the spec: [io::detail::pipefd] (boost/mmm/io/detail/pipe.hpp
    is not part of the sources at hand): the self-pipe owns two endpoints,
    and its read end can be closed. *)
Record pipefd := { read_fd : Z; write_fd : Z; read_open : bool }.

Definition pipe_close_read (p : pipefd) : pipefd :=
  {| read_fd := read_fd p; write_fd := write_fd p; read_open := false |}.

(** A [ctxact_vector::iterator]: the node of the list it points to, or the
    singular value of a default-constructed iterator. *)
Abbreviation ctxact_iterator := (option nat).

(** What the zip iterator over both vectors points to. *)
Abbreviation zip_entry := (pollfd * option nat)%type.

Section reactor.
Context {C : Type} `{StrategyTraits C}.

(** [_m_ctxact] is a [container::list]: its nodes keep their identity
    while other nodes are inserted and erased. *)
Record async_io_thread := {
  _m_ctxact : list (nat * C);
  _m_ctxitr : list ctxact_iterator;
  _m_pfds : list pollfd;
  _m_pipe : pipefd
}.

(** [check_event::operator()] *)
Definition check_event (pfd : zip_entry) : bool :=
  negb (revents pfd.1 =? 0).

(** [*it] for a list iterator; [None] is undefined behaviour (a singular
    iterator, or one whose node is gone). *)
Definition deref (l : list (nat * C)) (it : ctxact_iterator) : option C :=
  match it with
  | Some h => (fun r => r.2.2) <$> list_find (fun n => n.1 = h) l
  | None => None
  end.

(** [_m_ctxact.erase(it)] *)
Definition list_erase (l : list (nat * C)) (it : ctxact_iterator)
  : option (list (nat * C)) :=
  match it with
  | Some h =>
      match list_find (fun n => n.1 = h) l with
      | Some (i, _) => Some (delete i l)
      | None => None
      end
  | None => None
  end.

Fixpoint erase_each (l : list (nat * C)) (its : list ctxact_iterator)
  : option (list (nat * C)) :=
  match its with
  | [] => Some l
  | it :: its' => l' ← list_erase l it; erase_each l' its'
  end.

(** The constructor: index 0 of both vectors is the read end of the pipe
    and a default-constructed iterator; the thread starts [exec]. *)
Definition ctor (pipe : pipefd) : async_io_thread :=
  {| _m_ctxact := [];
     _m_ctxitr := [None];
     _m_pfds := [ {| fd := read_fd pipe; events := polling_in; revents := 0 |} ];
     _m_pipe := pipe |}.

(** [restore_and_erase(strategy_traits, scheduler_traits, itr, end)];
    [itr] is the index the zip iterator stands at, [end] the end of both
    vectors. [users] is the scheduler's pool. *)
Definition restore_and_erase (r : async_io_thread) (users : list C) (itr : nat)
  : option (async_io_thread * list C * list (event C)) :=
  moved ← mapM (deref (_m_ctxact r)) (drop itr (_m_ctxitr r));
  ctxact' ← erase_each (_m_ctxact r) (drop itr (_m_ctxitr r));
  Some ({| _m_ctxact := ctxact';
           _m_ctxitr := take itr (_m_ctxitr r);
           _m_pfds := take itr (_m_pfds r);
           _m_pipe := _m_pipe r |},
        foldl push_ctx users moved,
        EvLock :: (EvPush <$> moved) ++ [EvUnlock]).

(** The partition of [exec]: both vectors from index 1 on, through the
    zip iterator; the result is the reactor and the returned position.
    The zip iterators meet only when both vectors have the same length;
    [++begin] needs them non-empty.

    [std::partition] exchanges two entries through what the zip iterator
    dereferences to, a temporary tuple of references that is also the
    iterator's [value_type]; what comes of such an exchange is the standard
    library's and is not fixed by the sources at hand. The partition is
    therefore determined here only on a range that needs no exchange (the
    entries with events are in front already): the vectors then stay as they
    are and the position returned is that of the first entry without an
    event. On every other range the result is [None]. *)
Definition exec_partition (r : async_io_thread) : option (async_io_thread * nat) :=
  match _m_pfds r, _m_ctxitr r with
  | p0 :: ps, i0 :: its =>
      if decide (length ps = length its) then
        if partitioned check_event (zip ps its) then
          let '(t, f) := std_partition check_event (zip ps its) in
          Some ({| _m_ctxact := _m_ctxact r;
                   _m_ctxitr := i0 :: (t ++ f).*2;
                   _m_pfds := p0 :: (t ++ f).*1;
                   _m_pipe := _m_pipe r |},
                S (length t))
        else None
      else None
  | _, _ => None
  end.

(** One turn of the [while (true)] of [exec], given what the wait
    reports. *)
Definition exec_body (r : async_io_thread) (users : list C) (o : poll_report)
  : option (async_io_thread * list C * list (event C)) :=
  let '(pfds, ret, err_code) := poll_fds (_m_pfds r) o in
  let r1 := {| _m_ctxact := _m_ctxact r; _m_ctxitr := _m_ctxitr r;
               _m_pfds := pfds; _m_pipe := _m_pipe r |} in
  if negb err_code && (0 <? ret) then
    '(r2, itr) ← exec_partition r1;
    if decide (itr ≠ length (_m_pfds r2)) then restore_and_erase r2 users itr
    else Some (r2, users, [])
  else Some (r1, users, []).

(** How a loop turn ends. *)
Inductive ctl (S : Type) := Continue (s : S) | Break (s : S).

(** Where a thread running a loop over the reports of the wait is. *)
Inductive run (S : Type) :=
  | Exited (s : S)        (* the loop was left *)
  | Waiting (s : S)       (* in poll_fds, no report yet *)
  | Undefined.            (* undefined behaviour, or a partition left open *)

Fixpoint loop {S I} (body : S -> I -> option (ctl S)) (inputs : list I) (s : S)
  : run S :=
  match inputs with
  | [] => Waiting _ s
  | i :: inputs' =>
      match body s i with
      | Some (Continue _ s') => loop body inputs' s'
      | Some (Break _ s') => Exited _ s'
      | None => Undefined _
      end
  end.

(** [exec]: the body of [while (true)] has neither [break] nor
    [return]. *)
Definition exec (polls : list poll_report) (r : async_io_thread) (users : list C)
  : run (async_io_thread * list C) :=
  loop (fun s o => '(r', users', _) ← exec_body s.1 s.2 o;
                   Some (Continue _ (r', users')))
       polls (r, users).

(** The destructor: close the read end, then join the thread, which
    returns once [exec] has. [None]: the join has not returned. *)
Definition dtor (polls : list poll_report) (r : async_io_thread) (users : list C)
  : option (async_io_thread * list C) :=
  let r' := {| _m_ctxact := _m_ctxact r; _m_ctxitr := _m_ctxitr r;
               _m_pfds := _m_pfds r; _m_pipe := pipe_close_read (_m_pipe r) |} in
  match exec polls r' users with
  | Exited _ s => Some s
  | _ => None
  end.



End reactor.

Arguments async_io_thread C : clear implicits.
Arguments Continue {S} s.
Arguments Break {S} s.
Arguments Exited {S} s.
Arguments Waiting {S} s.
Arguments Undefined {S}.

End Reactor.

(** ** boost/mmm/scheduler.hpp *)

Module Scheduler.

(** *** Contexts

    The stackful context is an external facility. Its function is kept as
    the instructions that remain to be run: a cooperative suspend, the
    call of the user functor, or an exception leaving the context. *)
Inductive instr :=
  | ISuspend            (* ctx.suspend() *)
  | IFunctor (f : nat)  (* _m_functor() is entered *)
  | IRaise.             (* an exception leaves the context *)

(** A zero-argument user functor [lambda::bind(fn, args...)]: a name and
    what it does when it is called. *)
Record functor := { fn_id : nat; fn_body : list instr }.

(** [context_type]: [ctx_id] stands for the address the thread-local slot
    is pointed at. *)
Record context := {
  ctx_id : nat;
  ctx_stacksize : nat;
  ctx_code : list instr;
  ctx_complete : bool
}.

(** [context_starter<F>::operator()]: [_m_ctx.get().suspend(); _m_functor();] *)
Definition context_starter (f : functor) : list instr :=
  ISuspend :: IFunctor (fn_id f) :: fn_body f.

(** Run the context until it suspends, returns or throws: the functors it
    enters on the way, how control comes back, and what remains. *)
Fixpoint run_code (code : list instr) : list nat * back * list instr :=
  match code with
  | [] => ([], Finished, [])
  | ISuspend :: k => ([], Suspended, k)
  | IRaise :: k => ([], Threw, k)
  | IFunctor f :: k => let '(fs, b, k') := run_code k in (f :: fs, b, k')
  end.

(** *** The scheduler and the world of one kernel thread *)

Record thread := { th_joinable : bool }.

Record scheduler := {
  _m_terminate : bool;
  _m_join : bool;
  _m_kernels : gmap nat thread;
  _m_users : list context
}.

(** What other threads do to the scheduler while this one has released
    the mutex. *)
Definition interference : Type := scheduler -> scheduler.

(** [current_ctx] is this thread's slot of boost/mmm/detail/current_context.hpp,
    [local_ctx] the context object the running member function holds
    ([ctx] in [add_thread], the one of [ctx_guard] in [_m_exec]).
    An exhausted interference list means no other thread runs any more: a
    wait then blocks for good and a relock finds the scheduler
    unchanged. *)
Record world := {
  sched : scheduler;
  current_ctx : option nat;
  local_ctx : option context;
  log : list (event context);
  env : list interference
}.

Inductive result (A : Type) :=
  | Done (a : A)
  | Blocked       (* waiting on the condition variable, never woken *)
  | Aborted       (* std::terminate or a failed BOOST_ASSERT *)
  | Raised        (* an exception propagates *)
  | Undefined     (* a violated precondition *)
  | Diverged.     (* a loop that has not ended within its turns *)
Arguments Done {A} a.
Arguments Blocked {A}.
Arguments Aborted {A}.
Arguments Raised {A}.
Arguments Undefined {A}.
Arguments Diverged {A}.

Definition M (A : Type) : Type := world -> result A * world.

Definition ret_ {A} (a : A) : M A := fun w => (Done a, w).

Definition fail_ {A B} (r : result A) : result B :=
  match r with
  | Done _ => Undefined
  | Blocked => Blocked
  | Aborted => Aborted
  | Raised => Raised
  | Undefined => Undefined
  | Diverged => Diverged
  end.

Definition bind_ {A B} (m : M A) (k : A -> M B) : M B :=
  fun w => match m w with
           | (Done a, w') => k a w'
           | (r, w') => (fail_ r, w')
           end.

#[global] Instance M_ret : MRet M := @ret_.
#[global] Instance M_bind : MBind M := fun A B k m => bind_ m k.

(** A scope: [cleanup] is what the destructors of its locals do; they run
    when the scope is left normally and when an exception unwinds it. *)
Definition scope {A} (m : M A) (cleanup : M unit) : M A :=
  fun w => match m w with
           | (Done a, w') =>
               match cleanup w' with
               | (Done _, w'') => (Done a, w'')
               | (r, w'') => (fail_ r, w'')
               end
           | (Raised, w') =>
               match cleanup w' with
               | (Done _, w'') => (Raised, w'')
               | (r, w'') => (fail_ r, w'')
               end
           | (r, w') => (r, w')
           end.

Definition emit (e : event context) : M unit :=
  fun w => (Done tt, {| sched := sched w; current_ctx := current_ctx w;
                        local_ctx := local_ctx w; log := log w ++ [e];
                        env := env w |}).

Definition get_sched : M scheduler := fun w => (Done (sched w), w).

Definition put_sched (s : scheduler) : M unit :=
  fun w => (Done tt, {| sched := s; current_ctx := current_ctx w;
                        local_ctx := local_ctx w; log := log w; env := env w |}).

Definition stop {A} (r : result A) : M A := fun w => (r, w).

(** [if (b) { m }] *)
Definition when_ (b : bool) (m : M unit) : M unit :=
  if b then m else mret tt.

(** [BOOST_ASSERT(b)] *)
Definition boost_assert (b : bool) : M unit :=
  if b then mret tt else stop Aborted.

(** *** Mutex, condition variable, thread-local slot *)

(** The mutex taken at the start of a member function: the world the
    function is run on is the scheduler as it is found when the mutex is
    taken. What other threads do between two calls of member functions,
    while the caller holds no mutex, is [others]. *)
Definition lock : M unit := emit EvLock.
Definition unlock : M unit := emit EvUnlock.

(** [unique_lock<mutex> guard(_m_mtx)] for the extent of [m]. *)
Definition with_lock {A} (m : M A) : M A := lock;; scope m unlock.

(** Taking the mutex again after it was released: the scheduler is as the
    other threads left it. *)
Definition relock : M unit :=
  fun w => match env w with
           | [] => emit EvLock w
           | f :: e =>
               emit EvLock {| sched := f (sched w); current_ctx := current_ctx w;
                              local_ctx := local_ctx w; log := log w; env := e |}
           end.

(** [unique_unlock<mutex> unguard(guard)] for the extent of [m]. *)
Definition with_unlock {A} (m : M A) : M A := unlock;; scope m relock.

(** Between two calls of member functions the calling thread holds no
    mutex: the next call finds the scheduler as the other threads have left
    it. *)
Definition others : M unit :=
  fun w => match env w with
           | [] => (Done tt, w)
           | f :: e =>
               (Done tt, {| sched := f (sched w); current_ctx := current_ctx w;
                            local_ctx := local_ctx w; log := log w; env := e |})
           end.

(** [_m_cond.wait(guard)] *)
Definition cond_wait : M unit :=
  fun w => match env w with
           | [] => (Blocked, w)
           | f :: e =>
               emit EvWait {| sched := f (sched w); current_ctx := current_ctx w;
                              local_ctx := local_ctx w; log := log w; env := e |}
           end.

Definition notify_one : M unit := emit EvNotifyOne.
Definition notify_all : M unit := emit EvNotifyAll.

(** Modelled from the spec: [current_context::set_current_ctx(p)]
    (boost/mmm/detail/current_context.hpp is not part of the sources at hand):
    it writes the thread-local slot of the calling thread. *)
Definition set_current_ctx (p : option nat) : M unit :=
  fun w => emit (EvSetCurrent p)
                {| sched := sched w; current_ctx := p; local_ctx := local_ctx w;
                   log := log w; env := env w |}.

(** [while (cond) body], for a body that waits on the condition variable in
    every turn. *)
Fixpoint while_go (fuel : nat) (cond : scheduler -> bool) (body : M unit) : M unit :=
  fun w =>
    if cond (sched w) then
      match fuel with
      | O => (Diverged, w)
      | S n => (body;; while_go n cond body) w
      end
    else (Done tt, w).

Definition while_ (cond : scheduler -> bool) (body : M unit) : M unit :=
  fun w => while_go (S (length (env w))) cond body w.

(** *** Contexts in the monad *)

Definition get_local : M context :=
  fun w => match local_ctx w with
           | Some c => (Done c, w)
           | None => (Undefined, w)
           end.

Definition set_local (c : option context) : M unit :=
  fun w => (Done tt, {| sched := sched w; current_ctx := current_ctx w;
                        local_ctx := c; log := log w; env := env w |}).

Fixpoint emit_all (es : list (event context)) : M unit :=
  match es with
  | [] => mret tt
  | e :: es' => emit e;; emit_all es'
  end.

(** Control goes into the local context and comes back. *)
Definition enter (call : nat -> event context) : M unit :=
  c ← get_local;
  emit (call (ctx_id c));;
  let '(fs, b, k) := run_code (ctx_code c) in
  let complete := match b with Finished => true | _ => ctx_complete c end in
  emit_all (EvFunctor <$> fs);;
  set_local (Some {| ctx_id := ctx_id c; ctx_stacksize := ctx_stacksize c;
                     ctx_code := k; ctx_complete := complete |});;
  emit (EvBack (ctx_id c) b complete);;
  match b with Threw => stop Raised | _ => mret tt end.

Definition ctx_start : M unit := enter EvStart.
Definition ctx_resume : M unit := enter EvResume.

(** *** Setters of the scheduler's members *)

Definition set_users (s : scheduler) (u : list context) : scheduler :=
  {| _m_terminate := _m_terminate s; _m_join := _m_join s;
     _m_kernels := _m_kernels s; _m_users := u |}.

Definition set_kernels (s : scheduler) (k : gmap nat thread) : scheduler :=
  {| _m_terminate := _m_terminate s; _m_join := _m_join s;
     _m_kernels := k; _m_users := _m_users s |}.

Definition with_join (s : scheduler) (b : bool) : scheduler :=
  {| _m_terminate := _m_terminate s; _m_join := b;
     _m_kernels := _m_kernels s; _m_users := _m_users s |}.

Definition with_terminate (s : scheduler) : scheduler :=
  {| _m_terminate := true; _m_join := _m_join s;
     _m_kernels := _m_kernels s; _m_users := _m_users s |}.

Definition set_join (b : bool) : M unit :=
  s ← get_sched; put_sched (with_join s b);; emit (EvSetJoin b).

Definition set_terminate : M unit :=
  s ← get_sched; put_sched (with_terminate s);; emit EvSetTerminate.

Section scheduler.
Context `{StrategyTraits context}.

(** [strategy_traits().push_ctx(scheduler_traits, move(ctx))] *)
Definition push (c : context) : M unit :=
  s ← get_sched;
  put_sched (set_users s (push_ctx (_m_users s) c));;
  emit (EvPush c).

(** Modelled from the spec: [context_guard] (its header is not part of
    the sources at hand): on entry it takes a context from the
    strategy's pool; it converts to [true] when that context is not
    finished; on scope exit, if the context is not finished, it pushes
    the context back to the pool. *)
Definition guard_take : M unit :=
  s ← get_sched;
  match pop_ctx (_m_users s) with
  | None => stop Undefined
  | Some (c, users) =>
      put_sched (set_users s users);; emit (EvPop c);; set_local (Some c)
  end.

Definition guard_bool : M bool :=
  c ← get_local; mret (negb (ctx_complete c)).

Definition guard_release : M unit :=
  c ← get_local;
  when_ (negb (ctx_complete c)) (push c);;
  set_local None.

(** One turn of the [while (true)] of [_m_exec]; [false] when it is left
    by [break]. *)
Definition _m_exec_turn : M bool :=
  with_lock (
    while_ (fun s => negb (_m_terminate s) && (length (_m_users s) =? 0)%nat)
           cond_wait;;
    s ← get_sched;
    if _m_terminate s then mret false
    else
      guard_take;;
      scope (
        with_unlock (
          scope (c ← get_local;
                 set_current_ctx (Some (ctx_id c));;
                 ctx_resume)
                (set_current_ctx None));;
        b ← guard_bool;
        when_ b (s' ← get_sched;
                 if _m_join s' then notify_all else notify_one);;
        mret true)
        guard_release).

(** [_m_exec], for at most [turns] turns of its loop. *)
Fixpoint _m_exec (turns : nat) : M unit :=
  match turns with
  | O => stop Diverged
  | S n => go ← _m_exec_turn; if (go : bool) then _m_exec n else mret tt
  end.

(** [start_context(ctx)] *)
Definition start_context : M unit :=
  scope (c ← get_local;
         set_current_ctx (Some (ctx_id c));;
         ctx_start)
        (set_current_ctx None).

(** [add_thread(size, fn, args...)]; [id] is where [ctx] lives. *)
Definition add_thread (id size : nat) (fn : functor) : M unit :=
  set_local (Some {| ctx_id := id; ctx_stacksize := size;
                     ctx_code := context_starter fn;
                     ctx_complete := false |});;
  start_context;;
  with_lock (
    c ← get_local;
    push c;;
    set_local None;;
    notify_one).

(** [join_all()] *)
Definition join_all : M unit :=
  with_lock (
    set_join true;;
    while_ (fun s => negb ((length (_m_users s) =? 0)%nat))
           (cond_wait;; notify_one);;
    set_join false).

(** [joinable()] *)
Definition joinable : M bool :=
  with_lock (
    s ← get_sched;
    mret (negb ((length (_m_users s) =? 0)%nat))).

(** [_m_kernels.emplace(th.get_id(), move(th))]: whether it inserted. *)
Definition emplace (tid : nat) (th : thread) : M bool :=
  s ← get_sched;
  match _m_kernels s !! tid with
  | Some _ => mret false
  | None => put_sched (set_kernels s (<[tid := th]> (_m_kernels s)));; mret true
  end.

(** The loop of the constructor; [tid_of i] is the id of the [i]-th
    thread this constructor starts. *)
Fixpoint spawn_workers (tid_of : nat -> nat) (i default_size : nat) : M unit :=
  match default_size with
  | O => mret tt
  | S n =>
      emit (EvSpawn (tid_of i));;
      r ← emplace (tid_of i) {| th_joinable := true |};
      boost_assert r;;
      spawn_workers tid_of (S i) n
  end.

(** [scheduler(default_size)] *)
Definition ctor (tid_of : nat -> nat) (default_size : nat) : M unit :=
  put_sched {| _m_terminate := false; _m_join := false;
               _m_kernels := ∅; _m_users := [] |};;
  spawn_workers tid_of 0 default_size.

Fixpoint join_each (tids : list nat) : M unit :=
  match tids with
  | [] => mret tt
  | tid :: tids' =>
      emit (EvJoinThread tid);;
      s ← get_sched;
      put_sched (set_kernels s (<[tid := {| th_joinable := false |}]> (_m_kernels s)));;
      join_each tids'
  end.

(** [~scheduler()]. The threads are joined in the order in which the table
    is iterated; that order is the container's, and the one of the finite
    map stands for it here. *)
Definition dtor : M unit :=
  j ← joinable;
  if (j : bool) then stop Aborted
  else
    with_lock (set_terminate;; notify_all);;
    s ← get_sched;
    join_each (map_to_list (_m_kernels s)).*1.

(** What the other threads see of a turn of a worker in [_m_exec]: under
    the mutex it takes a context out of the pool; it resumes the context
    with the mutex released; under the mutex again it puts the context back
    when it has not finished. *)
Definition worker_takes : interference :=
  fun s => match pop_ctx (_m_users s) with
           | Some (_, users) => set_users s users
           | None => s
           end.

Definition worker_gives_back (c : context) : interference :=
  fun s => set_users s (push_ctx (_m_users s) c).

End scheduler.

(** A world before anything has run in it. *)
Definition blank (e : list interference) : world :=
  {| sched := {| _m_terminate := false; _m_join := false;
                 _m_kernels := ∅; _m_users := [] |};
     current_ctx := None; local_ctx := None; log := []; env := e |}.

End Scheduler.

(** A first-in first-out strategy, for running the definitions. *)
Definition fifo {C} : StrategyTraits C :=
  {| push_ctx l c := l ++ [c];
     pop_ctx l := match l with [] => None | c :: l' => Some (c, l') end |}.

(** ** What is stated about the reactor *)

Section reactor_statements.
Import Reactor.
Context {C : Type}.

(** The three structures as the code keeps them: the two vectors have the
    same length; index 0 is the read end of the pipe and a singular
    iterator; the iterators from index 1 on are, one for one, the nodes of
    the parked list. *)
Definition aligned (r : async_io_thread C) : Prop :=
  exists p0 ps its,
    _m_pfds r = p0 :: ps /\ _m_ctxitr r = None :: its /\
    fd p0 = read_fd (_m_pipe r) /\
    length ps = length its /\
    its ≡ₚ Some <$> (_m_ctxact r).*1 /\
    NoDup (_m_ctxact r).*1.


(** The record reports an event. *)
Definition ready (p : pollfd) : Prop := revents p <> 0.

#[global] Instance ready_dec p : Decision (ready p).
Proof. unfold ready. apply _. Defined.

(** The reactor once the wait has written the returned events into the
    records. *)
Definition polled (r : async_io_thread C) (o : poll_report) : async_io_thread C :=
  {| _m_ctxact := _m_ctxact r; _m_ctxitr := _m_ctxitr r;
     _m_pfds := write_revents (_m_pfds r) (revents_out o);
     _m_pipe := _m_pipe r |}.

(** From index 1 on, the entries that report an event lie in front of those
    that report none: the partition of [exec] has nothing to exchange. *)
Definition in_order (r : async_io_thread C) : Prop :=
  partitioned check_event (zip (tail (_m_pfds r)) (tail (_m_ctxitr r))) = true.

End reactor_statements.

(** A reactor with two parked contexts, [100] on descriptor 5 and [200] on
    descriptor 6, and reports of the wait. *)
Module Sample.
Import Reactor.

Definition pipe : pipefd := {| read_fd := 3; write_fd := 4; read_open := true |}.

Definition parked2 : async_io_thread nat :=
  {| _m_ctxact := [(1%nat, 100%nat); (2%nat, 200%nat)];
     _m_ctxitr := [None; Some 1%nat; Some 2%nat];
     _m_pfds := [ {| fd := 3; events := 1; revents := 0 |};
                  {| fd := 5; events := 1; revents := 0 |};
                  {| fd := 6; events := 1; revents := 0 |} ];
     _m_pipe := pipe |}.

(** Descriptor 5 is readable, descriptor 6 is not. *)
Definition fd5_readable : poll_report := {| ret := 1; revents_out := [0; 1; 0] |}.

(** The read end of the pipe is closed: [POLLNVAL] at index 0. *)
Definition pipe_closed : poll_report := {| ret := 1; revents_out := [32] |}.

(** Worlds of the scheduler: one primed context in the pool. *)
Definition fn_plain : Scheduler.functor :=
  {| Scheduler.fn_id := 7; Scheduler.fn_body := [] |}.

Definition fn_throws : Scheduler.functor :=
  {| Scheduler.fn_id := 9; Scheduler.fn_body := [Scheduler.IRaise] |}.

Definition primed (fn : Scheduler.functor) : Scheduler.context :=
  {| Scheduler.ctx_id := 1; Scheduler.ctx_stacksize := 64;
     Scheduler.ctx_code := Scheduler.IFunctor (Scheduler.fn_id fn) :: Scheduler.fn_body fn;
     Scheduler.ctx_complete := false |}.

Definition one_user (fn : Scheduler.functor) (e : list Scheduler.interference)
  : Scheduler.world :=
  {| Scheduler.sched :=
       {| Scheduler._m_terminate := false; Scheduler._m_join := false;
          Scheduler._m_kernels := ∅; Scheduler._m_users := [primed fn] |};
     Scheduler.current_ctx := None; Scheduler.local_ctx := None;
     Scheduler.log := []; Scheduler.env := e |}.

(** A worker has taken the last context out of the pool. *)
Definition drained : Scheduler.interference :=
  fun s => Scheduler.set_users s [].

End Sample.

(** ** What is stated about the condition variable *)

(** The three occasions of I3: a context is pushed into the pool,
    termination is set, a resumed context came back unfinished. *)
Definition is_occasion {C} (e : event C) : bool :=
  match e with
  | EvPush _ | EvSetTerminate | EvBack _ Suspended false => true
  | _ => false
  end.

(** The condition variable is notified in a run exactly when one of the
    three occasions occurs in it. *)
Definition notified_exactly_on_occasion {C} (tr : list (event C)) : Prop :=
  (exists e, e ∈ tr /\ is_notify e = true) <->
  (exists e, e ∈ tr /\ is_occasion e = true).

(** ** What is stated about the scheduler *)

Section scheduler_statements.
Import Scheduler.

(** What a computation returns, the world it leaves, and the events it
    adds to the log (its trace). *)
Definition outcome {A} (m : M A) (w : world) : result A := (m w).1.
Definition after {A} (m : M A) (w : world) : world := (m w).2.
Definition trace {A} (m : M A) (w : world) : list (event context) :=
  drop (length (log w)) (log (m w).2).

(** The condition of the inner loop of [_m_exec]. *)
Definition turn_cond (s : scheduler) : bool :=
  negb (_m_terminate s) && (length (_m_users s) =? 0)%nat.

(** The scheduler after other threads have had the mutex in turn. *)
Definition interfered (s : scheduler) (fs : list interference) : scheduler :=
  foldl (fun s f => f s) s fs.

(** A loop body that waits on the condition variable and then only logs
    [post]. *)
Definition waits_then (post : list (event context)) (body : M unit) : Prop :=
  forall w,
    body w =
      match env w with
      | [] => (Blocked, w)
      | f :: e =>
          (Done tt,
           {| sched := f (sched w); current_ctx := current_ctx w;
              local_ctx := local_ctx w; log := log w ++ EvWait :: post;
              env := e |})
      end.

Definition is_wait (e : event context) : bool :=
  match e with EvWait => true | _ => false end.

Definition notifications (tr : list (event context)) : list (event context) :=
  List.filter is_notify tr.

Definition waits (tr : list (event context)) : nat :=
  length (List.filter is_wait tr).

(** A resumed context came back to the worker unfinished. *)
Definition came_back_unfinished (tr : list (event context)) : bool :=
  existsb (fun e => match e with EvBack _ Suspended false => true | _ => false end) tr.

(** The life of the thread-local slot, read off a log. The slot is null
    ([Idle]) until the address of a context is written to it ([Armed]);
    the next event is then the call of [start] or [resume] on that very
    context ([Inside]), where only functors are entered until control
    comes back ([Returned]), and the next event writes null. Outside such
    a bracket the slot is not written and no context is entered. *)
Inductive slot_state := Idle | Armed (id : nat) | Inside (id : nat) | Returned.

Definition slot_step (st : slot_state) (e : event context) : option slot_state :=
  match st, e with
  | Idle, EvSetCurrent (Some id) => Some (Armed id)
  | Idle, (EvSetCurrent None | EvStart _ | EvResume _ | EvFunctor _ | EvBack _ _ _) =>
      None
  | Idle, _ => Some Idle
  | Armed id, (EvStart id' | EvResume id') =>
      if decide (id' = id) then Some (Inside id) else None
  | Inside id, EvFunctor _ => Some (Inside id)
  | Inside id, EvBack id' _ _ => if decide (id' = id) then Some Returned else None
  | Returned, EvSetCurrent None => Some Idle
  | _, _ => None
  end.

Fixpoint slot_run (st : slot_state) (tr : list (event context)) : option slot_state :=
  match tr with
  | [] => Some st
  | e :: tr' => st' ← slot_step st e; slot_run st' tr'
  end.

Definition slot_bracketed (tr : list (event context)) : Prop :=
  slot_run Idle tr = Some Idle.

(** The events that write the slot or pass control to a context or back,
    and a stretch of a log without any of them. *)
Definition slot_event (e : event context) : bool :=
  match e with
  | EvSetCurrent _ | EvStart _ | EvResume _ | EvFunctor _ | EvBack _ _ _ => true
  | _ => false
  end.

Definition slot_free (tr : list (event context)) : Prop :=
  Forall (fun e => slot_event e = false) tr.

End scheduler_statements.

(** ** What is stated about runs of the reactor *)

Section reactor_run_statements.
Import Reactor.
Context {C : Type} `{StrategyTraits C}.

(** No turn of the run of the loop over these reports has anything to
    exchange in its partition. *)
Fixpoint turns_in_order (polls : list poll_report) (r : async_io_thread C)
    (users : list C) : Prop :=
  match polls with
  | [] => True
  | o :: polls' =>
      (0 < ret o -> in_order (polled r o)) /\
      match exec_body r users o with
      | Some (r', users', _) => turns_in_order polls' r' users'
      | None => True
      end
  end.

End reactor_run_statements.

(** ** boost/mmm/io/detail/poll.hpp: [poll_fds_impl]

    Both branches of [poll_fds_impl]. The operating system's call is an
    argument: a function from what it is called with to what it reports.
    The arithmetic of durations is written over the integers; what is
    stated about it bounds the timeout, so that no value of the computation
    leaves the range of a 64-bit integer. What is stored into an [int], a
    [time_t] or a [suseconds_t] keeps the low bits of the value. *)

Module PollImpl.

(** [polling_events::out] and [polling_events::io] (the select fallback:
    [1 << 1] and [in & out]). *)
Definition polling_out : Z := Z.shiftl 1 1.
Definition polling_io : Z := Z.land polling_in polling_out.

(** [int]: 32 bits; the conversion of a wider integer keeps the low 32
    bits, and an [int] sum beyond [INT_MAX] is undefined. *)
Definition int_max : Z := 2 ^ 31 - 1.
Definition to_int (z : Z) : Z := (z + 2 ^ 31) mod 2 ^ 32 - 2 ^ 31.

(** [time_t] and [suseconds_t]: [long], 64 bits. *)
Definition to_long (z : Z) : Z := (z + 2 ^ 63) mod 2 ^ 64 - 2 ^ 63.

(** [boost::chrono::duration<Rep, Period>]: [ticks] periods of
    [period_num / period_den] seconds. *)
Record duration := { ticks : Z; period_num : Z; period_den : Z }.

(** [duration_cast<duration<_, ratio<n, d> > >(x).count()]: the count is
    scaled by the quotient of the periods and truncated toward zero. *)
Definition duration_cast (n d : Z) (x : duration) : Z :=
  (ticks x * (period_num x * d)) ÷ (period_den x * n).

(** [*timeout - sec], in the common type of both operands: its period is
    [1 / period_den]. *)
Definition minus_seconds (x : duration) (sec : Z) : duration :=
  {| ticks := ticks x * period_num x - sec * period_den x;
     period_num := 1; period_den := period_den x |}.

(** *** With [poll] *)

Module HasPoll.

(** [const int to]: the timeout cast to milliseconds, or [-1] without a
    timeout. *)
Definition poll_timeout (timeout : option duration) : Z :=
  match timeout with
  | Some x => to_int (duration_cast 1 1000 x)
  | None => -1
  end.

(** [poll_fds_impl(fds, count, timeout, err_code)]; [poll fds count to] is
    what [::poll] reports. *)
Definition poll_fds_impl (poll : list pollfd -> Z -> Z -> poll_report)
    (fds : list pollfd) (timeout : option duration) : list pollfd * Z * bool :=
  let to := poll_timeout timeout in
  poll_fds fds (poll fds (Z.of_nat (length fds)) to).

End HasPoll.

(** *** With [select] *)

Module Select.

Record timeval := { tv_sec : Z; tv_usec : Z }.

(** [timeval _to, *to = 0; if (timeout) { ... to = &_to; }] *)
Definition select_timeout (timeout : option duration) : option timeval :=
  match timeout with
  | Some x =>
      let sec := duration_cast 1 1 x in
      Some {| tv_sec := to_long sec;
              tv_usec := to_long (duration_cast 1 1000000 (minus_seconds x sec)) |}
  | None => None
  end.

(** What [::select] is called with, and what it reports: its result and
    the two sets as it leaves them. *)
Record select_call := {
  nfds : Z;
  readfds : gset Z;
  writefds : gset Z;
  to : option timeval
}.

Record select_report := {
  result : Z;
  readfds_out : gset Z;
  writefds_out : gset Z
}.

Section select.
(** The capacity of an [fd_set]. *)
Variable FD_SETSIZE : Z.

(** [FD_SET(fd, &set)] and [FD_ISSET(fd, &set)]: undefined for a
    descriptor outside of the set's capacity. *)
Definition FD_SET (d : Z) (s : gset Z) : option (gset Z) :=
  if (0 <=? d) && (d <? FD_SETSIZE) then Some ({[ d ]} ∪ s) else None.

Definition FD_ISSET (d : Z) (s : gset Z) : option bool :=
  if (0 <=? d) && (d <? FD_SETSIZE) then Some (bool_decide (d ∈ s)) else None.

(** The first loop: the greatest descriptor and the two sets. *)
Fixpoint collect (fds : list pollfd) (n : Z) (r w : gset Z)
  : option (Z * gset Z * gset Z) :=
  match fds with
  | [] => Some (n, r, w)
  | p :: fds' =>
      let n' := if n <? fd p then fd p else n in
      r' ← (if Z.land (events p) polling_in =? 0 then Some r else FD_SET (fd p) r);
      w' ← (if Z.land (events p) polling_out =? 0 then Some w else FD_SET (fd p) w);
      collect fds' n' r' w'
  end.

(** The arguments of [::select(nfds + 1, &readfds, &writefds, 0, to)]. *)
Definition select_args (fds : list pollfd) (timeout : option duration)
  : option select_call :=
  '(n, r, w) ← collect fds (-1) ∅ ∅;
  if n <? int_max then
    Some {| nfds := n + 1; readfds := r; writefds := w;
            to := select_timeout timeout |}
  else None.

(** The body of the second loop. *)
Definition fill (r w : gset Z) (p : pollfd) : option pollfd :=
  rd ← (if Z.land (events p) polling_in =? 0 then Some false
        else FD_ISSET (fd p) r);
  wr ← (if Z.land (events p) polling_out =? 0 then Some false
        else FD_ISSET (fd p) w);
  let revents1 := if (rd : bool) then Z.lor 0 polling_in else 0 in
  let revents2 := if (wr : bool) then Z.lor revents1 polling_out else revents1 in
  Some {| fd := fd p; events := events p; revents := revents2 |}.

(** Some event is requested on the record, so that its descriptor is put
    into a set. *)
Definition requested (p : pollfd) : Prop :=
  Z.land (events p) polling_in <> 0 \/ Z.land (events p) polling_out <> 0.

(** [poll_fds_impl(fds, count, timeout, err_code)]; [select call] is what
    [::select] reports. *)
Definition poll_fds_impl (select : select_call -> select_report)
    (fds : list pollfd) (timeout : option duration)
  : option (list pollfd * Z * bool) :=
  call ← select_args fds timeout;
  let o := select call in
  let '(res, err_code) := poll_result_handling (result o) in
  fds' ← mapM (fill (readfds_out o) (writefds_out o)) fds;
  Some (fds', res, err_code).

End select.

End Select.

End PollImpl.

(** ** boost/mmm/detail/async_io_thread.hpp: the zip iterator *)

Module Zip.

(** [zip_iterator<IteratorTuple>]: [_m_iterator_tuple], each component the
    position of a random access iterator in its own container. *)
Definition zip_iterator := list Z.

(** [operator++()] and [operator--()]: every component is moved. *)
Definition incr (it : zip_iterator) : zip_iterator := Z.succ <$> it.
Definition decr (it : zip_iterator) : zip_iterator := Z.pred <$> it.

(** [operator++(int)] and [operator--(int)]: the value returned and the
    iterator afterwards. *)
Definition post_incr (it : zip_iterator) : zip_iterator * zip_iterator :=
  (it, incr it).
Definition post_decr (it : zip_iterator) : zip_iterator * zip_iterator :=
  (it, decr it).

(** [equal::operator()] on one component. *)
Definition equal (l r : Z) : bool := l =? r.

(** [operator==]: [fusion::all] of [equal] over the zip of both tuples;
    [operator!=] is its negation. *)
Definition op_eq (l r : zip_iterator) : bool :=
  forallb (fun lr => equal lr.1 lr.2) (zip l r).
Definition op_ne (l r : zip_iterator) : bool := negb (op_eq l r).

End Zip.

(** ** What is stated about runs of a worker *)

Section scheduler_run_statements.
Import Scheduler.

(** How often a worker resumes a context in a run, and the functors that
    are entered in it, in order. *)
Definition resumes (tr : list (event context)) : nat :=
  length (List.filter (fun e => match e with EvResume _ => true | _ => false end) tr).

Definition entered (tr : list (event context)) : list nat :=
  omap (fun e => match e with EvFunctor f => Some f | _ => None end) tr.

(** The suspends and the functor calls in the code of a context. *)
Definition suspends (code : list instr) : nat :=
  length (List.filter (fun i => match i with ISuspend => true | _ => false end) code).

Definition functors_of (code : list instr) : list nat :=
  omap (fun i => match i with IFunctor f => Some f | _ => None end) code.

End scheduler_run_statements.

(** A world in which the destructor has set the termination flag while a
    context is still in the pool. *)
Module Worlds.

Definition terminated_one_user : Scheduler.world :=
  {| Scheduler.sched :=
       {| Scheduler._m_terminate := true; Scheduler._m_join := false;
          Scheduler._m_kernels := ∅;
          Scheduler._m_users := [Sample.primed Sample.fn_plain] |};
     Scheduler.current_ctx := None; Scheduler.local_ctx := None;
     Scheduler.log := []; Scheduler.env := [] |}.

(** A functor that suspends once, the context primed with it, and the
    context after its first resume. *)
Definition fn_suspends : Scheduler.functor :=
  {| Scheduler.fn_id := 8; Scheduler.fn_body := [Scheduler.ISuspend] |}.

Definition resumed_once : Scheduler.context :=
  {| Scheduler.ctx_id := 1; Scheduler.ctx_stacksize := 64;
     Scheduler.ctx_code := []; Scheduler.ctx_complete := false |}.

(** [join_all] is called while a worker is resuming the only context: the
    worker has taken it out of the pool, and will put it back. *)
Definition joining_while_running : Scheduler.world :=
  {| Scheduler.sched :=
       Scheduler.worker_takes (H := fifo)
         (Scheduler.sched (Sample.one_user fn_suspends []));
     Scheduler.current_ctx := None; Scheduler.local_ctx := None;
     Scheduler.log := [];
     Scheduler.env := [Scheduler.worker_gives_back (H := fifo) resumed_once] |}.

End Worlds.

(** * Properties *)

(** ** std::partition meets the contract of the standard *)

Section std_partition_facts.
Context {A : Type} (pred : A -> bool).

Lemma scan_back_Some l mid y suf :
  scan_back pred l = Some (mid, y, suf) ->
  l = mid ++ y :: suf /\ pred y = true /\ Forall (fun x => pred x = false) suf.
Proof.
  revert mid y suf. induction l as [|x l IH]; intros mid y suf; simpl; [done|].
  destruct (scan_back pred l) as [[[mid' y'] suf']|] eqn:E.
  - intros [= <- <- <-]. destruct (IH _ _ _ eq_refl) as (-> & ? & ?). done.
  - destruct (pred x) eqn:Hx; [|done]. intros [= <- <- <-].
    split; [done|]. split; [done|].
    clear IH Hx. induction l as [|z l IH]; [constructor|].
    simpl in E. destruct (scan_back pred l) as [[[? ?] ?]|]; [done|].
    destruct (pred z) eqn:Hz; [done|]. constructor; auto.
Qed.

Lemma scan_back_None l :
  scan_back pred l = None -> Forall (fun x => pred x = false) l.
Proof.
  induction l as [|x l IH]; simpl; [constructor|].
  destruct (scan_back pred l) as [[[? ?] ?]|]; [done|].
  destruct (pred x) eqn:Hx; [done|]. constructor; auto.
Qed.

Lemma partition_go_spec fuel l t f :
  (length l <= fuel)%nat ->
  partition_go pred fuel l = (t, f) ->
  t ++ f ≡ₚ l /\
  Forall (fun x => pred x = true) t /\ Forall (fun x => pred x = false) f.
Proof.
  revert l t f. induction fuel as [|n IH]; intros l t f Hlen.
  - destruct l; simpl in *; [|lia]. intros [= <- <-]. done.
  - destruct l as [|x l]; simpl in *; [intros [= <- <-]; done|].
    destruct (pred x) eqn:Hx.
    + destruct (partition_go pred n l) as [t' f'] eqn:E. intros [= <- <-].
      destruct (IH l t' f' ltac:(lia) E) as (Hp & Ht & Hf).
      split; [simpl; by rewrite Hp|]. split; [by constructor|done].
    + destruct (scan_back pred l) as [[[mid y] suf]|] eqn:Es.
      * destruct (partition_go pred n mid) as [t' f'] eqn:E. intros [= <- <-].
        apply scan_back_Some in Es as (-> & Hy & Hsuf).
        rewrite length_app in Hlen. simpl in Hlen.
        destruct (IH mid t' f' ltac:(lia) E) as (Hp & Ht & Hf).
        split.
        { simpl. rewrite (assoc_L (++)), Hp.
          rewrite <- !Permutation_middle. apply perm_swap. }
        split; [by constructor|].
        apply Forall_app. split; [done|]. by constructor.
      * intros [= <- <-]. apply scan_back_None in Es.
        split; [done|]. split; [constructor|by constructor].
Qed.

Lemma std_partition_spec l t f :
  std_partition pred l = (t, f) ->
  t ++ f ≡ₚ l /\
  Forall (fun x => pred x = true) t /\ Forall (fun x => pred x = false) f.
Proof. apply partition_go_spec. done. Qed.

Lemma filter_all (P : A -> Prop) `{forall x, Decision (P x)} l :
  Forall P l -> filter P l = l.
Proof.
  induction 1 as [|x l Hx _ IH]; [done|]. by rewrite filter_cons_True, IH.
Qed.

Lemma filter_none (P : A -> Prop) `{forall x, Decision (P x)} l :
  Forall (fun x => ~ P x) l -> filter P l = [].
Proof.
  induction 1 as [|x l Hx _ IH]; [done|]. by rewrite filter_cons_False.
Qed.

(** The first group is made of the elements satisfying the predicate, the
    second of the others. *)
Lemma std_partition_groups l t f :
  std_partition pred l = (t, f) ->
  t ≡ₚ filter (fun x => pred x = true) l /\
  f ≡ₚ filter (fun x => pred x = false) l.
Proof.
  intros (Hp & Ht & Hf)%std_partition_spec. rewrite <- Hp, !filter_app. split.
  - rewrite (filter_all _ t Ht), (filter_none _ f).
    + by rewrite (right_id_L [] (++)).
    + eapply Forall_impl; [exact Hf|]. simpl. intros x ->. done.
  - rewrite (filter_none _ t), (filter_all _ f Hf); [done|].
    eapply Forall_impl; [exact Ht|]. simpl. intros x ->. done.
Qed.

Lemma scan_back_all_false l :
  forallb (fun y => negb (pred y)) l = true -> scan_back pred l = None.
Proof.
  induction l as [|x l IH]; [done|]. cbn.
  intros [Hx Hl]%andb_true_iff. rewrite (IH Hl).
  by rewrite (proj1 (negb_true_iff _) Hx).
Qed.

(** On a range that is partitioned already the algorithm exchanges
    nothing: the two groups are the range cut at the returned position. *)
Lemma partition_go_partitioned fuel l :
  (length l <= fuel)%nat -> partitioned pred l = true ->
  exists t f, partition_go pred fuel l = (t, f) /\ t ++ f = l.
Proof.
  revert l. induction fuel as [|n IH]; intros [|x l] Hlen Hp; cbn in *;
    try lia; try (by exists [], []).
  destruct (pred x) eqn:Hx.
  - destruct (IH l ltac:(lia) Hp) as (t & f & -> & <-). by exists (x :: t), f.
  - rewrite (scan_back_all_false l Hp). by exists [], (x :: l).
Qed.

Lemma std_partition_partitioned l :
  partitioned pred l = true ->
  exists t f, std_partition pred l = (t, f) /\ t ++ f = l.
Proof. apply partition_go_partitioned. done. Qed.

Lemma partitioned_app t f :
  Forall (fun x => pred x = true) t -> Forall (fun x => pred x = false) f ->
  partitioned pred (t ++ f) = true.
Proof.
  intros Ht Hf. induction Ht as [|x t Hx _ IH]; cbn.
  - destruct f as [|y f]; [done|]. cbn. apply Forall_cons in Hf as [Hy Hf].
    rewrite Hy. clear Hy. induction Hf as [|z f Hz _ IH]; [done|].
    cbn. by rewrite Hz.
  - by rewrite Hx.
Qed.

End std_partition_facts.

(** The algorithm is not stable: with one element failing the predicate in
    front, the two that satisfy it come out in the opposite order. *)
Example std_partition_not_stable :
  std_partition (fun x => x <? 10) [20; 1; 2] = ([2; 1], [20]).
Proof. reflexivity. Qed.

(** ** The reactor *)

Section reactor_facts.
Import Reactor.
Context {C : Type} `{StrategyTraits C}.

Lemma write_revents_length fds rs : length (write_revents fds rs) = length fds.
Proof.
  revert rs. induction fds as [|p fds IH]; intros [|r rs]; simpl; auto.
Qed.

Lemma write_revents_fd fds rs : fd <$> write_revents fds rs = fd <$> fds.
Proof.
  revert rs. induction fds as [|p fds IH]; intros [|r rs]; simpl; auto.
  by rewrite IH.
Qed.

Lemma aligned_lengths (r : async_io_thread C) :
  aligned r ->
  length (_m_pfds r) = length (_m_ctxitr r) /\
  length (_m_pfds r) = S (length (_m_ctxact r)).
Proof.
  intros (p0 & ps & its & -> & -> & _ & Hlen & Hperm & _). simpl.
  apply Permutation_length in Hperm. rewrite !length_fmap in Hperm. lia.
Qed.




(** A valid iterator is dereferenced and erased without fault. *)
Lemma list_find_key (l : list (nat * C)) h :
  h ∈ l.*1 ->
  exists i c, list_find (fun n => n.1 = h) l = Some (i, (h, c)) /\ l !! i = Some (h, c).
Proof.
  intros Hin. apply list_elem_of_fmap in Hin as ([k c] & -> & Hin). simpl.
  destruct (list_find (fun n => n.1 = k) l) as [[i [k' c']]|] eqn:E.
  - pose proof E as (Hi & Hk & _)%list_find_Some. simpl in Hk. subst k'. eauto.
  - apply list_find_None in E. rewrite Forall_forall in E.
    exfalso. by apply (E _ Hin).
Qed.

Lemma deref_valid (l : list (nat * C)) h :
  h ∈ l.*1 -> exists c, deref l (Some h) = Some c /\ (h, c) ∈ l.
Proof.
  intros (i & c & E & Hi)%list_find_key. exists c. unfold deref. rewrite E.
  split; [done|]. by eapply list_elem_of_lookup_2.
Qed.

Lemma erase_each_spec (erased : list ctxact_iterator) :
  forall (l : list (nat * C)) (kept : list ctxact_iterator),
    NoDup l.*1 ->
    kept ++ erased ≡ₚ Some <$> l.*1 ->
    exists l', erase_each l erased = Some l' /\
               kept ≡ₚ Some <$> l'.*1 /\ NoDup l'.*1 /\ l' ⊆ l.
Proof.
  induction erased as [|it erased IH]; intros l kept Hnd Hperm; simpl.
  - exists l. rewrite (right_id_L [] (++)) in Hperm. done.
  - assert (it ∈ Some <$> l.*1) as Hit.
    { rewrite <- Hperm. apply elem_of_app. right. apply elem_of_cons. by left. }
    apply list_elem_of_fmap in Hit as (h & -> & Hh).
    destruct (list_find_key l h Hh) as (i & c & E & Hi).
    simpl. rewrite E. simpl.
    assert (l.*1 !! i = Some h) as Hi' by (by rewrite list_lookup_fmap, Hi).
    destruct (IH (delete i l) kept) as (l' & E' & Hk & Hnd' & Hsub).
    + rewrite list_fmap_delete. exact (sublist_NoDup _ _ Hnd (sublist_delete _ _)).
    + rewrite list_fmap_delete.
      apply (Permutation_cons_inv (a := Some h)).
      rewrite Permutation_middle, Hperm.
      rewrite (delete_Permutation _ _ _ Hi') at 1. done.
    + exists l'. split; [done|]. split; [done|]. split; [done|].
      etrans; [exact Hsub|]. apply sublist_subseteq, sublist_delete.
Qed.

(** The partition keeps the alignment: it permutes the entries from index
    1 on, in both vectors at once. *)
Lemma exec_partition_aligned (r : async_io_thread C) :
  aligned r -> in_order r ->
  exists p0 ps its t f,
    _m_pfds r = p0 :: ps /\ _m_ctxitr r = None :: its /\
    std_partition check_event (zip ps its) = (t, f) /\
    exec_partition r =
      Some ({| _m_ctxact := _m_ctxact r;
               _m_ctxitr := None :: t.*2 ++ f.*2;
               _m_pfds := p0 :: t.*1 ++ f.*1;
               _m_pipe := _m_pipe r |}, S (length t)) /\
    aligned {| _m_ctxact := _m_ctxact r;
               _m_ctxitr := None :: t.*2 ++ f.*2;
               _m_pfds := p0 :: t.*1 ++ f.*1;
               _m_pipe := _m_pipe r |} /\
    t ++ f = zip ps its.
Proof.
  intros (p0 & ps & its & Hp & Hi & Hfd & Hlen & Hperm & Hnd) Hord.
  unfold in_order in Hord. rewrite Hp, Hi in Hord. cbn [tail] in Hord.
  destruct (std_partition_partitioned _ _ Hord) as (t & f & E & Htf).
  exists p0, ps, its, t, f. split; [done|]. split; [done|]. split; [done|].
  unfold exec_partition. rewrite Hp, Hi, decide_True by done. rewrite Hord, E.
  rewrite !fmap_app. split; [done|]. split; [|done].
  apply std_partition_spec in E as (Hz & _ & _).
  exists p0, (t.*1 ++ f.*1), (t.*2 ++ f.*2). simpl.
  split; [done|]. split; [done|]. split; [done|].
  split; [by rewrite !length_app, !length_fmap|].
  split; [|done].
  rewrite <- Hperm, <- fmap_app, Hz. rewrite snd_zip by lia. done.
Qed.

(** Restoring and erasing the range from a position on keeps the
    alignment of what stays, and touches neither index 0 nor the entries
    before the position. *)
Lemma restore_and_erase_aligned (r : async_io_thread C) users p0 tps fps tits fits :
  _m_pfds r = p0 :: tps ++ fps ->
  _m_ctxitr r = None :: tits ++ fits ->
  length tps = length tits ->
  aligned r ->
  exists ctxact' moved,
    restore_and_erase r users (S (length tits)) =
      Some ({| _m_ctxact := ctxact'; _m_ctxitr := None :: tits;
               _m_pfds := p0 :: tps; _m_pipe := _m_pipe r |},
            foldl push_ctx users moved,
            EvLock :: (EvPush <$> moved) ++ [EvUnlock]) /\
    aligned {| _m_ctxact := ctxact'; _m_ctxitr := None :: tits;
               _m_pfds := p0 :: tps; _m_pipe := _m_pipe r |} /\
    ctxact' ⊆ _m_ctxact r /\
    Forall2 (fun it c => exists h, it = Some h /\ (h, c) ∈ _m_ctxact r) fits moved.
Proof.
  intros Hp Hi Hlen (p0' & ps & its & Hp' & Hi' & Hfd & _ & Hperm & Hnd).
  rewrite Hp in Hp'. rewrite Hi in Hi'.
  injection Hp' as <- <-. injection Hi' as <-.
  destruct (erase_each_spec fits (_m_ctxact r) tits Hnd Hperm)
    as (ctxact' & Eerase & Hkept & Hnd' & Hsub).
  assert (Forall (fun it => exists h, it = Some h /\ h ∈ (_m_ctxact r).*1) fits) as Hvalid.
  { apply Forall_forall. intros it Hit.
    assert (it ∈ Some <$> (_m_ctxact r).*1) as Hin.
    { rewrite <- Hperm. apply elem_of_app. by right. }
    apply list_elem_of_fmap in Hin as (h & -> & Hh). eauto. }
  assert (exists moved, mapM (deref (_m_ctxact r)) fits = Some moved /\
            Forall2 (fun it c => exists h, it = Some h /\ (h, c) ∈ _m_ctxact r) fits moved)
    as (moved & Emoved & Hmoved).
  { clear -Hvalid. induction Hvalid as [|it fits (h & -> & Hh) _ (moved & E & HF)].
    - exists []. split; [done|constructor].
    - destruct (deref_valid _ _ Hh) as (c & Ec & Hc).
      exists (c :: moved). split.
      + apply mapM_Some. constructor; [done|]. by apply mapM_Some.
      + constructor; eauto. }
  exists ctxact', moved. unfold restore_and_erase. rewrite Hi, Hp.
  cbn [drop take]. rewrite drop_app_length, take_app_length.
  rewrite (take_app_length' tps) by done.
  rewrite Emoved. simpl. rewrite Eerase. simpl.
  split; [done|]. split; [|done].
  exists p0, tps, tits. simpl. done.
Qed.

Lemma check_event_ready (e : zip_entry) : check_event e = true <-> ready e.1.
Proof.
  unfold check_event, ready. rewrite negb_true_iff, Z.eqb_neq. tauto.
Qed.

Lemma check_event_not_ready (e : zip_entry) : check_event e = false <-> ~ ready e.1.
Proof.
  unfold check_event, ready. rewrite negb_false_iff, Z.eqb_eq. lia.
Qed.

Lemma aligned_polled (r : async_io_thread C) rs :
  aligned r ->
  aligned {| _m_ctxact := _m_ctxact r; _m_ctxitr := _m_ctxitr r;
             _m_pfds := write_revents (_m_pfds r) rs; _m_pipe := _m_pipe r |}.
Proof.
  intros (p0 & ps & its & Hp & Hi & Hfd & Hlen & Hperm & Hnd).
  pose proof (write_revents_length (_m_pfds r) rs) as Hl.
  pose proof (write_revents_fd (_m_pfds r) rs) as Hf.
  revert Hl Hf. rewrite Hp.
  destruct (write_revents (p0 :: ps) rs) as [|q0 qs]; [done|].
  simpl. intros Hl Hf. injection Hf as Hf0 _.
  exists q0, qs, its. simpl. repeat split; try done; congruence.
Qed.

(** One turn of the loop after a successful wait that reports a positive
    count: the entries from index 1 on are partitioned, and the second
    group, when it is not empty, is restored and erased. *)
Lemma exec_body_ok (r : async_io_thread C) users o :
  aligned r -> 0 < ret o -> in_order (polled r o) ->
  exists p0 ps its t f ctxact' moved,
    write_revents (_m_pfds r) (revents_out o) = p0 :: ps /\
    _m_ctxitr r = None :: its /\
    std_partition check_event (zip ps its) = (t, f) /\
    exec_body r users o =
      Some ({| _m_ctxact := ctxact'; _m_ctxitr := None :: t.*2;
               _m_pfds := p0 :: t.*1; _m_pipe := _m_pipe r |},
            foldl push_ctx users moved,
            if decide (f = []) then []
            else EvLock :: (EvPush <$> moved) ++ [EvUnlock]) /\
    aligned {| _m_ctxact := ctxact'; _m_ctxitr := None :: t.*2;
               _m_pfds := p0 :: t.*1; _m_pipe := _m_pipe r |} /\
    ctxact' ⊆ _m_ctxact r /\
    Forall2 (fun it c => exists h, it = Some h /\ (h, c) ∈ _m_ctxact r) f.*2 moved /\
    t ++ f = zip ps its.
Proof.
  intros Hal Hret Hord.
  pose proof (aligned_polled r (revents_out o) Hal) as Hal1.
  destruct (exec_partition_aligned _ Hal1 Hord)
    as (p0 & ps & its & t & f & Hp & Hi & E & Epart & Hal2 & Htf).
  cbn [_m_ctxact _m_ctxitr _m_pfds _m_pipe] in Hp, Hi, Epart, Hal2.
  unfold exec_body, poll_fds, poll_result_handling.
  replace (ret o <? 0) with false by lia.
  replace (0 <? ret o) with true by lia.
  cbn [negb andb]. rewrite Epart. cbn [mbind option_bind]. cbn [_m_pfds].
  destruct (decide (f = [])) as [->|Hf].
  - exists p0, ps, its, t, [], (_m_ctxact r), [].
    rewrite decide_False
      by (simpl; rewrite (right_id_L [] (++)), length_fmap; lia).
    simpl in *. rewrite !(right_id_L [] (++)) in *.
    repeat split; try done; constructor.
  - destruct (restore_and_erase_aligned
                {| _m_ctxact := _m_ctxact r; _m_ctxitr := None :: t.*2 ++ f.*2;
                   _m_pfds := p0 :: t.*1 ++ f.*1; _m_pipe := _m_pipe r |}
                users p0 t.*1 f.*1 t.*2 f.*2
                eq_refl eq_refl ltac:(by rewrite !length_fmap) Hal2)
      as (ctxact' & moved & Eres & Hal3 & Hsub & Hmoved).
    cbn [_m_ctxact _m_pipe] in Eres, Hal3, Hsub, Hmoved.
    rewrite length_fmap in Eres.
    exists p0, ps, its, t, f, ctxact', moved.
    rewrite decide_True.
    + rewrite Eres, (decide_False (P := f = [])) by done. done.
    + simpl. rewrite length_app, !length_fmap. destruct f; [done|]. simpl. lia.
Qed.

(** A turn after a failed wait, or one that reports nothing, changes only
    the returned events. *)
Lemma exec_body_idle (r : async_io_thread C) users o :
  ret o <= 0 ->
  exec_body r users o =
    Some ({| _m_ctxact := _m_ctxact r; _m_ctxitr := _m_ctxitr r;
             _m_pfds := write_revents (_m_pfds r) (revents_out o);
             _m_pipe := _m_pipe r |}, users, []).
Proof.
  intros Hret. unfold exec_body, poll_fds, poll_result_handling.
  replace (0 <? ret o) with false by lia. by rewrite andb_false_r.
Qed.

Lemma exec_body_aligned (r : async_io_thread C) users o :
  aligned r -> (0 < ret o -> in_order (polled r o)) ->
  exists r' users' tr, exec_body r users o = Some (r', users', tr) /\ aligned r'.
Proof.
  intros Hal Hord. destruct (decide (0 < ret o)) as [Hret|Hret].
  - destruct (exec_body_ok r users o Hal Hret (Hord Hret))
      as (p0 & ps & its & t & f & ctxact' & moved & _ & _ & _ & E & Hal' & _).
    eauto.
  - rewrite exec_body_idle by lia. eexists _, _, _. split; [done|].
    by apply aligned_polled.
Qed.

End reactor_facts.

Section reactor_more_facts.
Import Reactor.
Context {C : Type} `{StrategyTraits C}.

Lemma write_revents_events fds rs : events <$> write_revents fds rs = events <$> fds.
Proof.
  revert rs. induction fds as [|p fds IH]; intros [|r rs]; simpl; auto.
  by rewrite IH.
Qed.

Lemma node_unique (l : list (nat * C)) h c1 c2 :
  NoDup l.*1 -> (h, c1) ∈ l -> (h, c2) ∈ l -> c1 = c2.
Proof.
  induction l as [|[k c] l IH]; [by intros _ ?%elem_of_nil|].
  rewrite fmap_cons. cbn [fst]. intros [Hk Hnd]%NoDup_cons.
  intros [E1|H1]%elem_of_cons [E2|H2]%elem_of_cons.
  - congruence.
  - injection E1 as -> ->. destruct Hk. apply list_elem_of_fmap. by exists (k, c2).
  - injection E2 as -> ->. destruct Hk. apply list_elem_of_fmap. by exists (k, c1).
  - by apply IH.
Qed.

Lemma deref_elem_of (l : list (nat * C)) h c :
  NoDup l.*1 -> (h, c) ∈ l -> deref l (Some h) = Some c.
Proof.
  intros Hnd Hin.
  destruct (deref_valid l h) as (c' & E & Hin').
  { apply list_elem_of_fmap. by exists (h, c). }
  rewrite E. f_equal. by eapply node_unique.
Qed.

(** Erasing valid, distinct iterators takes exactly their nodes out of the
    list: what was dereferenced and what is left make up the list. *)
Lemma erase_each_content (erased : list ctxact_iterator) :
  forall (l : list (nat * C)) (kept : list ctxact_iterator),
    NoDup l.*1 ->
    kept ++ erased ≡ₚ Some <$> l.*1 ->
    exists l' moved,
      erase_each l erased = Some l' /\
      mapM (deref l) erased = Some moved /\
      l.*2 ≡ₚ moved ++ l'.*2.
Proof.
  induction erased as [|it erased IH]; intros l kept Hnd Hperm.
  - exists l, []. done.
  - assert (it ∈ Some <$> l.*1) as Hit.
    { rewrite <- Hperm. apply elem_of_app. right. apply elem_of_cons. by left. }
    apply list_elem_of_fmap in Hit as (h & -> & Hh).
    destruct (list_find_key l h Hh) as (i & c & E & Hi).
    assert (l.*1 !! i = Some h) as Hi' by (by rewrite list_lookup_fmap, Hi).
    assert (NoDup (delete i l).*1) as Hnd1.
    { rewrite list_fmap_delete. exact (sublist_NoDup _ _ Hnd (sublist_delete _ _)). }
    assert (kept ++ erased ≡ₚ Some <$> (delete i l).*1) as Hperm1.
    { rewrite list_fmap_delete. apply (Permutation_cons_inv (a := Some h)).
      rewrite Permutation_middle, Hperm.
      rewrite (delete_Permutation _ _ _ Hi') at 1. done. }
    destruct (IH (delete i l) kept Hnd1 Hperm1) as (l' & moved & Ee & Em & Hc).
    exists l', (c :: moved).
    split; [cbn [erase_each list_erase]; rewrite E; exact Ee|]. split.
    + apply mapM_Some. constructor.
      * apply deref_elem_of; [done|]. by eapply list_elem_of_lookup_2.
      * apply mapM_Some in Em. eapply Forall2_impl; [exact Em|].
        intros [h'|] c'; [|done]. intros Hd.
        destruct (deref_valid (delete i l) h') as (c'' & Hd' & Hin'').
        { destruct (list_find (fun n => n.1 = h') (delete i l)) as [[j [k x]]|] eqn:Ef;
            [|by unfold deref in Hd; rewrite Ef in Hd].
          apply list_find_Some in Ef as (Hj & Hk & _). cbn in Hk. subst k.
          apply list_elem_of_fmap. exists (h', x). split; [done|].
          by eapply list_elem_of_lookup_2. }
        rewrite Hd in Hd'. injection Hd' as <-.
        apply deref_elem_of; [done|].
        eapply sublist_subseteq; [apply (sublist_delete l i)|done].
    + rewrite (delete_Permutation l i (h, c) Hi) at 1. rewrite fmap_cons. cbn [snd].
      by rewrite Hc.
Qed.

Lemma restore_and_erase_conserves (r : async_io_thread C) users itr r' users' tr :
  aligned r -> (1 <= itr)%nat ->
  restore_and_erase r users itr = Some (r', users', tr) ->
  exists moved,
    users' = foldl push_ctx users moved /\
    tr = EvLock :: (EvPush <$> moved) ++ [EvUnlock] /\
    (_m_ctxact r).*2 ≡ₚ moved ++ (_m_ctxact r').*2.
Proof.
  intros (p0 & ps & its & Hp & Hi & _ & _ & Hperm & Hnd) Hitr.
  destruct itr as [|itr]; [lia|]. unfold restore_and_erase. rewrite Hi. cbn [drop].
  destruct (erase_each_content (drop itr its) (_m_ctxact r) (take itr its) Hnd)
    as (l' & moved & Ee & Em & Hc).
  { by rewrite take_drop. }
  rewrite Em. cbn. rewrite Ee. cbn. intros [= <- <- <-]. exists moved. done.
Qed.

End reactor_more_facts.

Section reactor_index_facts.
Import Reactor.
Context {C : Type} `{StrategyTraits C}.

Lemma deref_Some_elem (l : list (nat * C)) it c :
  deref l it = Some c -> exists h, it = Some h /\ (h, c) ∈ l.
Proof.
  destruct it as [h|]; [|done]. unfold deref.
  destruct (list_find _ l) as [[i [h' c']]|] eqn:E; [|done].
  cbn. intros [= ->]. apply list_find_Some in E as (Hi & Hh & _). cbn in Hh.
  subst h'. exists h. split; [done|]. by eapply list_elem_of_lookup_2.
Qed.

(** An iterator that points into a list points to the same context in
    every list with distinct nodes that contains it. *)
Lemma deref_agree (l l' : list (nat * C)) it :
  NoDup l'.*1 -> l ⊆ l' -> is_Some (deref l it) -> deref l' it = deref l it.
Proof.
  intros Hnd Hsub [c E]. rewrite E.
  apply deref_Some_elem in E as (h & -> & Hin). apply deref_elem_of; auto.
Qed.

(** Every iterator of an aligned reactor from index 1 on points to a
    parked context. *)
Lemma aligned_deref (r : async_io_thread C) it :
  aligned r -> it ∈ tail (_m_ctxitr r) -> is_Some (deref (_m_ctxact r) it).
Proof.
  intros (p0 & ps & its & _ & -> & _ & _ & Hperm & _). cbn [tail].
  rewrite Hperm. intros (h & -> & Hh)%list_elem_of_fmap.
  destruct (deref_valid _ _ Hh) as (c & -> & _). eauto.
Qed.


(** One turn of the loop whose partition has nothing to exchange: the
    pairs of both vectors that stay are the pairs that were there, and their
    iterators point to the contexts they pointed to. *)
Lemma exec_body_pairs (r : async_io_thread C) users o :
  aligned r -> (0 < ret o -> in_order (polled r o)) ->
  exists r' users' tr erased,
    exec_body r users o = Some (r', users', tr) /\ aligned r' /\
    zip (_m_pfds r') (_m_ctxitr r') ++ erased =
      zip (_m_pfds (polled r o)) (_m_ctxitr r) /\
    (forall it, it ∈ tail (_m_ctxitr r') ->
       is_Some (deref (_m_ctxact r') it) /\
       deref (_m_ctxact r') it = deref (_m_ctxact r) it).
Proof.
  intros Hal Hord. destruct (decide (0 < ret o)) as [Hret|Hret].
  - destruct (exec_body_ok r users o Hal Hret (Hord Hret))
      as (p0 & ps & its & t & f & ctxact' & moved & Hp & Hi & _ & E & Hal' & Hsub & _ & Htf).
    eexists _, _, _, f. split; [exact E|]. split; [exact Hal'|].
    cbn [_m_pfds _m_ctxitr _m_ctxact polled tail]. rewrite Hp, Hi. split.
    + cbn. by rewrite zip_fst_snd, Htf.
    + intros it Hit.
      assert (is_Some (deref ctxact' it)) as Hsome
        by (by apply (aligned_deref _ it Hal')).
      split; [done|]. symmetry. apply deref_agree; [|done|done].
      by destruct Hal as (?&?&?&_&_&_&_&_&?).
  - rewrite exec_body_idle by lia. eexists _, _, _, [].
    split; [done|]. split; [by apply aligned_polled|].
    cbn [_m_pfds _m_ctxitr _m_ctxact polled]. rewrite (right_id_L [] (++)).
    split; [done|]. intros it Hit. split; [by apply aligned_deref|done].
Qed.

Lemma in_order_all_ready (r : async_io_thread C) :
  Forall ready (tail (_m_pfds r)) -> in_order r.
Proof.
  unfold in_order. generalize (tail (_m_pfds r)) (tail (_m_ctxitr r)).
  intros ps its Hall. rewrite <- (right_id_L [] (++) (zip ps its)).
  apply partitioned_app; [|constructor].
  apply Forall_forall. intros [p it] Hin. apply check_event_ready. cbn.
  rewrite Forall_forall in Hall. apply Hall. by eapply elem_of_zip_l.
Qed.

Lemma in_order_none_ready (r : async_io_thread C) :
  Forall (fun p => revents p = 0) (tail (_m_pfds r)) -> in_order r.
Proof.
  unfold in_order. generalize (tail (_m_pfds r)) (tail (_m_ctxitr r)).
  intros ps its Hall. change (zip ps its) with ([] ++ zip ps its).
  apply partitioned_app; [constructor|].
  apply Forall_forall. intros [p it] Hin. apply check_event_not_ready. cbn.
  rewrite Forall_forall in Hall. unfold ready. rewrite (Hall p); [lia|].
  by eapply elem_of_zip_l.
Qed.

(** A turn that is determined after a wait with a positive count had
    nothing to exchange. *)
Lemma exec_body_determined (r : async_io_thread C) users o x :
  0 < ret o -> exec_body r users o = Some x -> in_order (polled r o).
Proof.
  intros Hret. unfold exec_body, poll_fds, poll_result_handling, in_order, polled.
  replace (ret o <? 0) with false by lia.
  replace (0 <? ret o) with true by lia.
  cbn [negb andb _m_pfds _m_ctxitr]. unfold exec_partition. cbn [_m_pfds _m_ctxitr].
  destruct (write_revents _ _) as [|p0 ps]; [done|].
  destruct (_m_ctxitr r) as [|i0 its]; [done|]. cbn [tail].
  case_decide; [|done]. by destruct (partitioned _ _).
Qed.

End reactor_index_facts.

Section reactor_loop_facts.
Import Reactor.
Context {C : Type} `{StrategyTraits C}.

(** What a turn of the loop restores, in general: the records that stay
    are those that report an event; the contexts pushed into the pool are
    those parked on the records that report none. *)
Lemma exec_body_keeps_ready_restores_others (r : async_io_thread C) users o :
  aligned r -> 0 < ret o -> in_order (polled r o) ->
  exists p0 ps its kept f moved r' tr,
    write_revents (_m_pfds r) (revents_out o) = p0 :: ps /\
    _m_ctxitr r = None :: its /\
    exec_body r users o = Some (r', foldl push_ctx users moved, tr) /\
    _m_pfds r' = p0 :: kept /\
    kept ≡ₚ filter ready ps /\
    f ≡ₚ filter (fun e => ~ ready e.1) (zip ps its) /\
    Forall2 (fun e c => exists h, e.2 = Some h /\ (h, c) ∈ _m_ctxact r) f moved.
Proof.
  intros Hal Hret Hord.
  destruct (exec_body_ok r users o Hal Hret Hord)
    as (p0 & ps & its & t & f & ctxact' & moved & Hp & Hi & E & Eb & _ & _ & Hmoved & _).
  exists p0, ps, its, t.*1, f, moved. eexists _, _.
  split; [done|]. split; [done|]. split; [exact Eb|]. split; [done|].
  pose proof (aligned_polled r (revents_out o) Hal)
    as (p0' & ps' & its' & Hp' & Hi' & _ & Hlen & _).
  cbn [_m_pfds _m_ctxitr] in Hp', Hi'. rewrite Hp in Hp'. rewrite Hi in Hi'.
  injection Hp' as <- <-. injection Hi' as <-.
  destruct (std_partition_spec _ _ _ _ E) as (Hperm & Ht & Hf).
  split; [|split].
  - assert (t.*1 ++ f.*1 ≡ₚ ps) as Hps.
    { rewrite <- fmap_app, Hperm. by rewrite fst_zip by lia. }
    rewrite <- Hps, filter_app.
    rewrite (filter_all ready t.*1), (filter_none ready f.*1).
    + by rewrite (right_id_L [] (++)).
    + apply Forall_fmap. eapply Forall_impl; [exact Hf|].
      intros e. apply check_event_not_ready.
    + apply Forall_fmap. eapply Forall_impl; [exact Ht|].
      intros e. apply check_event_ready.
  - rewrite <- Hperm, filter_app.
    rewrite (filter_none _ t), (filter_all _ f); [done| |].
    + eapply Forall_impl; [exact Hf|]. intros e. apply check_event_not_ready.
    + eapply Forall_impl; [exact Ht|]. intros e He%check_event_ready. tauto.
  - apply Forall2_fmap_l in Hmoved. exact Hmoved.
Qed.

(** The loop of [exec] is never left, whatever the wait reports. *)
Lemma exec_no_exit polls (r : async_io_thread C) users s :
  exec polls r users <> Exited s.
Proof.
  unfold exec. generalize (r, users). clear r users.
  induction polls as [|o polls IH]; intros [r users]; simpl; [done|].
  destruct (exec_body r users o) as [[[r' users'] tr]|]; simpl; [apply IH|done].
Qed.

(** So the join of the destructor does not return. *)
Lemma dtor_never_returns polls (r : async_io_thread C) users :
  dtor polls r users = None.
Proof.
  unfold dtor.
  destruct (exec polls _ users) as [s| |] eqn:E; [|done..].
  by apply exec_no_exit in E.
Qed.

End reactor_loop_facts.

(** C1 (the code restores the wrong group). With context [100] parked on
    descriptor 5, context [200] parked on descriptor 6, and a wait that
    reports descriptor 5 readable and descriptor 6 not, one turn of the loop
    of [exec] pushes [200], the context whose descriptor is not ready, into
    the pool and erases its entries, and leaves [100], the ready one,
    parked: [std::partition] puts the ready entries first, and the range
    from the returned position on is what is restored and erased. *)
Theorem exec_restores_not_ready_entries :
  Reactor.exec_body (H := fifo) Sample.parked2 [] Sample.fd5_readable =
    Some ({| Reactor._m_ctxact := [(1%nat, 100%nat)];
             Reactor._m_ctxitr := [None; Some 1%nat];
             Reactor._m_pfds := [ {| fd := 3; events := 1; revents := 0 |};
                                  {| fd := 5; events := 1; revents := 1 |} ];
             Reactor._m_pipe := Sample.pipe |},
          [200%nat],
          [EvLock; EvPush 200%nat; EvUnlock]).
Proof. vm_compute. reflexivity. Qed.

(** C3 (the loop has no exit). Whatever the wait reports after the
    destructor has closed the read end of the pipe, [exec] is still in its
    loop and the join of the destructor has not returned; in particular when
    a reactor with nothing parked is destroyed and every wait reports the
    closed descriptor at index 0. *)
Theorem exec_loops_after_close :
  (forall polls (r : Reactor.async_io_thread nat) users,
      Reactor.dtor (H := fifo) polls r users = None) /\
  (forall n,
      Reactor.dtor (H := fifo) (replicate n Sample.pipe_closed)
                   (Reactor.ctor (C := nat) Sample.pipe) [] = None /\
      exists s,
        Reactor.exec (C := nat) (H := fifo) (replicate n Sample.pipe_closed)
                     {| Reactor._m_ctxact := [];
                        Reactor._m_ctxitr := [None];
                        Reactor._m_pfds := [ {| fd := 3; events := 1; revents := 0 |} ];
                        Reactor._m_pipe := Reactor.pipe_close_read Sample.pipe |} []
        = Reactor.Waiting s).
Proof.
  split; [intros; apply dtor_never_returns|].
  intros n. split; [apply dtor_never_returns|].
  generalize 0. induction n as [|n IH]; intros rev; simpl.
  - eauto.
  - apply (IH 32).
Qed.




(** ** The scheduler *)

(** Running a computation of the monad on a world: unfold the operations
    and compute. *)
Ltac run_m :=
  repeat (unfold Scheduler.add_thread, Scheduler.start_context, Scheduler.with_lock,
            Scheduler.with_unlock, Scheduler.scope, Scheduler.ctx_start,
            Scheduler.ctx_resume, Scheduler.enter, Scheduler.push,
            Scheduler.notify_one, Scheduler.notify_all, Scheduler.lock,
            Scheduler.unlock, Scheduler.cond_wait, Scheduler.set_current_ctx,
            Scheduler.set_local, Scheduler.get_local, Scheduler.emit,
            Scheduler.get_sched, Scheduler.put_sched, Scheduler.stop,
            Scheduler.when_, Scheduler.set_join, Scheduler.set_terminate,
            Scheduler.joinable, mbind, Scheduler.M_bind, Scheduler.bind_, mret,
            Scheduler.M_ret, Scheduler.ret_ in *; cbn).

Section scheduler_facts.
Import Scheduler.
Context `{StrategyTraits context}.

Lemma waits_then_cond_wait : waits_then [] cond_wait.
Proof. intros w. run_m. by destruct (env w). Qed.

Lemma waits_then_notify : waits_then [EvNotifyOne] (cond_wait;; notify_one).
Proof.
  intros w. run_m. destruct (env w); [done|]. cbn.
  by rewrite <- (assoc_L (++)).
Qed.

Lemma while_go_waits post body cond :
  waits_then post body ->
  forall fuel w, (length (env w) < fuel)%nat ->
  exists k, (k <= length (env w))%nat /\
    (forall j, (j < k)%nat -> cond (interfered (sched w) (take j (env w))) = true) /\
    while_go fuel cond body w =
      (if cond (interfered (sched w) (take k (env w))) then Blocked else Done tt,
       {| sched := interfered (sched w) (take k (env w));
          current_ctx := current_ctx w; local_ctx := local_ctx w;
          log := log w ++ concat (replicate k (EvWait :: post));
          env := drop k (env w) |}) /\
    (cond (interfered (sched w) (take k (env w))) = true -> k = length (env w)).
Proof.
  intros Hbody fuel. unfold interfered.
  induction fuel as [|n IH]; intros [s cur loc lg en] Hlen; cbn in Hlen; [lia|].
  cbn [while_go sched env current_ctx local_ctx log]. destruct (cond s) eqn:Hc.
  - unfold mbind, M_bind, bind_. rewrite Hbody. cbn [env].
    destruct en as [|f e].
    + exists 0%nat. cbn. rewrite (right_id_L [] (++)), Hc. repeat split; auto; lia.
    + cbn in Hlen.
      destruct (IH {| sched := f s; current_ctx := cur; local_ctx := loc;
                      log := lg ++ EvWait :: post; env := e |} ltac:(cbn; lia))
        as (k & Hk & Hbefore & Hrun & Hlast).
      cbn in Hk, Hbefore, Hrun, Hlast. exists (S k). cbn.
      split; [lia|]. split.
      { intros [|j] Hj; cbn; [done|]. apply Hbefore. lia. }
      rewrite <- (assoc_L (++)) in Hrun. cbn in Hrun. rewrite Hrun.
      split; [done|]. intros Hc'. f_equal. auto.
  - exists 0%nat. rewrite take_0, drop_0. cbn.
    rewrite (right_id_L [] (++)), Hc. repeat split; auto; lia.
Qed.

Lemma while_waits post body cond w :
  waits_then post body ->
  exists k, (k <= length (env w))%nat /\
    (forall j, (j < k)%nat -> cond (interfered (sched w) (take j (env w))) = true) /\
    while_ cond body w =
      (if cond (interfered (sched w) (take k (env w))) then Blocked else Done tt,
       {| sched := interfered (sched w) (take k (env w));
          current_ctx := current_ctx w; local_ctx := local_ctx w;
          log := log w ++ concat (replicate k (EvWait :: post));
          env := drop k (env w) |}) /\
    (cond (interfered (sched w) (take k (env w))) = true -> k = length (env w)).
Proof.
  intros Hbody. apply (while_go_waits post body cond Hbody). lia.
Qed.

#[local] Opaque while_.

Lemma users_empty_dec (s : scheduler) :
  negb ((length (_m_users s) =? 0)%nat) = false <-> _m_users s = [].
Proof.
  rewrite negb_false_iff, Nat.eqb_eq. by destruct (_m_users s).
Qed.

Lemma join_all_run w :
  exists k,
    (k <= length (env w))%nat /\
    (forall j, (j < k)%nat ->
       _m_users (interfered (with_join (sched w) true) (take j (env w))) <> []) /\
    let s' := interfered (with_join (sched w) true) (take k (env w)) in
    let tr := [EvLock; EvSetJoin true] ++ concat (replicate k [EvWait; EvNotifyOne]) in
    match _m_users s' with
    | [] =>
        join_all w =
          (Done tt,
           {| sched := with_join s' false; current_ctx := current_ctx w;
              local_ctx := local_ctx w;
              log := log w ++ tr ++ [EvSetJoin false; EvUnlock];
              env := drop k (env w) |}) /\
        _m_join (sched (after join_all w)) = false /\
        _m_users (sched (after join_all w)) = [] /\
        outcome joinable (after join_all w) = Done false
    | _ :: _ =>
        join_all w =
          (Blocked,
           {| sched := s'; current_ctx := current_ctx w; local_ctx := local_ctx w;
              log := log w ++ tr; env := [] |}) /\
        k = length (env w)
    end.
Proof.
  destruct (while_waits [EvNotifyOne] (cond_wait;; notify_one)
              (fun s => negb ((length (_m_users s) =? 0)%nat))
              {| sched := with_join (sched w) true; current_ctx := current_ctx w;
                 local_ctx := local_ctx w;
                 log := (log w ++ [EvLock]) ++ [EvSetJoin true]; env := env w |}
              waits_then_notify)
    as (k & Hk & Hbefore & Hrun & Hlast).
  cbn [sched env current_ctx local_ctx log] in *.
  exists k. split; [done|]. split.
  { intros j Hj. specialize (Hbefore j Hj).
    intros Hu%users_empty_dec. congruence. }
  cbn zeta. unfold join_all.
  remember (cond_wait;; notify_one) as body eqn:Hb. clear Hb.
  set (ja := with_lock _).
  destruct (_m_users (interfered (with_join (sched w) true) (take k (env w))))
    as [|c us] eqn:Hu.
  - cbn in Hrun.
    assert (ja w =
      (Done (),
       {| sched := with_join (interfered (with_join (sched w) true) (take k (env w))) false;
          current_ctx := current_ctx w; local_ctx := local_ctx w;
          log := log w ++ ([EvLock; EvSetJoin true] ++ concat (replicate k [EvWait; EvNotifyOne])) ++
                 [EvSetJoin false; EvUnlock];
          env := drop k (env w) |})) as E.
    { subst ja. run_m. rewrite Hrun. run_m.
      f_equal. f_equal. rewrite <- !(assoc_L (++)). done. }
    split; [exact E|]. unfold after, outcome. rewrite E. cbn.
    split; [done|]. split; [done|].
    run_m. rewrite Hu. done.
  - cbn in Hrun, Hlast. specialize (Hlast eq_refl). split; [|done].
    subst ja. run_m. rewrite Hrun. run_m.
    f_equal. f_equal.
    + rewrite <- !(assoc_L (++)). done.
    + subst k. by rewrite drop_all.
Qed.
Lemma emit_all_run es w :
  emit_all es w =
    (Done tt, {| sched := sched w; current_ctx := current_ctx w;
                 local_ctx := local_ctx w; log := log w ++ es; env := env w |}).
Proof.
  revert w. induction es as [|e es IH]; intros [s cur loc lg en].
  - cbn. by rewrite (right_id_L [] (++)).
  - cbn [emit_all]. run_m. rewrite IH. cbn. by rewrite <- (assoc_L (++)).
Qed.

Lemma turn_run w :
  exists k, (k <= length (env w))%nat /\
    let s1 := interfered (sched w) (take k (env w)) in
    let tr0 := EvLock :: concat (replicate k [EvWait]) in
    (turn_cond s1 = true /\
     _m_exec_turn w =
       (Blocked, {| sched := s1; current_ctx := current_ctx w; local_ctx := local_ctx w;
                    log := log w ++ tr0; env := [] |})) \/
    (_m_terminate s1 = true /\
     _m_exec_turn w =
       (Done false, {| sched := s1; current_ctx := current_ctx w; local_ctx := local_ctx w;
                       log := log w ++ tr0 ++ [EvUnlock]; env := drop k (env w) |})) \/
    (_m_terminate s1 = false /\ pop_ctx (_m_users s1) = None /\
     _m_exec_turn w =
       (Undefined, {| sched := s1; current_ctx := current_ctx w; local_ctx := local_ctx w;
                      log := log w ++ tr0; env := drop k (env w) |})) \/
    (exists c us fs b rest,
       _m_terminate s1 = false /\ pop_ctx (_m_users s1) = Some (c, us) /\
       run_code (ctx_code c) = (fs, b, rest) /\
       let cpl := match b with Finished => true | _ => ctx_complete c end in
       let c' := {| ctx_id := ctx_id c; ctx_stacksize := ctx_stacksize c;
                    ctx_code := rest; ctx_complete := cpl |} in
       let s2 := interfered (set_users s1 us) (take 1 (drop k (env w))) in
       let notif := match b with
                    | Threw => []
                    | _ => if cpl then []
                           else [if _m_join s2 then EvNotifyAll else EvNotifyOne]
                    end in
       let pushed := if cpl then [] else [EvPush c'] in
       _m_exec_turn w =
         (match b with Threw => Raised | _ => Done true end,
          {| sched := if cpl then s2 else set_users s2 (push_ctx (_m_users s2) c');
             current_ctx := None; local_ctx := None;
             log := log w ++ tr0 ++
                    [EvPop c; EvUnlock; EvSetCurrent (Some (ctx_id c)); EvResume (ctx_id c)] ++
                    (EvFunctor <$> fs) ++
                    [EvBack (ctx_id c) b cpl; EvSetCurrent None; EvLock] ++
                    notif ++ pushed ++ [EvUnlock];
             env := drop 1 (drop k (env w)) |})).
Proof.
  destruct (while_waits [] cond_wait turn_cond
              {| sched := sched w; current_ctx := current_ctx w;
                 local_ctx := local_ctx w; log := log w ++ [EvLock]; env := env w |}
              waits_then_cond_wait)
    as (k & Hk & _ & Hrun & Hlast).
  cbn [sched env current_ctx local_ctx log] in *.
  exists k. split; [done|]. cbn zeta.
  set (s1 := interfered (sched w) (take k (env w))) in *.
  unfold _m_exec_turn. fold turn_cond.
  remember cond_wait as body eqn:Hb. clear Hb.
  destruct (turn_cond s1) eqn:Hc.
  { left. split; [done|]. specialize (Hlast eq_refl).
    run_m. rewrite Hrun. run_m. f_equal. f_equal.
    - by rewrite <- (assoc_L (++)).
    - subst k. by rewrite drop_all. }
  right. destruct (_m_terminate s1) eqn:Ht.
  { left. split; [done|].
    run_m. rewrite Hrun. run_m. rewrite Ht. run_m. f_equal. f_equal.
    by rewrite <- !(assoc_L (++)). }
  right. destruct (pop_ctx (_m_users s1)) as [[c us]|] eqn:Hpop.
  2:{ left. split; [done|]. split; [done|].
      run_m. rewrite Hrun. run_m. rewrite Ht. unfold guard_take. run_m. rewrite Hpop.
      run_m. f_equal. f_equal. by rewrite <- !(assoc_L (++)). }
  right. destruct (run_code (ctx_code c)) as [[fs b] rest] eqn:Hrc.
  exists c, us, fs, b, rest. split; [done|]. split; [done|]. split; [done|].
  run_m. rewrite Hrun. run_m. rewrite Ht. unfold guard_take, guard_bool, guard_release.
  run_m. rewrite Hpop. run_m. rewrite Hrc. run_m. rewrite emit_all_run. run_m.
  unfold relock, interfered. run_m.
  destruct b, (ctx_complete c) eqn:Hcpl, (drop k (env w)) as [|f e] eqn:Henv; run_m;
    try (destruct (_m_join _)); run_m;
    rewrite <- ?(assoc_L (++)); cbn; try rewrite <- ?(assoc_L (++)); try reflexivity.
Qed.
Lemma add_thread_run w id size fn :
  add_thread id size fn w =
    (Done tt,
     {| sched := set_users (sched w)
                   (push_ctx (_m_users (sched w))
                      {| ctx_id := id; ctx_stacksize := size;
                         ctx_code := IFunctor (fn_id fn) :: fn_body fn;
                         ctx_complete := false |});
        current_ctx := None; local_ctx := None;
        log := log w ++
               [EvSetCurrent (Some id); EvStart id; EvBack id Suspended false;
                EvSetCurrent None; EvLock;
                EvPush {| ctx_id := id; ctx_stacksize := size;
                          ctx_code := IFunctor (fn_id fn) :: fn_body fn;
                          ctx_complete := false |};
                EvNotifyOne; EvUnlock];
        env := env w |}).
Proof. run_m. rewrite <- !(assoc_L (++)). reflexivity. Qed.

Lemma joinable_run w :
  joinable w =
    (Done (negb (length (_m_users (sched w)) =? 0)%nat),
     {| sched := sched w; current_ctx := current_ctx w; local_ctx := local_ctx w;
        log := log w ++ [EvLock; EvUnlock]; env := env w |}).
Proof. run_m. rewrite <- !(assoc_L (++)). reflexivity. Qed.

Lemma join_each_run tids w :
  exists kernels',
    join_each tids w =
      (Done tt,
       {| sched := set_kernels (sched w) kernels'; current_ctx := current_ctx w;
          local_ctx := local_ctx w; log := log w ++ (EvJoinThread <$> tids);
          env := env w |}).
Proof.
  revert w. induction tids as [|tid tids IH]; intros [s cur loc lg en].
  - exists (_m_kernels s). cbn. rewrite (right_id_L [] (++)). by destruct s.
  - cbn [join_each]. run_m.
    edestruct IH as (kernels' & ->). exists kernels'. cbn.
    by rewrite <- (assoc_L (++)).
Qed.

Lemma dtor_run w :
  match _m_users (sched w) with
  | _ :: _ =>
      dtor w =
        (Aborted,
         {| sched := sched w; current_ctx := current_ctx w; local_ctx := local_ctx w;
            log := log w ++ [EvLock; EvUnlock]; env := env w |})
  | [] =>
      exists kernels',
        dtor w =
          (Done tt,
           {| sched := set_kernels (with_terminate (sched w)) kernels';
              current_ctx := current_ctx w; local_ctx := local_ctx w;
              log := log w ++
                     [EvLock; EvUnlock; EvLock; EvSetTerminate; EvNotifyAll; EvUnlock] ++
                     (EvJoinThread <$> (map_to_list (_m_kernels (sched w))).*1);
              env := env w |})
  end.
Proof.
  unfold dtor. destruct (_m_users (sched w)) as [|c us] eqn:Hu.
  - unfold mbind at 1, M_bind, bind_. rewrite joinable_run, Hu. run_m.
    edestruct join_each_run as (kernels' & ->). exists kernels'. cbn.
    f_equal. f_equal. rewrite <- !(assoc_L (++)). reflexivity.
  - unfold mbind at 1, M_bind, bind_. rewrite joinable_run, Hu. run_m. done.
Qed.

Lemma spawn_workers_run tid_of :
  Inj (=) (=) tid_of ->
  forall n i w,
    (forall j, (i <= j)%nat -> _m_kernels (sched w) !! tid_of j = None) ->
    exists kernels',
      spawn_workers tid_of i n w =
        (Done tt,
         {| sched := set_kernels (sched w) kernels'; current_ctx := current_ctx w;
            local_ctx := local_ctx w;
            log := log w ++ (EvSpawn <$> (tid_of <$> seq i n));
            env := env w |}) /\
      size kernels' = (size (_m_kernels (sched w)) + n)%nat /\
      (forall j, (i <= j < i + n)%nat ->
                 kernels' !! tid_of j = Some {| th_joinable := true |}) /\
      (forall tid, (forall j, (i <= j < i + n)%nat -> tid <> tid_of j) ->
                   kernels' !! tid = _m_kernels (sched w) !! tid).
Proof.
  intros Hinj n. induction n as [|n IH]; intros i [s cur loc lg en] Hfresh.
  - exists (_m_kernels s). cbn. rewrite (right_id_L [] (++)).
    split; [by destruct s|]. split; [lia|]. split; [intros; lia|done].
  - cbn [spawn_workers]. cbn in Hfresh. unfold emplace, boost_assert. run_m.
    rewrite (Hfresh i) by lia. run_m.
    edestruct (IH (S i)) as (kernels' & -> & Hsize & Hin & Hout).
    { cbn. intros j Hj. rewrite lookup_insert_ne; [apply Hfresh; lia|].
      intros Heq%Hinj. lia. }
    cbn in Hsize, Hin, Hout. exists kernels'. cbn.
    split; [by rewrite <- (assoc_L (++))|].
    split. { rewrite Hsize, map_size_insert_None by (apply Hfresh; lia). lia. }
    split.
    + intros j Hj. destruct (decide (j = i)) as [->|Hne].
      * rewrite Hout; [by rewrite lookup_insert_eq|].
        intros j' Hj' Heq%Hinj. lia.
      * apply Hin. lia.
    + intros tid Htid. rewrite Hout.
      * rewrite lookup_insert_ne; [done|]. intros <-. apply (Htid i); [lia|done].
      * intros j' Hj'. apply Htid. lia.
Qed.

End scheduler_facts.

Section scheduler_trace_facts.
Import Scheduler.
Context `{StrategyTraits context}.

Lemma trace_of {A} (m : M A) w r w' tr :
  m w = (r, w') -> log w' = log w ++ tr -> trace m w = tr.
Proof.
  intros E Hlog. unfold trace. rewrite E. cbn. by rewrite Hlog, drop_app_length.
Qed.

Lemma notifications_app tr1 tr2 :
  notifications (tr1 ++ tr2) = notifications tr1 ++ notifications tr2.
Proof. apply List.filter_app. Qed.

Lemma notifications_waits k :
  notifications (concat (replicate k [EvWait])) = [].
Proof. induction k as [|k IH]; [done|]. exact IH. Qed.

Lemma notifications_wait_notify k :
  notifications (concat (replicate k [EvWait; EvNotifyOne])) = replicate k EvNotifyOne.
Proof.
  induction k as [|k IH]; [done|]. cbn [replicate concat].
  change ([EvWait; EvNotifyOne] ++ ?l) with ([EvWait; EvNotifyOne : event context] ++ l).
  rewrite notifications_app, IH. done.
Qed.

Lemma notifications_functors fs : notifications (EvFunctor <$> fs) = [].
Proof. induction fs as [|f fs IH]; [done|]. exact IH. Qed.

Lemma notifications_spawns tids : notifications (EvSpawn <$> tids) = [].
Proof. induction tids as [|t tids IH]; [done|]. exact IH. Qed.

Lemma notifications_joins tids : notifications (EvJoinThread <$> tids) = [].
Proof. induction tids as [|t tids IH]; [done|]. exact IH. Qed.

Lemma waits_app tr1 tr2 : waits (tr1 ++ tr2) = (waits tr1 + waits tr2)%nat.
Proof. unfold waits. by rewrite List.filter_app, length_app. Qed.

Lemma waits_wait_notify k :
  waits (concat (replicate k [EvWait; EvNotifyOne : event context])) = k.
Proof.
  induction k as [|k IH]; [done|]. cbn [replicate concat].
  rewrite waits_app, IH. done.
Qed.

Lemma came_back_waits k :
  came_back_unfinished (concat (replicate k [EvWait])) = false.
Proof. induction k as [|k IH]; [done|]. exact IH. Qed.

Lemma came_back_functors fs : came_back_unfinished (EvFunctor <$> fs) = false.
Proof. induction fs as [|f fs IH]; [done|]. exact IH. Qed.

Lemma slot_run_app st tr1 tr2 :
  slot_run st (tr1 ++ tr2) = slot_run st tr1 ≫= fun st' => slot_run st' tr2.
Proof.
  revert st. induction tr1 as [|e tr1 IH]; intros st; [done|]. cbn.
  destruct (slot_step st e) as [st'|]; cbn; [apply IH|done].
Qed.

Lemma slot_run_waits k : slot_run Idle (concat (replicate k [EvWait])) = Some Idle.
Proof. induction k as [|k IH]; [done|]. exact IH. Qed.

Lemma slot_run_functors id fs : slot_run (Inside id) (EvFunctor <$> fs) = Some (Inside id).
Proof. induction fs as [|f fs IH]; [done|]. exact IH. Qed.

End scheduler_trace_facts.

Section scheduler_turn_facts.
Import Scheduler.
Context `{StrategyTraits context}.

Lemma came_back_app tr1 tr2 :
  came_back_unfinished (tr1 ++ tr2) =
    came_back_unfinished tr1 || came_back_unfinished tr2.
Proof. apply existsb_app. Qed.

Lemma spawn_workers_trace tid_of n :
  forall i w, exists tids,
    log (spawn_workers tid_of i n w).2 = log w ++ (EvSpawn <$> tids).
Proof.
  induction n as [|n IH]; intros i [s cur loc lg en].
  - exists []. cbn. by rewrite (right_id_L [] (++)).
  - cbn [spawn_workers]. unfold emplace, boost_assert. run_m.
    destruct (_m_kernels s !! tid_of i).
    + exists [tid_of i]. run_m. done.
    + run_m.
      match goal with
      | |- context [spawn_workers ?a ?b ?c ?d] =>
          destruct (IH b d) as (tids & Htids);
          destruct (spawn_workers a b c d) as [r w'] eqn:E
      end.
      cbn in Htids. exists (tid_of i :: tids).
      destruct r; cbn; rewrite Htids; cbn; by rewrite <- (assoc_L (++)).
Qed.

(** The notifications of one turn of the loop of [_m_exec], and the slot
    around its resume. *)
Lemma turn_notifications w :
  notifications (trace _m_exec_turn w) =
    if came_back_unfinished (trace _m_exec_turn w)
    then [if _m_join (sched (after _m_exec_turn w)) then EvNotifyAll else EvNotifyOne]
    else [].
Proof.
  destruct (turn_run w) as (k & _ & Hrun). cbn zeta in Hrun.
  destruct Hrun as [(_ & E)|[(_ & E)|[(_ & _ & E)|Hrun]]].
  1-3: rewrite (trace_of _ _ _ _ _ E eq_refl);
       change (EvLock :: ?l) with ([EvLock : event context] ++ l);
       rewrite ?notifications_app, ?came_back_app, notifications_waits, came_back_waits;
       done.
  destruct Hrun as (c & us & fs & b & rest & _ & _ & _ & E).
  rewrite (trace_of _ _ _ _ _ E eq_refl). unfold after. rewrite E. cbn [snd sched].
  change (EvLock :: ?l) with ([EvLock : event context] ++ l).
  rewrite !notifications_app, !came_back_app.
  rewrite notifications_waits, came_back_waits, notifications_functors, came_back_functors.
  destruct b, (ctx_complete c); cbn; try done;
    destruct (_m_join _); done.
Qed.

Lemma turn_slot w :
  current_ctx w = None ->
  current_ctx (after _m_exec_turn w) = None /\
  slot_bracketed (trace _m_exec_turn w) /\
  (outcome _m_exec_turn w = Raised ->
   exists id cpl pre post,
     trace _m_exec_turn w = pre ++ [EvBack id Threw cpl; EvSetCurrent None] ++ post).
Proof.
  intros Hcur. destruct (turn_run w) as (k & _ & Hrun). cbn zeta in Hrun.
  unfold slot_bracketed, after, outcome.
  destruct Hrun as [(_ & E)|[(_ & E)|[(_ & _ & E)|Hrun]]].
  1-3: rewrite (trace_of _ _ _ _ _ E eq_refl), E;
       change (EvLock :: ?l) with ([EvLock : event context] ++ l);
       rewrite ?slot_run_app; cbn; rewrite slot_run_waits; done.
  destruct Hrun as (c & us & fs & b & rest & _ & _ & _ & E).
  rewrite (trace_of _ _ _ _ _ E eq_refl), E. cbn [fst snd current_ctx].
  split; [done|]. split.
  - change (EvLock :: ?l) with ([EvLock : event context] ++ l).
    rewrite !slot_run_app. cbn. rewrite slot_run_waits. cbn.
    rewrite decide_True by done. cbn. rewrite slot_run_app, slot_run_functors. cbn.
    rewrite decide_True by done. cbn.
    destruct b, (ctx_complete c); cbn; try done; destruct (_m_join _); done.
  - destruct b; try done. intros _.
    exists (ctx_id c), (ctx_complete c),
      (EvLock :: concat (replicate k [EvWait]) ++
       [EvPop c; EvUnlock; EvSetCurrent (Some (ctx_id c)); EvResume (ctx_id c)] ++
       (EvFunctor <$> fs)),
      ([EvLock] ++
       (if ctx_complete c then []
        else [EvPush {| ctx_id := ctx_id c; ctx_stacksize := ctx_stacksize c;
                        ctx_code := rest; ctx_complete := ctx_complete c |}]) ++
       [EvUnlock]).
    cbn. rewrite <- !(assoc_L (++)). reflexivity.
Qed.

Lemma slot_free_waits k : slot_free (concat (replicate k [EvWait])).
Proof. induction k as [|k IH]; [constructor|]. by constructor. Qed.

(** The slot around the resume of a turn, and around the start of
    [start_context]: written with the context right before, with null right
    after, and nowhere else; a turn that resumes nothing does not touch the
    slot. *)
Lemma turn_slot_bracket w :
  match outcome _m_exec_turn w with
  | Done true | Raised =>
      exists c fs b cpl pre post,
        trace _m_exec_turn w =
          pre ++ [EvPop c; EvUnlock; EvSetCurrent (Some (ctx_id c));
                  EvResume (ctx_id c)] ++
          (EvFunctor <$> fs) ++
          [EvBack (ctx_id c) b cpl; EvSetCurrent None] ++ post /\
        slot_free pre /\ slot_free post
  | _ => slot_free (trace _m_exec_turn w)
  end.
Proof.
  destruct (turn_run w) as (k & _ & Hrun). cbn zeta in Hrun.
  assert (slot_free (EvLock :: concat (replicate k [EvWait]))) as Hpre
    by (constructor; [done|apply slot_free_waits]).
  destruct Hrun as [(_ & E)|[(_ & E)|[(_ & _ & E)|Hrun]]].
  1-3: rewrite (trace_of _ _ _ _ _ E eq_refl); unfold outcome; rewrite E; cbn [fst];
       first [exact Hpre
             |apply Forall_app; split; [exact Hpre|by repeat constructor]].
  destruct Hrun as (c & us & fs & b & rest & _ & _ & _ & E).
  rewrite (trace_of _ _ _ _ _ E eq_refl). unfold outcome. rewrite E. cbn [fst].
  assert (exists post,
            slot_free post /\
            [EvBack (ctx_id c) b match b with Finished => true | _ => ctx_complete c end;
             EvSetCurrent None; EvLock] ++
            match b with
            | Threw => []
            | _ => if match b with Finished => true | _ => ctx_complete c end then []
                   else [if _m_join (interfered (set_users
                                        (interfered (sched w) (take k (env w))) us)
                                        (take 1 (drop k (env w))))
                         then EvNotifyAll else EvNotifyOne]
            end ++
            (if match b with Finished => true | _ => ctx_complete c end then []
             else [EvPush {| ctx_id := ctx_id c; ctx_stacksize := ctx_stacksize c;
                             ctx_code := rest;
                             ctx_complete :=
                               match b with Finished => true | _ => ctx_complete c end |}]) ++
            [EvUnlock] =
            [EvBack (ctx_id c) b match b with Finished => true | _ => ctx_complete c end;
             EvSetCurrent None] ++ post) as (post & Hpost & Epost).
  { eexists. split; [|reflexivity].
    destruct b, (ctx_complete c); cbn; try destruct (_m_join _);
      repeat constructor. }
  rewrite Epost.
  destruct b;
    eexists c, fs, _, _, (EvLock :: concat (replicate k [EvWait])), post;
    (split; [reflexivity|split; [exact Hpre|exact Hpost]]).
Qed.

Lemma start_context_run w c :
  local_ctx w = Some c ->
  exists fs b rest,
    run_code (ctx_code c) = (fs, b, rest) /\
    outcome start_context w =
      match b with Threw => Raised | _ => Done tt end /\
    trace start_context w =
      [EvSetCurrent (Some (ctx_id c)); EvStart (ctx_id c)] ++ (EvFunctor <$> fs) ++
      [EvBack (ctx_id c) b match b with Finished => true | _ => ctx_complete c end;
       EvSetCurrent None] /\
    current_ctx (after start_context w) = None.
Proof.
  intros Hloc. destruct (run_code (ctx_code c)) as [[fs b] rest] eqn:Hrc.
  exists fs, b, rest. split; [done|].
  unfold outcome, trace, after. destruct w as [s cur loc lg en]. cbn in Hloc.
  subst loc. run_m. rewrite Hrc. run_m. rewrite emit_all_run. run_m.
  destruct b; cbn; rewrite <- ?(assoc_L (++)); cbn;
    rewrite drop_app_length; done.
Qed.

End scheduler_turn_facts.

(** ** Runs on the sample worlds *)

(** A worker resumes a primed context whose functor returns at once: the
    functor is entered, the context finishes, nobody is notified and the
    context is not pushed back. *)
Example turn_finishes_plain :
  outcome (Scheduler._m_exec_turn (H := fifo)) (Sample.one_user Sample.fn_plain [])
    = Scheduler.Done true /\
  trace (Scheduler._m_exec_turn (H := fifo)) (Sample.one_user Sample.fn_plain []) =
    [EvLock; EvPop (Sample.primed Sample.fn_plain); EvUnlock;
     EvSetCurrent (Some 1%nat); EvResume 1; EvFunctor 7; EvBack 1 Finished true;
     EvSetCurrent None; EvLock; EvUnlock].
Proof. split; reflexivity. Qed.

(** With an empty pool and nobody to wake it, a worker stays in its wait;
    woken by the destructor, it leaves its loop. *)
Example turn_blocks_then_breaks :
  outcome (Scheduler._m_exec_turn (H := fifo)) (Scheduler.blank []) = Scheduler.Blocked /\
  outcome (Scheduler._m_exec_turn (H := fifo))
          (Scheduler.blank [Scheduler.with_terminate]) = Scheduler.Done false.
Proof. split; reflexivity. Qed.

(** Two threads with the same id make the assertion of the constructor
    fail. *)
Example ctor_asserts_fresh_ids :
  outcome (Scheduler.ctor (fun _ => 10%nat) 2) (Scheduler.blank []) = Scheduler.Aborted.
Proof. reflexivity. Qed.

(** ** The claims about the scheduler *)

(** C7. [add_thread] wraps the functor in [context_starter], whose first
    instruction suspends and whose second enters the functor. It writes the
    slot, starts the context, which comes straight back suspended without
    having entered the functor, and clears the slot; only then does it take
    the mutex, push the primed context (whose next instruction enters the
    functor) into the pool through the strategy, notify one waiter and
    release the mutex. *)
Theorem add_thread_primes_then_pushes `{StrategyTraits Scheduler.context}
    (w : Scheduler.world) (id size : nat) (fn : Scheduler.functor) :
  let primed := {| Scheduler.ctx_id := id; Scheduler.ctx_stacksize := size;
                   Scheduler.ctx_code :=
                     Scheduler.IFunctor (Scheduler.fn_id fn) :: Scheduler.fn_body fn;
                   Scheduler.ctx_complete := false |} in
  Scheduler.context_starter fn =
    Scheduler.ISuspend :: Scheduler.IFunctor (Scheduler.fn_id fn) :: Scheduler.fn_body fn /\
  Scheduler.run_code (Scheduler.context_starter fn) =
    ([], Suspended, Scheduler.ctx_code primed) /\
  (exists fs b rest,
      Scheduler.run_code (Scheduler.ctx_code primed) = (Scheduler.fn_id fn :: fs, b, rest)) /\
  outcome (Scheduler.add_thread id size fn) w = Scheduler.Done tt /\
  trace (Scheduler.add_thread id size fn) w =
    [EvSetCurrent (Some id); EvStart id; EvBack id Suspended false; EvSetCurrent None;
     EvLock; EvPush primed; EvNotifyOne; EvUnlock] /\
  Scheduler._m_users (Scheduler.sched (after (Scheduler.add_thread id size fn) w)) =
    push_ctx (Scheduler._m_users (Scheduler.sched w)) primed.
Proof.
  intros primed. split; [done|]. split; [done|]. split.
  { cbn. destruct (Scheduler.run_code (Scheduler.fn_body fn)) as [[fs b] rest]. eauto. }
  pose proof (add_thread_run w id size fn) as E. fold primed in E.
  unfold outcome, after. rewrite E. split; [done|]. split; [|done].
  by apply (trace_of _ _ _ _ _ E).
Qed.

(** [join_all] takes the mutex and sets the join flag; then, as long as
    the pool is not empty, it waits on the condition variable and notifies
    one waiter after each wake. When it returns it has cleared the join flag
    and released the mutex, and the pool was empty when it looked last. When
    it does not return it is blocked in a wait, the pool still not empty and
    no other thread left to wake it. *)
Lemma join_all_waits_until_empty (w : Scheduler.world) :
  exists k,
    (k <= length (Scheduler.env w))%nat /\
    (forall j, (j < k)%nat ->
       Scheduler._m_users
         (interfered (Scheduler.with_join (Scheduler.sched w) true)
                     (take j (Scheduler.env w))) <> []) /\
    match outcome Scheduler.join_all w with
    | Scheduler.Done _ =>
        trace Scheduler.join_all w =
          [EvLock; EvSetJoin true] ++ concat (replicate k [EvWait; EvNotifyOne]) ++
          [EvSetJoin false; EvUnlock] /\
        Scheduler._m_users (Scheduler.sched (after Scheduler.join_all w)) = [] /\
        Scheduler._m_join (Scheduler.sched (after Scheduler.join_all w)) = false
    | Scheduler.Blocked =>
        trace Scheduler.join_all w =
          [EvLock; EvSetJoin true] ++ concat (replicate k [EvWait; EvNotifyOne]) /\
        Scheduler._m_users (Scheduler.sched (after Scheduler.join_all w)) <> [] /\
        k = length (Scheduler.env w)
    | _ => False
    end.
Proof.
  destruct (join_all_run w) as (k & Hk & Hbefore & Hrun). exists k.
  split; [done|]. split; [done|]. cbn zeta in Hrun.
  destruct (Scheduler._m_users _) as [|c us] eqn:Hu in Hrun.
  - destruct Hrun as (E & Hj & Hus & Hjoinable).
    unfold outcome at 1. rewrite E. cbn.
    split; [|done]. by apply (trace_of _ _ _ _ _ E).
  - destruct Hrun as (E & Hlast).
    unfold outcome, after. rewrite E. cbn.
    split; [by apply (trace_of _ _ _ _ _ E)|]. split; [|done]. by rewrite Hu.
Qed.

(** C5 ([join_all] returns while a context is still being run). A worker
    that resumes the only context has taken it out of the pool and puts it
    back when it comes back unfinished; in between the pool is empty. Called
    then, [join_all] finds the pool empty, waits for nothing and returns;
    the worker puts the context back, [joinable()] called right after
    [join_all] answers true, and the destructor called instead aborts. *)
Theorem join_all_returns_while_context_runs :
  trace (Scheduler._m_exec_turn (H := fifo)) (Sample.one_user Worlds.fn_suspends []) =
    [EvLock; EvPop (Sample.primed Worlds.fn_suspends); EvUnlock;
     EvSetCurrent (Some 1%nat); EvResume 1; EvFunctor 8;
     EvBack 1 Suspended false; EvSetCurrent None; EvLock; EvNotifyOne;
     EvPush Worlds.resumed_once; EvUnlock] /\
  Scheduler.sched (after (Scheduler._m_exec_turn (H := fifo))
                         (Sample.one_user Worlds.fn_suspends [])) =
    Scheduler.worker_gives_back (H := fifo) Worlds.resumed_once
      (Scheduler.worker_takes (H := fifo)
         (Scheduler.sched (Sample.one_user Worlds.fn_suspends []))) /\
  outcome Scheduler.join_all Worlds.joining_while_running = Scheduler.Done tt /\
  trace Scheduler.join_all Worlds.joining_while_running =
    [EvLock; EvSetJoin true; EvSetJoin false; EvUnlock] /\
  Scheduler._m_users
    (Scheduler.sched (after Scheduler.join_all Worlds.joining_while_running)) = [] /\
  outcome (Scheduler.join_all;; Scheduler.others;; Scheduler.joinable)
          Worlds.joining_while_running = Scheduler.Done true /\
  outcome (Scheduler.join_all;; Scheduler.others;; Scheduler.dtor)
          Worlds.joining_while_running = Scheduler.Aborted.
Proof. repeat split; vm_compute; reflexivity. Qed.

(** C6. When the pool is not empty ([joinable()] answers true) the
    destructor aborts the process, having set and notified nothing. Otherwise
    it sets the termination flag under the mutex, notifies all waiters,
    releases the mutex, and then joins every thread of the worker table,
    each once. *)
Theorem dtor_aborts_or_tears_down (w : Scheduler.world) :
  let kernels := Scheduler._m_kernels (Scheduler.sched w) in
  match Scheduler._m_users (Scheduler.sched w) with
  | _ :: _ =>
      outcome Scheduler.joinable w = Scheduler.Done true /\
      outcome Scheduler.dtor w = Scheduler.Aborted /\
      trace Scheduler.dtor w = [EvLock; EvUnlock] /\
      Scheduler.sched (after Scheduler.dtor w) = Scheduler.sched w
  | [] =>
      outcome Scheduler.joinable w = Scheduler.Done false /\
      outcome Scheduler.dtor w = Scheduler.Done tt /\
      trace Scheduler.dtor w =
        [EvLock; EvUnlock; EvLock; EvSetTerminate; EvNotifyAll; EvUnlock] ++
        (EvJoinThread <$> (map_to_list kernels).*1) /\
      Scheduler._m_terminate (Scheduler.sched (after Scheduler.dtor w)) = true /\
      NoDup (map_to_list kernels).*1 /\
      (forall tid, tid ∈ (map_to_list kernels).*1 <-> is_Some (kernels !! tid))
  end.
Proof.
  intros kernels. pose proof (dtor_run w) as Hrun.
  pose proof (joinable_run w) as Hj. unfold outcome at 1. unfold outcome at 2.
  destruct (Scheduler._m_users (Scheduler.sched w)) as [|c us] eqn:Hu.
  - destruct Hrun as (kernels' & E). fold kernels in E.
    rewrite Hj. unfold outcome, after. rewrite E. cbn.
    split; [done|]. split; [done|].
    split; [by apply (trace_of _ _ _ _ _ E)|]. split; [done|].
    split; [apply NoDup_fst_map_to_list|].
    intros tid. rewrite list_elem_of_fmap. split.
    + intros ([tid' th] & -> & Hin%elem_of_map_to_list). eauto.
    + intros [th Hth]. exists (tid, th). split; [done|]. by apply elem_of_map_to_list.
  - rewrite Hj. unfold outcome, after. rewrite Hrun. cbn.
    split; [done|]. split; [done|]. split; [|done].
    by apply (trace_of _ _ _ _ _ Hrun).
Qed.

(** C10. For every worker count, zero included, the constructor completes:
    it starts that many threads and records each in the worker table under
    its thread id (the ids of threads alive at once are distinct); the
    table holds exactly these entries, both flags are false and the pool is
    empty. With a count of zero nothing is started and the table is
    empty. *)
Theorem ctor_spawns_workers
    (tid_of : nat -> nat) (default_size : nat) (w : Scheduler.world) :
  Inj (=) (=) tid_of ->
  let s' := Scheduler.sched (after (Scheduler.ctor tid_of default_size) w) in
  outcome (Scheduler.ctor tid_of default_size) w = Scheduler.Done tt /\
  trace (Scheduler.ctor tid_of default_size) w =
    (EvSpawn <$> (tid_of <$> seq 0 default_size)) /\
  size (Scheduler._m_kernels s') = default_size /\
  (forall i, (i < default_size)%nat ->
     Scheduler._m_kernels s' !! tid_of i = Some {| Scheduler.th_joinable := true |}) /\
  (forall tid, is_Some (Scheduler._m_kernels s' !! tid) ->
     exists i, (i < default_size)%nat /\ tid = tid_of i) /\
  Scheduler._m_terminate s' = false /\ Scheduler._m_join s' = false /\
  Scheduler._m_users s' = [] /\
  (default_size = 0%nat -> Scheduler._m_kernels s' = ∅).
Proof.
  intros Hinj.
  destruct (spawn_workers_run tid_of Hinj default_size 0%nat
              {| Scheduler.sched :=
                   {| Scheduler._m_terminate := false; Scheduler._m_join := false;
                      Scheduler._m_kernels := ∅; Scheduler._m_users := [] |};
                 Scheduler.current_ctx := Scheduler.current_ctx w;
                 Scheduler.local_ctx := Scheduler.local_ctx w;
                 Scheduler.log := Scheduler.log w; Scheduler.env := Scheduler.env w |})
    as (kernels' & E & Hsize & Hin & Hout).
  { intros j _. apply lookup_empty. }
  cbn in E, Hsize, Hin, Hout.
  assert (Scheduler.ctor tid_of default_size w =
            (Scheduler.Done tt,
             {| Scheduler.sched :=
                  {| Scheduler._m_terminate := false; Scheduler._m_join := false;
                     Scheduler._m_kernels := kernels'; Scheduler._m_users := [] |};
                Scheduler.current_ctx := Scheduler.current_ctx w;
                Scheduler.local_ctx := Scheduler.local_ctx w;
                Scheduler.log := Scheduler.log w ++ (EvSpawn <$> (tid_of <$> seq 0 default_size));
                Scheduler.env := Scheduler.env w |})) as E'.
  { unfold Scheduler.ctor. run_m. rewrite E. done. }
  cbn zeta. unfold outcome, after. rewrite E'. cbn.
  split; [done|]. split; [by apply (trace_of _ _ _ _ _ E')|].
  split; [by rewrite Hsize, map_size_empty|].
  split; [intros i Hi; apply Hin; lia|].
  split.
  { intros tid Htid.
    destruct (decide (Exists (fun i => tid = tid_of i) (seq 0 default_size))) as [Hex|Hnex].
    - apply Exists_exists in Hex as (i & Hi%elem_of_seq & ->). exists i. split; [lia|done].
    - rewrite Hout, lookup_empty in Htid; [by destruct Htid|].
      intros j Hj ->. apply Hnex, Exists_exists. exists j.
      split; [apply elem_of_seq; lia|done]. }
  split; [done|]. split; [done|]. split; [done|].
  intros ->. apply map_size_empty_iff. by rewrite Hsize, map_size_empty.
Qed.

Lemma ctor_spawns_workers_witness :
  Inj (=) (=) S /\
  outcome (Scheduler.ctor S 3) (Scheduler.blank []) = Scheduler.Done tt /\
  size (Scheduler._m_kernels
          (Scheduler.sched (after (Scheduler.ctor S 3) (Scheduler.blank [])))) = 3%nat.
Proof.
  assert (Inj (=) (=) S) as Hinj by (intros ? ?; lia).
  split; [exact Hinj|].
  pose proof (ctor_spawns_workers S 3 (Scheduler.blank []) Hinj) as Hc.
  cbn zeta in Hc. split; [exact (proj1 Hc)|exact (proj1 (proj2 (proj2 Hc)))].
Defined.

(** C9. With the slot null beforehand, a turn of the loop of [_m_exec] and
    a call of [add_thread] leave it null, however control comes back from
    the context (suspended, finished, or by an exception). A turn that
    resumes a context writes the slot with that context right before it
    calls [resume] on it and with null right after control is back, and
    touches the slot nowhere else; a turn that resumes nothing does not
    touch the slot. [add_thread] begins by writing the slot with the new
    context, starting it, and writing null when control is back, and does
    not touch the slot afterwards; [start_context] does so for every
    context, also when the start is left by an exception. *)
Theorem current_ctx_set_and_cleared `{StrategyTraits Scheduler.context}
    (w : Scheduler.world) :
  Scheduler.current_ctx w = None ->
  (Scheduler.current_ctx (after Scheduler._m_exec_turn w) = None /\
   slot_bracketed (trace Scheduler._m_exec_turn w) /\
   (outcome Scheduler._m_exec_turn w = Scheduler.Raised ->
    exists id cpl pre post,
      trace Scheduler._m_exec_turn w =
        pre ++ [EvBack id Threw cpl; EvSetCurrent None] ++ post) /\
   match outcome Scheduler._m_exec_turn w with
   | Scheduler.Done true | Scheduler.Raised =>
       exists c fs b cpl pre post,
         trace Scheduler._m_exec_turn w =
           pre ++ [EvPop c; EvUnlock; EvSetCurrent (Some (Scheduler.ctx_id c));
                   EvResume (Scheduler.ctx_id c)] ++
           (EvFunctor <$> fs) ++
           [EvBack (Scheduler.ctx_id c) b cpl; EvSetCurrent None] ++ post /\
         slot_free pre /\ slot_free post
   | _ => slot_free (trace Scheduler._m_exec_turn w)
   end) /\
  (forall id size fn,
      Scheduler.current_ctx (after (Scheduler.add_thread id size fn) w) = None /\
      slot_bracketed (trace (Scheduler.add_thread id size fn) w) /\
      exists post,
        trace (Scheduler.add_thread id size fn) w =
          [EvSetCurrent (Some id); EvStart id; EvBack id Suspended false;
           EvSetCurrent None] ++ post /\
        slot_free post) /\
  (forall c,
      Scheduler.local_ctx w = Some c ->
      exists fs b rest,
        Scheduler.run_code (Scheduler.ctx_code c) = (fs, b, rest) /\
        outcome Scheduler.start_context w =
          match b with Threw => Scheduler.Raised | _ => Scheduler.Done tt end /\
        trace Scheduler.start_context w =
          [EvSetCurrent (Some (Scheduler.ctx_id c)); EvStart (Scheduler.ctx_id c)] ++
          (EvFunctor <$> fs) ++
          [EvBack (Scheduler.ctx_id c) b
             match b with Finished => true | _ => Scheduler.ctx_complete c end;
           EvSetCurrent None] /\
        Scheduler.current_ctx (after Scheduler.start_context w) = None).
Proof.
  intros Hcur. split; [|split].
  - destruct (turn_slot w Hcur) as (H1 & H2 & H3).
    split; [exact H1|]. split; [exact H2|]. split; [exact H3|].
    apply turn_slot_bracket.
  - intros id size fn. pose proof (add_thread_run w id size fn) as E.
    unfold after. rewrite E. split; [reflexivity|].
    rewrite (trace_of _ _ _ _ _ E eq_refl). split.
    + unfold slot_bracketed.
      cbn [slot_run slot_step mbind option_bind].
      rewrite decide_True by reflexivity. cbn [slot_run slot_step mbind option_bind].
      rewrite decide_True by reflexivity. reflexivity.
    + eexists. split; [reflexivity|]. repeat constructor.
  - intros c Hc. by apply start_context_run.
Qed.

Lemma current_ctx_set_and_cleared_witness :
  Scheduler.current_ctx (Sample.one_user Sample.fn_throws []) = None /\
  outcome (Scheduler._m_exec_turn (H := fifo)) (Sample.one_user Sample.fn_throws [])
    = Scheduler.Raised /\
  Scheduler.current_ctx
    (after (Scheduler._m_exec_turn (H := fifo)) (Sample.one_user Sample.fn_throws []))
    = None /\
  exists post,
    trace (Scheduler.add_thread (H := fifo) 2 64 Sample.fn_plain)
          (Sample.one_user Sample.fn_throws []) =
      [EvSetCurrent (Some 2%nat); EvStart 2; EvBack 2 Suspended false;
       EvSetCurrent None] ++ post /\
    slot_free post.
Proof.
  split; [reflexivity|]. split; [reflexivity|].
  pose proof (current_ctx_set_and_cleared (H := fifo)
                (Sample.one_user Sample.fn_throws []) eq_refl) as (Hturn & Hadd & _).
  split; [exact (proj1 Hturn)|].
  exact (proj2 (proj2 (Hadd 2%nat 64%nat Sample.fn_plain))).
Defined.

(** C4, as stated, fails on [join_all]: woken once to find the pool
    drained, it notifies a waiter although no context was pushed,
    termination was not set and no context was resumed. *)
Lemma join_all_notifies_without_occasion :
  ~ notified_exactly_on_occasion
      (trace Scheduler.join_all (Sample.one_user Sample.fn_plain [Sample.drained])).
Proof.
  assert (trace Scheduler.join_all (Sample.one_user Sample.fn_plain [Sample.drained]) =
            [EvLock; EvSetJoin true; EvWait; EvNotifyOne; EvSetJoin false; EvUnlock])
    as -> by (vm_compute; reflexivity).
  intros [Hto _].
  destruct Hto as (e & Hin & Hocc).
  - exists EvNotifyOne. split; [|done]. rewrite !elem_of_cons. tauto.
  - rewrite !elem_of_cons, elem_of_nil in Hin.
    destruct Hin as [->|[->|[->|[->|[->|[->|[]]]]]]]; discriminate Hocc.
Qed.

(** C4 (amended). The operations of the scheduler notify the condition
    variable as follows, and not otherwise: [add_thread] once, one waiter,
    after pushing the new context; the destructor once, all waiters, when it
    sets termination, which it does when the pool is empty; a turn of the
    loop of [_m_exec] once when the resumed context came back unfinished, all
    waiters if the join flag is set and one waiter if not; [join_all] one
    waiter after each wake from its wait; [joinable] and the constructor
    never. *)
Theorem scheduler_notifications `{StrategyTraits Scheduler.context}
    (w : Scheduler.world) :
  (forall id size fn,
      notifications (trace (Scheduler.add_thread id size fn) w) = [EvNotifyOne]) /\
  notifications (trace Scheduler.dtor w) =
    match Scheduler._m_users (Scheduler.sched w) with
    | [] => [EvNotifyAll]
    | _ :: _ => []
    end /\
  (EvSetTerminate ∈ trace Scheduler.dtor w <->
   Scheduler._m_users (Scheduler.sched w) = []) /\
  notifications (trace Scheduler._m_exec_turn w) =
    (if came_back_unfinished (trace Scheduler._m_exec_turn w)
     then [if Scheduler._m_join (Scheduler.sched (after Scheduler._m_exec_turn w))
           then EvNotifyAll else EvNotifyOne]
     else []) /\
  notifications (trace Scheduler.join_all w) =
    replicate (waits (trace Scheduler.join_all w)) EvNotifyOne /\
  notifications (trace Scheduler.joinable w) = [] /\
  (forall tid_of default_size,
      notifications (trace (Scheduler.ctor tid_of default_size) w) = []).
Proof.
  assert (notifications (trace Scheduler._m_exec_turn w) =
            (if came_back_unfinished (trace Scheduler._m_exec_turn w)
             then [if Scheduler._m_join (Scheduler.sched (after Scheduler._m_exec_turn w))
                   then EvNotifyAll else EvNotifyOne]
             else []) /\
          notifications (trace Scheduler.join_all w) =
            replicate (waits (trace Scheduler.join_all w)) EvNotifyOne /\
          notifications (trace Scheduler.joinable w) = [] /\
          (forall tid_of default_size,
              notifications (trace (Scheduler.ctor tid_of default_size) w) = []))
    as Hrest.
  { split; [apply turn_notifications|]. split.
    { destruct (join_all_run w) as (k & _ & _ & Hrun). cbn zeta in Hrun.
      destruct (Scheduler._m_users _) in Hrun; destruct Hrun as (E & _);
        rewrite (trace_of _ _ _ _ _ E eq_refl);
        change ([EvLock; EvSetJoin true] ++ ?l)
          with ([EvLock; EvSetJoin true : event Scheduler.context] ++ l);
        rewrite ?notifications_app, ?waits_app,
          notifications_wait_notify, waits_wait_notify;
        cbn; by rewrite ?(right_id_L [] (++)), ?Nat.add_0_r. }
    split; [by rewrite (trace_of _ _ _ _ _ (joinable_run w) eq_refl)|].
    intros tid_of default_size. unfold trace, Scheduler.ctor. run_m.
    match goal with
    | |- context [Scheduler.spawn_workers ?a ?b ?c ?d] =>
        destruct (spawn_workers_trace a c b d) as (tids & ->)
    end.
    cbn. by rewrite drop_app_length, notifications_spawns. }
  split.
  { intros id size fn.
    by rewrite (trace_of _ _ _ _ _ (add_thread_run w id size fn) eq_refl). }
  pose proof (dtor_run w) as Hd.
  destruct (Scheduler._m_users (Scheduler.sched w)) as [|c us] eqn:Hu.
  - destruct Hd as (kernels' & E). rewrite (trace_of _ _ _ _ _ E eq_refl).
    split.
    { change ([EvLock; EvUnlock; EvLock; EvSetTerminate; EvNotifyAll; EvUnlock] ++ ?l)
        with ([EvLock; EvUnlock; EvLock; EvSetTerminate; EvNotifyAll;
               EvUnlock : event Scheduler.context] ++ l).
      by rewrite notifications_app, notifications_joins. }
    split; [|exact Hrest].
    split; [done|]. intros _. rewrite elem_of_app, !elem_of_cons. tauto.
  - rewrite (trace_of _ _ _ _ _ Hd eq_refl). split; [done|].
    split; [|exact Hrest].
    split; [|done]. rewrite !elem_of_cons, elem_of_nil. intros [|[|[]]]; done.
Qed.

(** * Further properties *)

(** ** The reactor: entries and contexts *)


Section reactor_turn_facts.
Import Reactor.
Context {C : Type} `{StrategyTraits C}.

(** One turn neither loses nor duplicates a context. *)
Lemma exec_body_conserves (r : async_io_thread C) users o r' users' tr :
  aligned r ->
  exec_body r users o = Some (r', users', tr) ->
  exists moved,
    users' = foldl push_ctx users moved /\
    (_m_ctxact r).*2 ≡ₚ moved ++ (_m_ctxact r').*2.
Proof.
  intros Hal. destruct (decide (0 < ret o)) as [Hret|Hret].
  - intros Eb. pose proof (exec_body_determined _ _ _ _ Hret Eb) as Hord.
    revert Eb.
    pose proof (aligned_polled r (revents_out o) Hal) as Hal1.
    destruct (exec_partition_aligned _ Hal1 Hord)
      as (p0 & ps & its & t & f & _ & _ & _ & Epart & Hal2 & _).
    cbn [_m_ctxact _m_ctxitr _m_pfds _m_pipe] in Epart, Hal2.
    unfold exec_body, poll_fds, poll_result_handling.
    replace (ret o <? 0) with false by lia.
    replace (0 <? ret o) with true by lia.
    cbn [negb andb]. rewrite Epart. cbn [mbind option_bind].
    case_decide.
    + intros (moved & -> & _ & Hc)%restore_and_erase_conserves; [|done|lia].
      exists moved. done.
    + intros [= <- <- <-]. exists []. done.
  - rewrite exec_body_idle by lia. intros [= <- <- <-]. exists []. done.
Qed.

Lemma aligned_parked2 : aligned Sample.parked2.
Proof.
  exists {| fd := 3; events := 1; revents := 0 |},
    [ {| fd := 5; events := 1; revents := 0 |};
      {| fd := 6; events := 1; revents := 0 |} ],
    [Some 1%nat; Some 2%nat].
  repeat split; try reflexivity.
  apply NoDup_ListNoDup. repeat constructor; simpl; intuition lia.
Defined.

Lemma zip_fmap_fst {A B D} (g : A -> D) (l : list A) (k : list B) :
  zip (g <$> l) k = prod_map g id <$> zip l k.
Proof.
  revert k. induction l as [|x l IH]; intros [|y k]; cbn; [done..|].
  by rewrite IH.
Qed.

Lemma elem_of_tail_prefix {A} (l' l : list A) x :
  l' `prefix_of` l -> x ∈ tail l' -> x ∈ tail l.
Proof.
  intros [k ->]. destruct l' as [|y l']; cbn; [by intros ?%elem_of_nil|].
  intros Hx. apply elem_of_app. by left.
Qed.

(** One turn whose partition has nothing to exchange, in full. *)
Lemma exec_body_step (r : async_io_thread C) users o :
  aligned r -> (0 < ret o -> in_order (polled r o)) ->
  exists r' moved tr,
    exec_body r users o = Some (r', foldl push_ctx users moved, tr) /\
    aligned r' /\
    (_m_ctxact r).*2 ≡ₚ moved ++ (_m_ctxact r').*2 /\
    zip (fd <$> _m_pfds r') (_m_ctxitr r') `prefix_of`
      zip (fd <$> _m_pfds r) (_m_ctxitr r) /\
    _m_ctxitr r' `prefix_of` _m_ctxitr r /\
    (forall it, it ∈ tail (_m_ctxitr r') ->
       deref (_m_ctxact r') it = deref (_m_ctxact r) it).
Proof.
  intros Hal Hord.
  destruct (exec_body_pairs r users o Hal Hord)
    as (r' & users' & tr & erased & E & Hal' & Hz & Hd).
  destruct (exec_body_conserves r users o _ _ _ Hal E) as (moved & -> & Hc).
  exists r', moved, tr. split; [exact E|]. split; [exact Hal'|].
  split; [exact Hc|].
  destruct (aligned_lengths r' Hal') as [Hl' _].
  destruct (aligned_lengths r Hal) as [Hl _].
  split; [|split].
  - exists (prod_map fd id <$> erased).
    rewrite !zip_fmap_fst, <- fmap_app, Hz, <- !zip_fmap_fst.
    cbn [polled _m_pfds]. by rewrite write_revents_fd.
  - exists erased.*2. apply (f_equal (fmap snd)) in Hz.
    rewrite fmap_app, !snd_zip in Hz; [done| |lia].
    cbn [polled _m_pfds]. rewrite write_revents_length. lia.
  - intros it Hit. by apply Hd.
Qed.

End reactor_turn_facts.

(** ** The reactor: what the loop of [exec] does to the parked contexts *)

(** X1. Over any number of turns of the loop of [exec] none of which has
    anything to exchange in its partition, a reactor whose vectors are
    aligned runs into no undefined behaviour, stays aligned, and neither
    loses nor duplicates a context: the contexts parked at the start are
    those pushed into the pool in the meantime together with those still
    parked. The pairs of descriptor and iterator that are left are, index by
    index, the first pairs there were, and their iterators point to the
    contexts they pointed to. *)
Theorem exec_conserves_contexts {C : Type} `{StrategyTraits C} polls :
  forall (r : Reactor.async_io_thread C) users,
    aligned r -> turns_in_order polls r users ->
    exists r' moved,
      Reactor.exec polls r users =
        Reactor.Waiting (r', foldl push_ctx users moved) /\
      aligned r' /\
      (Reactor._m_ctxact r).*2 ≡ₚ moved ++ (Reactor._m_ctxact r').*2 /\
      zip (fd <$> Reactor._m_pfds r') (Reactor._m_ctxitr r') `prefix_of`
        zip (fd <$> Reactor._m_pfds r) (Reactor._m_ctxitr r) /\
      Reactor._m_ctxitr r' `prefix_of` Reactor._m_ctxitr r /\
      (forall it, it ∈ tail (Reactor._m_ctxitr r') ->
         Reactor.deref (Reactor._m_ctxact r') it =
           Reactor.deref (Reactor._m_ctxact r) it).
Proof.
  induction polls as [|o polls IH]; intros r users Hal Hto.
  - exists r, []. done.
  - destruct Hto as [Hord Hto].
    destruct (exec_body_step r users o Hal Hord)
      as (r1 & m1 & tr & E & Hal1 & Hc1 & Hz1 & Hi1 & Hd1).
    rewrite E in Hto.
    destruct (IH r1 (foldl push_ctx users m1) Hal1 Hto)
      as (r' & m2 & E2 & Hal2 & Hc2 & Hz2 & Hi2 & Hd2).
    exists r', (m1 ++ m2). unfold Reactor.exec in *.
    cbn [Reactor.loop fst snd]. rewrite E. cbn [mbind option_bind].
    rewrite E2, foldl_app. split; [done|]. split; [done|].
    split; [by rewrite Hc1, Hc2, (assoc_L (++))|].
    split; [by etrans|]. split; [by etrans|].
    intros it Hit. rewrite Hd2 by done. apply Hd1.
    by eapply elem_of_tail_prefix.
Qed.

Lemma exec_conserves_contexts_witness :
  aligned Sample.parked2 /\
  turns_in_order (H := fifo) [Sample.fd5_readable; Sample.pipe_closed]
                 Sample.parked2 [] /\
  exists r' moved,
    Reactor.exec (H := fifo) [Sample.fd5_readable; Sample.pipe_closed]
                 Sample.parked2 [] =
      Reactor.Waiting (r', foldl (push_ctx (StrategyTraits := fifo)) [] moved) /\
    aligned r' /\
    (Reactor._m_ctxact Sample.parked2).*2 ≡ₚ moved ++ (Reactor._m_ctxact r').*2.
Proof.
  assert (turns_in_order (H := fifo) [Sample.fd5_readable; Sample.pipe_closed]
            Sample.parked2 []) as Hto.
  { split; [intros _; reflexivity|]. cbn. split; [intros _; reflexivity|done]. }
  split; [exact aligned_parked2|]. split; [exact Hto|].
  destruct (exec_conserves_contexts (H := fifo)
              [Sample.fd5_readable; Sample.pipe_closed] Sample.parked2 []
              aligned_parked2 Hto)
    as (r' & moved & E & Hal' & Hc & _).
  exists r', moved. split; [exact E|]. split; [exact Hal'|exact Hc].
Defined.

(** X2. A wait that fails or reports nothing changes nothing but the
    returned events, however often it happens in a row: no context is
    restored or erased, the pool is untouched, the descriptors, the
    requested events and the pipe are as before, and the loop waits
    again. *)
Theorem exec_survives_failed_waits {C : Type} `{StrategyTraits C} polls :
  forall (r : Reactor.async_io_thread C) users,
    Forall (fun o => ret o <= 0) polls ->
    exists r',
      Reactor.exec polls r users = Reactor.Waiting (r', users) /\
      Reactor._m_ctxact r' = Reactor._m_ctxact r /\
      Reactor._m_ctxitr r' = Reactor._m_ctxitr r /\
      fd <$> Reactor._m_pfds r' = fd <$> Reactor._m_pfds r /\
      events <$> Reactor._m_pfds r' = events <$> Reactor._m_pfds r /\
      Reactor._m_pipe r' = Reactor._m_pipe r.
Proof.
  induction polls as [|o polls IH]; intros r users Hpolls.
  - exists r. done.
  - apply Forall_cons in Hpolls as [Ho Hpolls].
    unfold Reactor.exec in *. cbn [Reactor.loop fst snd].
    rewrite exec_body_idle by done. cbn [mbind option_bind].
    destruct (IH {| Reactor._m_ctxact := Reactor._m_ctxact r;
                    Reactor._m_ctxitr := Reactor._m_ctxitr r;
                    Reactor._m_pfds :=
                      write_revents (Reactor._m_pfds r) (revents_out o);
                    Reactor._m_pipe := Reactor._m_pipe r |} users Hpolls)
      as (r' & E & H1 & H2 & H3 & H4 & H5).
    exists r'. cbn in *. rewrite E, H1, H2, H3, H4, H5.
    by rewrite write_revents_fd, write_revents_events.
Qed.

Lemma exec_survives_failed_waits_witness :
  Forall (fun o => ret o <= 0)
         [ {| ret := -1; revents_out := [] |};
           {| ret := 0; revents_out := [0; 0; 0] |} ] /\
  exists r',
    Reactor.exec (H := fifo)
                 [ {| ret := -1; revents_out := [] |};
                   {| ret := 0; revents_out := [0; 0; 0] |} ]
                 Sample.parked2 [] = Reactor.Waiting (r', []) /\
    Reactor._m_ctxact r' = Reactor._m_ctxact Sample.parked2 /\
    Reactor._m_ctxitr r' = Reactor._m_ctxitr Sample.parked2 /\
    fd <$> Reactor._m_pfds r' = fd <$> Reactor._m_pfds Sample.parked2 /\
    events <$> Reactor._m_pfds r' = events <$> Reactor._m_pfds Sample.parked2 /\
    Reactor._m_pipe r' = Reactor._m_pipe Sample.parked2.
Proof.
  assert (Forall (fun o => ret o <= 0)
            [ {| ret := -1; revents_out := [] |};
              {| ret := 0; revents_out := [0; 0; 0] |} ]) as Hp.
  { repeat constructor; simpl; lia. }
  split; [exact Hp|].
  exact (exec_survives_failed_waits (H := fifo) _ Sample.parked2 [] Hp).
Defined.

(** X3. When every parked descriptor reports an event, the turn hands no
    context back: the pool and the parked list stay as they are, nothing
    is logged, and both vectors keep their lengths. *)
Theorem exec_restores_nothing_when_all_ready {C : Type} `{StrategyTraits C}
    (r : Reactor.async_io_thread C) users o :
  aligned r -> 0 < ret o ->
  Forall ready (tail (write_revents (Reactor._m_pfds r) (revents_out o))) ->
  exists r',
    Reactor.exec_body r users o = Some (r', users, []) /\
    Reactor._m_ctxact r' = Reactor._m_ctxact r /\
    length (Reactor._m_pfds r') = length (Reactor._m_pfds r) /\
    length (Reactor._m_ctxitr r') = length (Reactor._m_ctxitr r).
Proof.
  intros Hal Hret Hready.
  pose proof (aligned_polled r (revents_out o) Hal) as Hal1.
  assert (in_order (polled r o)) as Hord by (by apply in_order_all_ready).
  destruct (exec_partition_aligned _ Hal1 Hord)
    as (p0 & ps & its & t & f & Hp & Hi & E & Epart & Hal2 & _).
  cbn [Reactor._m_ctxact Reactor._m_ctxitr Reactor._m_pfds Reactor._m_pipe]
    in Hp, Hi, Epart, Hal2.
  assert (length ps = length its) as Hlen.
  { destruct Hal1 as (?&?&?&Hp'&Hi'&_&Hl&_). cbn in Hp', Hi'. congruence. }
  rewrite Hp in Hready. cbn [tail] in Hready.
  assert (f = []) as ->.
  { destruct (std_partition_groups _ _ _ _ E) as [_ Hf].
    rewrite filter_none in Hf; [by apply Permutation_nil_r|].
    apply Forall_forall. intros [p it] Hin Hnot.
    apply check_event_not_ready in Hnot. apply Hnot.
    rewrite Forall_forall in Hready. apply Hready. by eapply elem_of_zip_l. }
  pose proof (std_partition_spec _ _ _ _ E) as (Hperm & _).
  apply Permutation_length in Hperm.
  rewrite (right_id_L [] (++)), length_zip_with_l_eq in Hperm by done.
  eexists. unfold Reactor.exec_body, poll_fds, poll_result_handling.
  replace (ret o <? 0) with false by lia.
  replace (0 <? ret o) with true by lia.
  cbn [negb andb]. rewrite Epart. cbn [mbind option_bind Reactor._m_pfds].
  rewrite decide_False
    by (cbn; rewrite (right_id_L [] (++)), length_fmap; lia).
  split; [reflexivity|]. cbn.
  rewrite !(right_id_L [] (++)), !length_fmap.
  pose proof (write_revents_length (Reactor._m_pfds r) (revents_out o)) as Hl.
  rewrite Hp in Hl. cbn in Hl. rewrite Hi. cbn. split; [done|]. split; lia.
Qed.

Lemma exec_restores_nothing_when_all_ready_witness :
  aligned Sample.parked2 /\ 0 < 2 /\
  Forall ready (tail (write_revents (Reactor._m_pfds Sample.parked2) [0; 1; 1])) /\
  exists r',
    Reactor.exec_body (H := fifo) Sample.parked2 [300%nat]
                      {| ret := 2; revents_out := [0; 1; 1] |} =
      Some (r', [300%nat], []) /\
    Reactor._m_ctxact r' = Reactor._m_ctxact Sample.parked2 /\
    length (Reactor._m_pfds r') = length (Reactor._m_pfds Sample.parked2) /\
    length (Reactor._m_ctxitr r') = length (Reactor._m_ctxitr Sample.parked2).
Proof.
  assert (Forall ready
            (tail (write_revents (Reactor._m_pfds Sample.parked2) [0; 1; 1])))
    as Hr.
  { repeat constructor; unfold ready; simpl; lia. }
  split; [exact aligned_parked2|]. split; [lia|]. split; [exact Hr|].
  exact (exec_restores_nothing_when_all_ready (H := fifo) Sample.parked2
           [300%nat] {| ret := 2; revents_out := [0; 1; 1] |}
           aligned_parked2 ltac:(simpl; lia) Hr).
Defined.

(** X4. When the wait returns a positive count although no parked
    descriptor reports an event (only the pipe at index 0 is signalled),
    the turn pushes every parked context into the pool and leaves the
    reactor with index 0 alone. *)
Theorem exec_restores_all_when_none_ready {C : Type} `{StrategyTraits C}
    (r : Reactor.async_io_thread C) users o :
  aligned r -> 0 < ret o ->
  Forall (fun p => revents p = 0)
         (tail (write_revents (Reactor._m_pfds r) (revents_out o))) ->
  exists p0 moved tr,
    Reactor.exec_body r users o =
      Some ({| Reactor._m_ctxact := []; Reactor._m_ctxitr := [None];
               Reactor._m_pfds := [p0]; Reactor._m_pipe := Reactor._m_pipe r |},
            foldl push_ctx users moved, tr) /\
    fd p0 = Reactor.read_fd (Reactor._m_pipe r) /\
    moved ≡ₚ (Reactor._m_ctxact r).*2.
Proof.
  intros Hal Hret Hnone.
  assert (in_order (polled r o)) as Hord by (by apply in_order_none_ready).
  destruct (exec_body_ok r users o Hal Hret Hord)
    as (p0 & ps & its & t & f & ctxact' & moved & Hp & Hi & E & Eb & Hal' & _).
  rewrite Hp in Hnone. cbn [tail] in Hnone.
  assert (t = []) as ->.
  { destruct (std_partition_groups _ _ _ _ E) as [Ht _].
    rewrite filter_none in Ht; [by apply Permutation_nil_r|].
    apply Forall_forall. intros [p it] Hin Hyes.
    apply check_event_ready in Hyes. apply Hyes.
    rewrite Forall_forall in Hnone. apply Hnone. by eapply elem_of_zip_l. }
  assert (ctxact' = [] /\ fd p0 = Reactor.read_fd (Reactor._m_pipe r)) as [-> Hfd].
  { destruct Hal' as (?&?&?&Hp'&Hi'&Hfd&_&Hperm&_). cbn in Hp', Hi', Hperm, Hfd.
    injection Hi' as <-. injection Hp' as <- <-.
    apply Permutation_nil_l in Hperm.
    symmetry in Hperm. apply fmap_nil_inv, fmap_nil_inv in Hperm. done. }
  cbn in Eb.
  destruct (exec_body_conserves r users o _ _ _ Hal Eb) as (moved' & Hu & Hc).
  cbn in Hc. rewrite (right_id_L [] (++)) in Hc.
  exists p0, moved'. eexists. rewrite <- Hu. split; [exact Eb|done].
Qed.

Lemma exec_restores_all_when_none_ready_witness :
  aligned Sample.parked2 /\ 0 < 1 /\
  Forall (fun p => revents p = 0)
         (tail (write_revents (Reactor._m_pfds Sample.parked2) [1; 0; 0])) /\
  exists p0 moved tr,
    Reactor.exec_body (H := fifo) Sample.parked2 []
                      {| ret := 1; revents_out := [1; 0; 0] |} =
      Some ({| Reactor._m_ctxact := []; Reactor._m_ctxitr := [None];
               Reactor._m_pfds := [p0];
               Reactor._m_pipe := Reactor._m_pipe Sample.parked2 |},
            foldl (push_ctx (StrategyTraits := fifo)) [] moved, tr) /\
    fd p0 = Reactor.read_fd (Reactor._m_pipe Sample.parked2) /\
    moved ≡ₚ (Reactor._m_ctxact Sample.parked2).*2.
Proof.
  assert (Forall (fun p => revents p = 0)
            (tail (write_revents (Reactor._m_pfds Sample.parked2) [1; 0; 0])))
    as Hr.
  { repeat constructor. }
  split; [exact aligned_parked2|]. split; [lia|]. split; [exact Hr|].
  exact (exec_restores_all_when_none_ready (H := fifo) Sample.parked2
           [] {| ret := 1; revents_out := [1; 0; 0] |}
           aligned_parked2 ltac:(simpl; lia) Hr).
Defined.

(** ** The worker loop *)

#[local] Opaque Scheduler.while_.

Section scheduler_loop_facts.
Import Scheduler.
Context `{StrategyTraits context}.

(** A turn of the loop of [_m_exec] that finds its condition false at
    once does not wait. *)
Lemma turn_run_ready w :
  turn_cond (sched w) = false ->
  (_m_terminate (sched w) = true /\
   _m_exec_turn w =
     (Done false, {| sched := sched w; current_ctx := current_ctx w;
                     local_ctx := local_ctx w;
                     log := log w ++ [EvLock; EvUnlock]; env := env w |})) \/
  (_m_terminate (sched w) = false /\ pop_ctx (_m_users (sched w)) = None /\
   outcome _m_exec_turn w = Undefined) \/
  (exists c us fs b rest,
     _m_terminate (sched w) = false /\ pop_ctx (_m_users (sched w)) = Some (c, us) /\
     run_code (ctx_code c) = (fs, b, rest) /\
     let cpl := match b with Finished => true | _ => ctx_complete c end in
     let c' := {| ctx_id := ctx_id c; ctx_stacksize := ctx_stacksize c;
                  ctx_code := rest; ctx_complete := cpl |} in
     let s2 := interfered (set_users (sched w) us) (take 1 (env w)) in
     let notif := match b with
                  | Threw => []
                  | _ => if cpl then []
                         else [if _m_join s2 then EvNotifyAll else EvNotifyOne]
                  end in
     let pushed := if cpl then [] else [EvPush c'] in
     _m_exec_turn w =
       (match b with Threw => Raised | _ => Done true end,
        {| sched := if cpl then s2 else set_users s2 (push_ctx (_m_users s2) c');
           current_ctx := None; local_ctx := None;
           log := log w ++
                  [EvLock; EvPop c; EvUnlock; EvSetCurrent (Some (ctx_id c));
                   EvResume (ctx_id c)] ++
                  (EvFunctor <$> fs) ++
                  [EvBack (ctx_id c) b cpl; EvSetCurrent None; EvLock] ++
                  notif ++ pushed ++ [EvUnlock];
           env := drop 1 (env w) |})).
Proof.
  intros Hc.
  destruct (while_waits [] cond_wait turn_cond
              {| sched := sched w; current_ctx := current_ctx w;
                 local_ctx := local_ctx w; log := log w ++ [EvLock]; env := env w |}
              waits_then_cond_wait)
    as (k & Hk & Hbefore & Hrun & _).
  cbn [sched env current_ctx local_ctx log] in *.
  assert (k = 0%nat) as ->.
  { destruct k as [|k]; [done|]. specialize (Hbefore 0%nat ltac:(lia)).
    rewrite take_0 in Hbefore. cbn in Hbefore. congruence. }
  clear Hk Hbefore. rewrite take_0, drop_0 in Hrun. cbn in Hrun.
  rewrite Hc, (right_id_L [] (++)) in Hrun.
  unfold outcome, _m_exec_turn. fold turn_cond.
  remember cond_wait as body eqn:Hb. clear Hb.
  destruct (_m_terminate (sched w)) eqn:Ht.
  { left. split; [done|].
    run_m. rewrite Hrun. run_m. rewrite Ht. run_m. f_equal. f_equal.
    by rewrite <- !(assoc_L (++)). }
  right. destruct (pop_ctx (_m_users (sched w))) as [[c us]|] eqn:Hpop.
  2:{ left. split; [done|]. split; [done|].
      run_m. rewrite Hrun. run_m. rewrite Ht. unfold guard_take. run_m. rewrite Hpop.
      run_m. done. }
  right. destruct (run_code (ctx_code c)) as [[fs b] rest] eqn:Hrc.
  exists c, us, fs, b, rest. split; [done|]. split; [done|]. split; [done|].
  run_m. rewrite Hrun. run_m. rewrite Ht. unfold guard_take, guard_bool, guard_release.
  run_m. rewrite Hpop. run_m. rewrite Hrc. run_m. rewrite emit_all_run. run_m.
  unfold relock, interfered. run_m.
  destruct b, (ctx_complete c) eqn:Hcpl, (env w) as [|f e] eqn:Henv; run_m;
    try (destruct (_m_join _)); run_m;
    rewrite <- ?(assoc_L (++)); cbn; try rewrite <- ?(assoc_L (++)); try reflexivity.
Qed.

(** A turn of a worker that finds the pool empty, the termination flag
    clear and no other thread left to wake it stays in its wait. *)
Lemma turn_run_idle w :
  turn_cond (sched w) = true -> env w = [] ->
  _m_exec_turn w =
    (Blocked, {| sched := sched w; current_ctx := current_ctx w;
                 local_ctx := local_ctx w; log := log w ++ [EvLock]; env := [] |}).
Proof.
  intros Hc Henv.
  destruct (while_waits [] cond_wait turn_cond
              {| sched := sched w; current_ctx := current_ctx w;
                 local_ctx := local_ctx w; log := log w ++ [EvLock]; env := env w |}
              waits_then_cond_wait)
    as (k & Hk & _ & Hrun & _).
  cbn [sched env current_ctx local_ctx log] in *. rewrite Henv in Hk, Hrun.
  assert (k = 0%nat) as -> by (cbn in Hk; lia).
  cbn in Hrun. rewrite Hc, (right_id_L [] (++)) in Hrun.
  unfold _m_exec_turn. fold turn_cond.
  remember cond_wait as body eqn:Hb. clear Hb.
  run_m. rewrite Henv, Hrun. run_m. done.
Qed.

Lemma run_code_no_raise code :
  IRaise ∉ code ->
  exists fs b rest,
    run_code code = (fs, b, rest) /\
    ((b = Finished /\ suspends code = 0%nat /\ fs = functors_of code) \/
     (b = Suspended /\ suspends code = S (suspends rest) /\
      functors_of code = fs ++ functors_of rest /\ IRaise ∉ rest)).
Proof.
  induction code as [|i code IH]; intros Hr.
  - exists [], Finished, []. split; [done|]. left. done.
  - rewrite not_elem_of_cons in Hr. destruct Hr as [Hi Hr].
    destruct i as [|f|]; [| |done].
    + exists [], Suspended, code. split; [done|]. right. done.
    + destruct (IH Hr) as (fs & b & rest & E & Hcase).
      exists (f :: fs), b, rest. cbn [run_code]. rewrite E. split; [done|].
      destruct Hcase as [(-> & Hs & ->)|(-> & Hs & Hf & Hrest)].
      * left. done.
      * right. split; [done|]. split; [done|]. split; [|done].
        change (functors_of (IFunctor f :: code)) with (f :: functors_of code).
        by rewrite Hf.
Qed.

Lemma resumes_app tr1 tr2 : resumes (tr1 ++ tr2) = (resumes tr1 + resumes tr2)%nat.
Proof. unfold resumes. by rewrite List.filter_app, length_app. Qed.

Lemma entered_app tr1 tr2 : entered (tr1 ++ tr2) = entered tr1 ++ entered tr2.
Proof. apply omap_app. Qed.

Lemma resumes_cons e tr :
  resumes (e :: tr) =
    ((match e with EvResume _ => 1 | _ => 0 end) + resumes tr)%nat.
Proof. unfold resumes. by destruct e. Qed.

Lemma entered_cons e tr :
  entered (e :: tr) =
    match e with EvFunctor f => f :: entered tr | _ => entered tr end.
Proof. unfold entered. by destruct e. Qed.

Lemma resumes_functors fs : resumes (EvFunctor <$> fs) = 0%nat.
Proof. induction fs as [|f fs IH]; [done|]. exact IH. Qed.

Lemma entered_functors fs : entered (EvFunctor <$> fs) = fs.
Proof. induction fs as [|f fs IH]; [done|]. cbn. f_equal. exact IH. Qed.

(** A single worker, alone with one unfinished context in the pool,
    resumes it until it has finished and then waits. *)
Lemma worker_run (s : scheduler) :
  (forall c, pop_ctx (push_ctx [] c) = Some (c, [])) ->
  (forall c, push_ctx [] c <> []) ->
  _m_terminate s = false ->
  forall n c lg turns,
    suspends (ctx_code c) = n -> ctx_complete c = false ->
    IRaise ∉ ctx_code c -> (n + 1 < turns)%nat ->
    exists tr,
      _m_exec turns {| sched := set_users s (push_ctx [] c); current_ctx := None;
                       local_ctx := None; log := lg; env := [] |} =
        (Blocked, {| sched := set_users s []; current_ctx := None;
                     local_ctx := None; log := lg ++ tr; env := [] |}) /\
      resumes tr = S n /\ entered tr = functors_of (ctx_code c).
Proof.
  intros Hpop Hpush Hterm n.
  induction n as [|n IH]; intros c lg turns Hn Hcpl Hraise Hturns.
  all: destruct turns as [|turns]; [lia|].
  all: destruct (run_code_no_raise _ Hraise) as (fs & b & rest & Hrc & Hcase).
  all: destruct Hcase as [(-> & Hs & ->)|(-> & Hs & Hf & Hrest)]; try lia.
  all: match goal with
       | |- context [_m_exec _ ?w] =>
           destruct (turn_run_ready w) as [(Ht & _)|[(_ & Hp & _)|Hturn]]
       end.
  all: cbn [sched set_users _m_terminate _m_users env] in *.
  all: try congruence.
  all: try (unfold turn_cond; cbn; rewrite Hterm; cbn;
            by destruct (push_ctx [] c) eqn:E; [destruct (Hpush _ E)|]).
  all: try (rewrite Hpop in Hp; done).
  all: destruct Hturn as (c1 & us & fs1 & b1 & rest1 & _ & Hp & Hrc1 & E).
  all: rewrite Hpop in Hp; injection Hp as <- <-.
  all: rewrite Hrc in Hrc1; injection Hrc1 as <- <- <-.
  all: cbn in E; rewrite ?Hcpl in E; cbn in E.
  all: cbn [_m_exec]; unfold mbind at 1, M_bind, bind_; rewrite E.
  - destruct turns as [|turns]; [lia|].
    cbn [_m_exec]. unfold mbind at 1, M_bind, bind_.
    rewrite turn_run_idle; [|by unfold turn_cond; cbn; rewrite Hterm|done].
    cbn. eexists. split.
    { rewrite <- (assoc_L (++)). reflexivity. }
    rewrite ?resumes_app, ?entered_app, ?resumes_cons, ?entered_cons,
      ?resumes_app, ?entered_app, ?resumes_functors, ?entered_functors.
    unfold resumes, entered. cbn. rewrite !(right_id_L [] (++)). done.
  - assert (suspends rest = n) as Hn' by lia.
    destruct (IH {| ctx_id := ctx_id c; ctx_stacksize := ctx_stacksize c;
                    ctx_code := rest; ctx_complete := false |}
                 (lg ++ [EvLock; EvPop c; EvUnlock; EvSetCurrent (Some (ctx_id c));
                         EvResume (ctx_id c)] ++ (EvFunctor <$> fs) ++
                        [EvBack (ctx_id c) Suspended false; EvSetCurrent None; EvLock] ++
                        [if _m_join s then EvNotifyAll else EvNotifyOne] ++
                        [EvPush {| ctx_id := ctx_id c; ctx_stacksize := ctx_stacksize c;
                                   ctx_code := rest; ctx_complete := false |}] ++
                        [EvUnlock])
                 turns)
      as (tr & E2 & Hres & Hent); [exact Hn'|done|done|lia|].
    cbn in E2.
    change (set_users (set_users (set_users s (push_ctx [] c)) []) ?x)
      with (set_users s x).
    rewrite E2. eexists. split.
    { rewrite <- (assoc_L (++)). reflexivity. }
    rewrite ?resumes_app, ?entered_app, ?resumes_cons, ?entered_cons,
      ?resumes_app, ?entered_app, ?resumes_functors, ?entered_functors.
    rewrite Hres, Hent, Hf. unfold resumes, entered. cbn.
    destruct (_m_join s); cbn; rewrite (right_id_L [] (++)); done.
Qed.

End scheduler_loop_facts.

Section scheduler_composition_facts.
Import Scheduler.
Context `{StrategyTraits context}.

Lemma bind_done {A B} (m : M A) (k : A -> M B) w a w' :
  m w = (Done a, w') -> (m ≫= k) w = k a w'.
Proof. intros E. unfold mbind, M_bind, bind_. by rewrite E. Qed.

Lemma trace_bind {A B} (m : M A) (k : A -> M B) w a w' r w'' tr1 tr2 :
  m w = (Done a, w') -> log w' = log w ++ tr1 ->
  k a w' = (r, w'') -> log w'' = log w' ++ tr2 ->
  trace (m ≫= k) w = tr1 ++ tr2.
Proof.
  intros E1 H1 E2 H2. apply (trace_of _ _ r w'').
  - by rewrite (bind_done _ _ _ _ _ E1).
  - by rewrite H2, H1, (assoc_L (++)).
Qed.

(** The log of a worker only grows, and a worker that returns has seen the
    termination flag. *)
Lemma worker_done turns :
  forall w w', _m_exec turns w = (Done tt, w') -> _m_terminate (sched w') = true.
Proof.
  induction turns as [|n IH]; intros w w'; [done|].
  cbn [_m_exec]. unfold mbind, M_bind, bind_.
  destruct (turn_run w) as (k & _ & Hrun). cbn zeta in Hrun.
  destruct Hrun as [(_ & E)|[(Ht & E)|[(_ & _ & E)|Hrun]]].
  - rewrite E. done.
  - rewrite E. intros [= <-]. exact Ht.
  - rewrite E. done.
  - destruct Hrun as (c & us & fs & b & rest & _ & _ & _ & E). rewrite E.
    destruct b; [apply IH|apply IH|done].
Qed.



End scheduler_composition_facts.

(** ** The scheduler: the worker loop and the life cycle *)

(** X6. A worker leaves the loop of [_m_exec] only through the termination
    flag: when [_m_exec] returns, the flag is set. *)
Theorem worker_returns_only_on_terminate `{StrategyTraits Scheduler.context}
    (turns : nat) (w : Scheduler.world) :
  outcome (Scheduler._m_exec turns) w = Scheduler.Done tt ->
  Scheduler._m_terminate (Scheduler.sched (after (Scheduler._m_exec turns) w)) = true.
Proof.
  unfold outcome, after. destruct (Scheduler._m_exec turns w) as [r w'] eqn:E.
  cbn. intros ->. by apply (worker_done turns w).
Qed.

Lemma worker_returns_only_on_terminate_witness :
  outcome (Scheduler._m_exec (H := fifo) 2)
          (Sample.one_user Sample.fn_plain [Scheduler.with_terminate])
    = Scheduler.Done tt /\
  Scheduler._m_terminate
    (Scheduler.sched
       (after (Scheduler._m_exec (H := fifo) 2)
              (Sample.one_user Sample.fn_plain [Scheduler.with_terminate]))) = true.
Proof.
  assert (outcome (Scheduler._m_exec (H := fifo) 2)
            (Sample.one_user Sample.fn_plain [Scheduler.with_terminate])
          = Scheduler.Done tt) as E by (vm_compute; reflexivity).
  split; [exact E|].
  exact (worker_returns_only_on_terminate (H := fifo) 2
           (Sample.one_user Sample.fn_plain [Scheduler.with_terminate]) E).
Defined.

(** X7. A worker that finds the termination flag set leaves at once: it
    takes and releases the mutex, waits for nothing, and resumes no context,
    even when the pool is not empty. *)
Theorem worker_terminated_runs_nothing `{StrategyTraits Scheduler.context}
    (turns : nat) (w : Scheduler.world) :
  Scheduler._m_terminate (Scheduler.sched w) = true ->
  outcome (Scheduler._m_exec (S turns)) w = Scheduler.Done tt /\
  trace (Scheduler._m_exec (S turns)) w = [EvLock; EvUnlock] /\
  Scheduler.sched (after (Scheduler._m_exec (S turns)) w) = Scheduler.sched w /\
  Scheduler.env (after (Scheduler._m_exec (S turns)) w) = Scheduler.env w.
Proof.
  intros Ht.
  assert (turn_cond (Scheduler.sched w) = false) as Hc
    by (unfold turn_cond; by rewrite Ht).
  destruct (turn_run_ready w Hc) as [(_ & E)|[(Ht' & _)|Hturn]].
  - assert (Scheduler._m_exec (S turns) w =
              (Scheduler.Done tt,
               {| Scheduler.sched := Scheduler.sched w;
                  Scheduler.current_ctx := Scheduler.current_ctx w;
                  Scheduler.local_ctx := Scheduler.local_ctx w;
                  Scheduler.log := Scheduler.log w ++ [EvLock; EvUnlock];
                  Scheduler.env := Scheduler.env w |})) as E'.
    { cbn [Scheduler._m_exec]. by rewrite (bind_done _ _ _ _ _ E). }
    unfold outcome, after. rewrite E'. cbn. split; [done|]. split; [|done].
    by apply (trace_of _ _ _ _ _ E').
  - congruence.
  - destruct Hturn as (?&?&?&?&?&Ht'&_). congruence.
Qed.

Lemma worker_terminated_runs_nothing_witness :
  Scheduler._m_terminate (Scheduler.sched Worlds.terminated_one_user) = true /\
  outcome (Scheduler._m_exec (H := fifo) 1) Worlds.terminated_one_user
    = Scheduler.Done tt /\
  trace (Scheduler._m_exec (H := fifo) 1) Worlds.terminated_one_user
    = [EvLock; EvUnlock].
Proof.
  split; [reflexivity|].
  pose proof (worker_terminated_runs_nothing (H := fifo) 0
                Worlds.terminated_one_user eq_refl) as Hw.
  split; [exact (proj1 Hw)|exact (proj1 (proj2 Hw))].
Defined.

(** X8. With one worker and nobody else, a functor handed to [add_thread]
    is run to its end: it is entered exactly once, the worker resumes its
    context once more than the functor suspends, the finished context is
    not put back into the pool, and the worker then waits on the condition
    variable with the pool empty. The strategy is only asked to give back
    the one context it was given. *)
Theorem worker_runs_added_functor_to_end `{StrategyTraits Scheduler.context}
    (w : Scheduler.world) (id size : nat) (fn : Scheduler.functor) (turns : nat) :
  (forall c, pop_ctx (push_ctx [] c) = Some (c, [])) ->
  (forall c, push_ctx [] c <> []) ->
  Scheduler._m_terminate (Scheduler.sched w) = false ->
  Scheduler._m_users (Scheduler.sched w) = [] ->
  Scheduler.env w = [] ->
  Scheduler.IRaise ∉ Scheduler.fn_body fn ->
  (suspends (Scheduler.fn_body fn) + 1 < turns)%nat ->
  let run := Scheduler.add_thread id size fn;; Scheduler._m_exec turns in
  outcome run w = Scheduler.Blocked /\
  Scheduler._m_users (Scheduler.sched (after run w)) = [] /\
  entered (trace run w) = Scheduler.fn_id fn :: functors_of (Scheduler.fn_body fn) /\
  resumes (trace run w) = S (suspends (Scheduler.fn_body fn)).
Proof.
  intros Hpop Hpush Hterm Hu Henv Hraise Hturns run.
  pose proof (add_thread_run w id size fn) as Ea. rewrite Hu, Henv in Ea.
  set (c := {| Scheduler.ctx_id := id; Scheduler.ctx_stacksize := size;
               Scheduler.ctx_code :=
                 Scheduler.IFunctor (Scheduler.fn_id fn) :: Scheduler.fn_body fn;
               Scheduler.ctx_complete := false |}) in *.
  set (lg := Scheduler.log w ++ _) in Ea.
  assert (Scheduler.IRaise ∉ Scheduler.ctx_code c) as Hraise'.
  { subst c. cbn [Scheduler.ctx_code]. rewrite not_elem_of_cons.
    split; [discriminate|exact Hraise]. }
  assert (suspends (Scheduler.ctx_code c) = suspends (Scheduler.fn_body fn)) as Hn
    by reflexivity.
  assert (Scheduler.ctx_complete c = false) as Hcpl by reflexivity.
  pose proof (worker_run (Scheduler.sched w) Hpop Hpush Hterm _ c lg turns
                Hn Hcpl Hraise' Hturns) as (tr & Ew & Hres & Hent).
  assert (run w =
            (Scheduler.Blocked,
             {| Scheduler.sched := Scheduler.set_users (Scheduler.sched w) [];
                Scheduler.current_ctx := None; Scheduler.local_ctx := None;
                Scheduler.log := lg ++ tr; Scheduler.env := [] |})) as E.
  { unfold run. rewrite (bind_done _ _ _ _ _ Ea). exact Ew. }
  unfold outcome, after. rewrite E. cbn [fst snd Scheduler.sched].
  split; [done|]. split; [done|].
  assert (trace run w =
            [EvSetCurrent (Some id); EvStart id; EvBack id Suspended false;
             EvSetCurrent None; EvLock; EvPush c; EvNotifyOne; EvUnlock] ++ tr) as ->.
  { apply (trace_of _ _ _ _ _ E). subst lg. cbn [Scheduler.log].
    by rewrite <- (assoc_L (++)). }
  rewrite resumes_app, entered_app, Hres, Hent. split; reflexivity.
Qed.

Lemma worker_runs_added_functor_to_end_witness :
  let fn := {| Scheduler.fn_id := 7%nat;
               Scheduler.fn_body := [Scheduler.ISuspend; Scheduler.IFunctor 8] |} in
  let run := Scheduler.add_thread (H := fifo) 1 64 fn;;
             Scheduler._m_exec (H := fifo) 3 in
  outcome run (Scheduler.blank []) = Scheduler.Blocked /\
  entered (trace run (Scheduler.blank [])) = [7%nat; 8%nat] /\
  resumes (trace run (Scheduler.blank [])) = 2%nat.
Proof.
  pose proof (worker_runs_added_functor_to_end (H := fifo) (Scheduler.blank [])
                1 64
                {| Scheduler.fn_id := 7%nat;
                   Scheduler.fn_body := [Scheduler.ISuspend; Scheduler.IFunctor 8] |}
                3 (fun c => eq_refl)
                (fun c (E : ([] ++ [c] : list Scheduler.context) = []) =>
                   eq_ind ([c] : list Scheduler.context)
                          (fun l => match l with [] => False | _ => True end)
                          I [] E)
                eq_refl eq_refl eq_refl) as Hw.
  cbn zeta in Hw.
  assert (Scheduler.IRaise ∉ [Scheduler.ISuspend; Scheduler.IFunctor 8]) as Hr.
  { rewrite !not_elem_of_cons. repeat split; try discriminate. apply not_elem_of_nil. }
  specialize (Hw Hr ltac:(vm_compute; lia)).
  split; [exact (proj1 Hw)|]. split; [exact (proj1 (proj2 (proj2 Hw)))|].
  exact (proj2 (proj2 (proj2 Hw))).
Defined.

Section scheduler_life_cycle_facts.
Import Scheduler.
Context `{StrategyTraits context}.

Lemma ctor_run tid_of default_size w :
  Inj (=) (=) tid_of ->
  exists kernels',
    ctor tid_of default_size w =
      (Done tt,
       {| sched := {| _m_terminate := false; _m_join := false;
                      _m_kernels := kernels'; _m_users := [] |};
          current_ctx := current_ctx w; local_ctx := local_ctx w;
          log := log w ++ (EvSpawn <$> (tid_of <$> seq 0 default_size));
          env := env w |}) /\
    (map_to_list kernels').*1 ≡ₚ tid_of <$> seq 0 default_size.
Proof.
  intros Hinj.
  destruct (spawn_workers_run tid_of Hinj default_size 0%nat
              {| sched := {| _m_terminate := false; _m_join := false;
                             _m_kernels := ∅; _m_users := [] |};
                 current_ctx := current_ctx w; local_ctx := local_ctx w;
                 log := log w; env := env w |})
    as (kernels' & E & _ & Hin & Hout).
  { intros j _. apply lookup_empty. }
  cbn in E, Hin, Hout. exists kernels'. split.
  { unfold ctor. run_m. exact E. }
  apply NoDup_Permutation.
  - apply NoDup_fst_map_to_list.
  - apply NoDup_fmap_2; [done|]. apply NoDup_seq.
  - intros tid. rewrite !list_elem_of_fmap. split.
    + intros ([tid' th] & -> & Hth%elem_of_map_to_list). cbn.
      destruct (decide (tid' ∈ tid_of <$> seq 0 default_size)) as [Hyes|Hno].
      * by apply list_elem_of_fmap in Hyes.
      * rewrite Hout, lookup_empty in Hth; [done|].
        intros j Hj ->. apply Hno, list_elem_of_fmap. exists j.
        split; [done|]. apply elem_of_seq. lia.
    + intros (j & -> & Hj%elem_of_seq).
      exists (tid_of j, {| th_joinable := true |}). split; [done|].
      apply elem_of_map_to_list, Hin. lia.
Qed.

End scheduler_life_cycle_facts.

(** X9. A scheduler that is constructed and destroyed with no context
    added in between tears down cleanly: the destructor does not abort, sets
    the termination flag, notifies all waiters, and joins exactly the
    threads the constructor started, each once (in the order of the worker
    table). *)
Theorem ctor_then_dtor_joins_spawned
    (tid_of : nat -> nat) (default_size : nat) (w : Scheduler.world) :
  Inj (=) (=) tid_of ->
  let run := Scheduler.ctor tid_of default_size;; Scheduler.dtor in
  outcome run w = Scheduler.Done tt /\
  Scheduler._m_terminate (Scheduler.sched (after run w)) = true /\
  exists joined,
    trace run w =
      (EvSpawn <$> (tid_of <$> seq 0 default_size)) ++
      [EvLock; EvUnlock; EvLock; EvSetTerminate; EvNotifyAll; EvUnlock] ++
      (EvJoinThread <$> joined) /\
    joined ≡ₚ tid_of <$> seq 0 default_size.
Proof.
  intros Hinj run.
  destruct (ctor_run tid_of default_size w Hinj) as (kernels' & Ec & Hperm).
  match type of Ec with _ = (_, ?w1) => pose proof (dtor_run w1) as Ed end.
  cbn [Scheduler.sched Scheduler._m_users Scheduler._m_kernels Scheduler.log
       Scheduler.current_ctx Scheduler.local_ctx Scheduler.env] in Ed.
  destruct Ed as (kernels'' & Ed).
  assert (run w = Scheduler.dtor
                    {| Scheduler.sched :=
                         {| Scheduler._m_terminate := false; Scheduler._m_join := false;
                            Scheduler._m_kernels := kernels'; Scheduler._m_users := [] |};
                       Scheduler.current_ctx := Scheduler.current_ctx w;
                       Scheduler.local_ctx := Scheduler.local_ctx w;
                       Scheduler.log :=
                         Scheduler.log w ++ (EvSpawn <$> (tid_of <$> seq 0 default_size));
                       Scheduler.env := Scheduler.env w |}) as E.
  { unfold run. exact (bind_done _ _ _ _ _ Ec). }
  rewrite Ed in E. unfold outcome, after. rewrite E. cbn [fst snd Scheduler.sched].
  split; [done|]. split; [done|].
  exists (map_to_list kernels').*1. split; [|done].
  apply (trace_of _ _ _ _ _ E). cbn [Scheduler.log].
  by rewrite <- (assoc_L (++)).
Qed.

Lemma ctor_then_dtor_joins_spawned_witness :
  Inj (=) (=) S /\
  outcome (Scheduler.ctor S 3;; Scheduler.dtor) (Scheduler.blank [])
    = Scheduler.Done tt /\
  Scheduler._m_terminate
    (Scheduler.sched (after (Scheduler.ctor S 3;; Scheduler.dtor) (Scheduler.blank [])))
    = true.
Proof.
  assert (Inj (=) (=) S) as Hinj by (intros ? ?; lia).
  split; [exact Hinj|].
  pose proof (ctor_then_dtor_joins_spawned S 3 (Scheduler.blank []) Hinj) as Hc.
  cbn zeta in Hc. split; [exact (proj1 Hc)|exact (proj1 (proj2 Hc))].
Defined.



(** ** [poll_fds_impl] *)

Section poll_impl_facts.
Import PollImpl PollImpl.Select.

Lemma land_in_cases e :
  Z.land e polling_in = 0 \/ Z.land e polling_in = polling_in.
Proof.
  unfold polling_in. change 1 with (Z.ones 1). rewrite Z.land_ones by lia.
  change (2 ^ 1) with 2. pose proof (Z.mod_pos_bound e 2). change (Z.ones 1) with 1. lia.
Qed.

Lemma land_out_cases e :
  Z.land e polling_out = 0 \/ Z.land e polling_out = polling_out.
Proof.
  unfold polling_out. change (Z.shiftl 1 1) with (2 ^ 1).
  destruct (Z.testbit e 1) eqn:Hb; [right|left]; apply Z.bits_inj'; intros n Hn.
  - rewrite Z.land_spec, Z.pow2_bits_eqb by lia.
    destruct (Z.eqb_spec 1 n) as [<-|]; [by rewrite Hb|by rewrite andb_false_r].
  - rewrite Z.land_spec, Z.pow2_bits_eqb, Z.bits_0 by lia.
    destruct (Z.eqb_spec 1 n) as [<-|]; [by rewrite Hb|by rewrite andb_false_r].
Qed.

Lemma land_in_out : Z.land polling_in polling_out = 0.
Proof. reflexivity. Qed.

Context (FD_SETSIZE : Z).

Lemma collect_spec fds :
  forall n r w,
    (match collect FD_SETSIZE fds n r w with
     | Some (n', r', w') =>
         Forall (fun p => requested p -> 0 <= fd p < FD_SETSIZE) fds /\
         n <= n' /\ Forall (fun p => fd p <= n') fds /\
         (n' = n \/ exists p, p ∈ fds /\ n' = fd p) /\
         (forall x, x ∈ r' <->
            x ∈ r \/ exists p, p ∈ fds /\ fd p = x /\ Z.land (events p) polling_in <> 0) /\
         (forall x, x ∈ w' <->
            x ∈ w \/ exists p, p ∈ fds /\ fd p = x /\ Z.land (events p) polling_out <> 0)
     | None => ~ Forall (fun p => requested p -> 0 <= fd p < FD_SETSIZE) fds
     end).
Proof.
  induction fds as [|p fds IH]; intros n r w.
  - cbn. split; [constructor|]. split; [lia|]. split; [constructor|].
    split; [by left|].
    split; intros x; (split; [by left|]); intros [?|(p & []%elem_of_nil & _)]; done.
  - cbn [collect]. set (n1 := if n <? fd p then fd p else n).
    assert (n <= n1 /\ fd p <= n1 /\ (n1 = n \/ n1 = fd p)) as (Hn1 & Hn2 & Hn3).
    { subst n1. destruct (Z.ltb_spec n (fd p)); lia. }
    assert (forall (s : gset Z) m,
              (if Z.land (events p) m =? 0 then Some s else FD_SET FD_SETSIZE (fd p) s)
                = None ->
              Z.land (events p) m <> 0 /\ ~ (0 <= fd p < FD_SETSIZE)) as Hnone.
    { intros s m. destruct (Z.eqb_spec (Z.land (events p) m) 0); [done|].
      unfold FD_SET. destruct (Z.leb_spec 0 (fd p)), (Z.ltb_spec (fd p) FD_SETSIZE);
        cbn; try done; intros _; split; try done; lia. }
    assert (forall (s s' : gset Z) m,
              (if Z.land (events p) m =? 0 then Some s else FD_SET FD_SETSIZE (fd p) s)
                = Some s' ->
              (Z.land (events p) m <> 0 -> 0 <= fd p < FD_SETSIZE) /\
              (forall x, x ∈ s' <-> x ∈ s \/ (fd p = x /\ Z.land (events p) m <> 0)))
      as Hsome.
    { intros s s' m. destruct (Z.eqb_spec (Z.land (events p) m) 0) as [E|E].
      - intros [= <-]. split; [done|]. intros x. split; [by left|].
        intros [?|[_ ?]]; done.
      - unfold FD_SET.
        destruct (Z.leb_spec 0 (fd p)), (Z.ltb_spec (fd p) FD_SETSIZE); cbn; try done.
        intros [= <-]. split; [lia|]. intros x.
        rewrite elem_of_union, elem_of_singleton. split.
        + intros [->|?]; [right|left]; done.
        + intros [?|[<- _]]; [right|left]; done. }
    destruct (if Z.land (events p) polling_in =? 0 then _ else _) as [r1|] eqn:Er.
    2:{ cbn. apply Hnone in Er as [Hreq Hout]. intros [Hp _]%Forall_cons.
        apply Hout, Hp. by left. }
    cbn [mbind option_bind].
    destruct (if Z.land (events p) polling_out =? 0 then _ else _) as [w1|] eqn:Ew.
    2:{ cbn. apply Hnone in Ew as [Hreq Hout]. intros [Hp _]%Forall_cons.
        apply Hout, Hp. by right. }
    cbn [mbind option_bind].
    apply Hsome in Er as [Hrin Hr1]. apply Hsome in Ew as [Hwin Hw1].
    specialize (IH n1 r1 w1).
    destruct (collect FD_SETSIZE fds n1 r1 w1) as [[[n' r'] w']|].
    + destruct IH as (Hall & Hle & Hmax & Hwit & Hr' & Hw').
      split. { constructor; [|done]. intros [?|?]; auto. }
      split; [lia|]. split. { constructor; [lia|done]. }
      split.
      { destruct Hwit as [->|(q & Hq & ->)].
        - destruct Hn3 as [->| ->]; [by left|]. right. exists p.
          split; [apply elem_of_cons; by left|done].
        - right. exists q. split; [apply elem_of_cons; by right|done]. }
      split; intros x; [rewrite Hr', Hr1|rewrite Hw', Hw1]; split.
      * intros [[?|[? ?]]|(q & Hq & ? & ?)]; [by left| |].
        -- right. exists p. split; [apply elem_of_cons; by left|done].
        -- right. exists q. split; [apply elem_of_cons; by right|done].
      * intros [?|(q & [->|Hq]%elem_of_cons & ? & ?)];
          [by left; left|by left; right|right; by exists q].
      * intros [[?|[? ?]]|(q & Hq & ? & ?)]; [by left| |].
        -- right. exists p. split; [apply elem_of_cons; by left|done].
        -- right. exists q. split; [apply elem_of_cons; by right|done].
      * intros [?|(q & [->|Hq]%elem_of_cons & ? & ?)];
          [by left; left|by left; right|right; by exists q].
    + intros [_ Hall]%Forall_cons. done.
Qed.

Lemma collect_defined fds :
  forall n r w,
    Forall (fun p => requested p -> 0 <= fd p < FD_SETSIZE) fds ->
    is_Some (collect FD_SETSIZE fds n r w).
Proof.
  intros n r w Hall. pose proof (collect_spec fds n r w) as Hc.
  destruct (collect FD_SETSIZE fds n r w); [eauto|]. by destruct Hc.
Qed.

Lemma fill_spec r w p p' :
  fill FD_SETSIZE r w p = Some p' ->
  fd p' = fd p /\ events p' = events p /\
  revents p' =
    Z.lor (if bool_decide (Z.land (events p) polling_in <> 0 /\ fd p ∈ r)
           then polling_in else 0)
          (if bool_decide (Z.land (events p) polling_out <> 0 /\ fd p ∈ w)
           then polling_out else 0).
Proof.
  unfold fill, FD_ISSET.
  destruct (Z.eqb_spec (Z.land (events p) polling_in) 0) as [Ei|Ei];
    destruct (Z.eqb_spec (Z.land (events p) polling_out) 0) as [Eo|Eo];
    destruct ((0 <=? fd p) && (fd p <? FD_SETSIZE)); cbn; try done.
  all: intros [= <-]; cbn; split; [done|]; split; [done|].
  all: repeat case_bool_decide; try reflexivity; exfalso; tauto.
Qed.

Lemma fill_defined r w p :
  (requested p -> 0 <= fd p < FD_SETSIZE) -> is_Some (fill FD_SETSIZE r w p).
Proof.
  intros Hp. unfold fill, FD_ISSET.
  destruct (Z.eqb_spec (Z.land (events p) polling_in) 0) as [Ei|Ei];
    destruct (Z.eqb_spec (Z.land (events p) polling_out) 0) as [Eo|Eo];
    cbn; eauto.
  all: replace ((0 <=? fd p) && (fd p <? FD_SETSIZE)) with true
         by (symmetry; apply andb_true_iff; unfold requested in Hp; lia).
  all: cbn; eauto.
Qed.

Lemma mapM_fill_defined r w fds :
  Forall (fun p => requested p -> 0 <= fd p < FD_SETSIZE) fds ->
  is_Some (mapM (fill FD_SETSIZE r w) fds).
Proof.
  intros Hall. apply mapM_is_Some. eapply Forall_impl; [exact Hall|].
  intros p. apply fill_defined.
Qed.

Lemma revents_cases e (a b : bool) :
  (a = true -> Z.land e polling_in <> 0) ->
  (b = true -> Z.land e polling_out <> 0) ->
  let rev := Z.lor (if a then polling_in else 0) (if b then polling_out else 0) in
  Z.land rev e = rev /\ 0 <= rev <= 3 /\
  (Z.land rev polling_in <> 0 <-> a = true) /\
  (Z.land rev polling_out <> 0 <-> b = true).
Proof.
  intros Ha Hb rev.
  assert (a = true -> Z.land polling_in e = polling_in) as Ha'.
  { intros E. rewrite Z.land_comm. destruct (land_in_cases e); [by apply Ha in E|done]. }
  assert (b = true -> Z.land polling_out e = polling_out) as Hb'.
  { intros E. rewrite Z.land_comm. destruct (land_out_cases e); [by apply Hb in E|done]. }
  subst rev. rewrite Z.land_lor_distr_l.
  destruct a, b; rewrite ?Ha', ?Hb', ?Z.land_0_l by done; cbn; repeat split; try done; lia.
Qed.

Lemma select_args_sets fds timeout call :
  select_args FD_SETSIZE fds timeout = Some call ->
  (forall x, x ∈ readfds call <->
     exists p, p ∈ fds /\ fd p = x /\ Z.land (events p) polling_in <> 0) /\
  (forall x, x ∈ writefds call <->
     exists p, p ∈ fds /\ fd p = x /\ Z.land (events p) polling_out <> 0).
Proof.
  unfold select_args.
  pose proof (collect_spec fds (-1) ∅ ∅) as Hc.
  destruct (collect FD_SETSIZE fds (-1) ∅ ∅) as [[[n r] w]|]; [|done].
  destruct Hc as (_ & _ & _ & _ & Hr & Hw). cbn [mbind option_bind].
  destruct (n <? int_max); [|done]. intros [= <-]. cbn.
  split; intros x; [rewrite Hr|rewrite Hw];
    (split; [intros [[]%elem_of_empty|?]; done|by right]).
Qed.

End poll_impl_facts.

(** ** The select fallback of [poll_fds_impl] *)

(** X12. What the select fallback hands to [::select]: every descriptor
    of the records is below [nfds], which is zero or one more than one of
    them; the read set holds exactly the descriptors of the records that
    ask for input and the write set those that ask for output, all of them
    within the capacity of the sets. *)
Theorem select_args_cover_descriptors FD_SETSIZE fds timeout call :
  PollImpl.Select.select_args FD_SETSIZE fds timeout = Some call ->
  Forall (fun p => fd p < PollImpl.Select.nfds call) fds /\
  (PollImpl.Select.nfds call = 0 \/
   exists p, p ∈ fds /\ PollImpl.Select.nfds call = fd p + 1) /\
  (forall x, x ∈ PollImpl.Select.readfds call <->
     exists p, p ∈ fds /\ fd p = x /\ Z.land (events p) polling_in <> 0) /\
  (forall x, x ∈ PollImpl.Select.writefds call <->
     exists p, p ∈ fds /\ fd p = x /\ Z.land (events p) PollImpl.polling_out <> 0) /\
  (forall x, x ∈ PollImpl.Select.readfds call ∪ PollImpl.Select.writefds call ->
     0 <= x < FD_SETSIZE /\ x < PollImpl.Select.nfds call) /\
  PollImpl.Select.to call = PollImpl.Select.select_timeout timeout.
Proof.
  unfold PollImpl.Select.select_args.
  pose proof (collect_spec FD_SETSIZE fds (-1) ∅ ∅) as Hc.
  destruct (PollImpl.Select.collect FD_SETSIZE fds (-1) ∅ ∅) as [[[n r] w]|];
    [|done].
  destruct Hc as (Hall & Hle & Hmax & Hwit & Hr & Hw). cbn [mbind option_bind].
  destruct (Z.ltb_spec n PollImpl.int_max); [|done].
  intros [= <-]. cbn.
  assert (forall x, x ∈ r <->
            exists p, p ∈ fds /\ fd p = x /\ Z.land (events p) polling_in <> 0) as Hr'.
  { intros x. rewrite Hr. split; [intros [[]%elem_of_empty|?]; done|by right]. }
  assert (forall x, x ∈ w <->
            exists p, p ∈ fds /\ fd p = x /\
                      Z.land (events p) PollImpl.polling_out <> 0) as Hw'.
  { intros x. rewrite Hw. split; [intros [[]%elem_of_empty|?]; done|by right]. }
  split. { eapply Forall_impl; [exact Hmax|]. cbn. intros; lia. }
  split. { destruct Hwit as [->|(p & Hp & ->)]; [by left|right; eauto]. }
  split; [exact Hr'|]. split; [exact Hw'|]. split; [|done].
  rewrite Forall_forall in Hall, Hmax.
  intros x [(p & Hp & <- & Hreq)%Hr'|(p & Hp & <- & Hreq)%Hw']%elem_of_union.
  - split; [apply (Hall p Hp); by left|]. specialize (Hmax p Hp). cbn in Hmax. lia.
  - split; [apply (Hall p Hp); by right|]. specialize (Hmax p Hp). cbn in Hmax. lia.
Qed.

Lemma select_args_cover_descriptors_witness :
  let fds := [ {| fd := 3; events := 1; revents := 0 |};
               {| fd := 7; events := 2; revents := 0 |} ] in
  let call := {| PollImpl.Select.nfds := 8;
                 PollImpl.Select.readfds := {[ 3 ]} ∪ ∅;
                 PollImpl.Select.writefds := {[ 7 ]} ∪ ∅;
                 PollImpl.Select.to := None |} in
  PollImpl.Select.select_args 1024 fds None = Some call /\
  Forall (fun p => fd p < PollImpl.Select.nfds call) fds.
Proof.
  intros fds call.
  assert (PollImpl.Select.select_args 1024 fds None = Some call) as E
    by reflexivity.
  split; [exact E|].
  exact (proj1 (select_args_cover_descriptors 1024 fds None call E)).
Defined.

(** X13. The select fallback is defined exactly when every record that
    requests an event has its descriptor within the capacity of an
    [fd_set], and no descriptor is [INT_MAX]; whatever [::select]
    reports. *)
Theorem select_fallback_defined FD_SETSIZE select fds timeout :
  is_Some (PollImpl.Select.poll_fds_impl FD_SETSIZE select fds timeout) <->
  Forall (fun p => PollImpl.Select.requested p -> 0 <= fd p < FD_SETSIZE) fds /\
  Forall (fun p => fd p < PollImpl.int_max) fds.
Proof.
  unfold PollImpl.Select.poll_fds_impl, PollImpl.Select.select_args.
  pose proof (collect_spec FD_SETSIZE fds (-1) ∅ ∅) as Hc.
  destruct (PollImpl.Select.collect FD_SETSIZE fds (-1) ∅ ∅) as [[[n r] w]|].
  - destruct Hc as (Hall & Hle & Hmax & Hwit & _). cbn [mbind option_bind].
    destruct (Z.ltb_spec n PollImpl.int_max) as [Hn|Hn]; cbn [mbind option_bind].
    + unfold poll_result_handling.
      match goal with
      | |- context [mapM ?f fds] =>
          destruct (mapM_fill_defined FD_SETSIZE
                      (PollImpl.Select.readfds_out
                         (select {| PollImpl.Select.nfds := n + 1;
                                    PollImpl.Select.readfds := r;
                                    PollImpl.Select.writefds := w;
                                    PollImpl.Select.to :=
                                      PollImpl.Select.select_timeout timeout |}))
                      (PollImpl.Select.writefds_out
                         (select {| PollImpl.Select.nfds := n + 1;
                                    PollImpl.Select.readfds := r;
                                    PollImpl.Select.writefds := w;
                                    PollImpl.Select.to :=
                                      PollImpl.Select.select_timeout timeout |}))
                      fds Hall) as [fds' E]
      end.
      rewrite E. cbn. split; [|eauto]. intros _. split; [done|].
      eapply Forall_impl; [exact Hmax|]. cbn. intros; lia.
    + split; [by intros [? [=]]|]. intros [_ Hlt].
      destruct Hwit as [->|(p & Hp & ->)]; [unfold PollImpl.int_max in Hn; lia|].
      rewrite Forall_forall in Hlt. specialize (Hlt p Hp). cbn in Hlt. lia.
  - cbn. split; [by intros [? [=]]|]. intros [Hall _]. done.
Qed.

(** X14. The records after a call of the select fallback: descriptors and
    requested events are as before, the result and the error flag are
    those of [::select], and the returned events are rebuilt from the two
    sets alone (what they held before is discarded): the input bit is set
    exactly when input was requested and the descriptor is in the read set,
    the output bit likewise, no other bit is set, and no event is returned
    that was not requested. *)
Theorem select_fallback_returns_requested_events FD_SETSIZE select fds timeout fds' res err :
  PollImpl.Select.poll_fds_impl FD_SETSIZE select fds timeout = Some (fds', res, err) ->
  exists call,
    PollImpl.Select.select_args FD_SETSIZE fds timeout = Some call /\
    res = PollImpl.Select.result (select call) /\ err = (res <? 0) /\
    Forall2 (fun p p' =>
               fd p' = fd p /\ events p' = events p /\
               Z.land (revents p') (events p) = revents p' /\
               0 <= revents p' <= 3 /\
               (Z.land (revents p') polling_in <> 0 <->
                  Z.land (events p) polling_in <> 0 /\
                  fd p ∈ PollImpl.Select.readfds_out (select call)) /\
               (Z.land (revents p') PollImpl.polling_out <> 0 <->
                  Z.land (events p) PollImpl.polling_out <> 0 /\
                  fd p ∈ PollImpl.Select.writefds_out (select call)))
            fds fds'.
Proof.
  unfold PollImpl.Select.poll_fds_impl.
  destruct (PollImpl.Select.select_args FD_SETSIZE fds timeout) as [call|]; [|done].
  cbn [mbind option_bind]. unfold poll_result_handling.
  destruct (mapM _ fds) as [fds0|] eqn:E; [|done]. cbn.
  intros [= <- <- <-]. exists call. split; [done|]. split; [done|]. split; [done|].
  apply mapM_Some in E. eapply Forall2_impl; [exact E|]. cbn.
  intros p p' (Hfd & Hev & Hrev)%fill_spec.
  split; [done|]. split; [done|]. rewrite Hrev.
  match goal with
  | |- context [Z.lor (if bool_decide ?P then _ else _)
                      (if bool_decide ?Q then _ else _)] =>
      destruct (revents_cases (events p) (bool_decide P) (bool_decide Q))
        as (H1 & H2 & H3 & H4);
        [by intros [? _]%bool_decide_eq_true|by intros [? _]%bool_decide_eq_true|]
  end.
  rewrite bool_decide_eq_true in H3, H4. tauto.
Qed.

Lemma select_fallback_returns_requested_events_witness :
  let fds := [ {| fd := 3; events := 1; revents := 64 |};
               {| fd := 7; events := 3; revents := 0 |} ] in
  let select := fun _ : PollImpl.Select.select_call =>
                  {| PollImpl.Select.result := 1;
                     PollImpl.Select.readfds_out := {[ 7 ]};
                     PollImpl.Select.writefds_out := ∅ |} in
  let fds' := [ {| fd := 3; events := 1; revents := 0 |};
                {| fd := 7; events := 3; revents := 1 |} ] in
  PollImpl.Select.poll_fds_impl 1024 select fds None = Some (fds', 1, false) /\
  exists call,
    PollImpl.Select.select_args 1024 fds None = Some call /\
    1 = PollImpl.Select.result (select call).
Proof.
  intros fds select fds'.
  assert (PollImpl.Select.poll_fds_impl 1024 select fds None = Some (fds', 1, false))
    as E by (vm_compute; reflexivity).
  split; [exact E|].
  destruct (select_fallback_returns_requested_events 1024 select fds None _ _ _ E)
    as (call & Hcall & Hres & _).
  exists call. split; [exact Hcall|exact Hres].
Defined.

(** X15. When [::select] fails and leaves both sets as it found them, the
    select fallback flags the error and nevertheless marks every requested
    event of every record as returned. *)
Theorem select_failure_returns_every_requested_event
    FD_SETSIZE select fds timeout fds' res err :
  PollImpl.Select.poll_fds_impl FD_SETSIZE select fds timeout = Some (fds', res, err) ->
  (forall call,
      PollImpl.Select.select_args FD_SETSIZE fds timeout = Some call ->
      PollImpl.Select.result (select call) < 0 /\
      PollImpl.Select.readfds_out (select call) = PollImpl.Select.readfds call /\
      PollImpl.Select.writefds_out (select call) = PollImpl.Select.writefds call) ->
  err = true /\
  Forall2 (fun p p' =>
             revents p' =
               Z.lor (Z.land (events p) polling_in)
                     (Z.land (events p) PollImpl.polling_out))
          fds fds'.
Proof.
  intros E Hfail. unfold PollImpl.Select.poll_fds_impl in E.
  destruct (PollImpl.Select.select_args FD_SETSIZE fds timeout) as [call|] eqn:Ec;
    [|done].
  destruct (Hfail call eq_refl) as (Hres & Hrd & Hwr).
  destruct (select_args_sets FD_SETSIZE fds timeout call Ec) as (Hr & Hw).
  cbn [mbind option_bind] in E. unfold poll_result_handling in E.
  destruct (mapM _ fds) as [fds0|] eqn:Em; [|done]. cbn in E.
  injection E as <- <- <-. split; [by apply Z.ltb_lt|].
  apply mapM_Some in Em. 
  apply Forall2_same_length_lookup. split; [by eapply Forall2_length|].
  intros i p p' Hp Hp'.
  pose proof (Forall2_lookup_lr _ _ _ _ _ _ Em Hp Hp') as (_ & _ & ->)%fill_spec.
  rewrite Hrd, Hwr.
  assert (p ∈ fds) as Hin by (by eapply list_elem_of_lookup_2).
  f_equal.
  - destruct (land_in_cases (events p)) as [E0|E1].
    + rewrite bool_decide_eq_false_2 by (intros [? _]; done). by rewrite E0.
    + rewrite bool_decide_eq_true_2; [by rewrite E1|].
      split; [by rewrite E1|]. apply Hr. exists p. by rewrite E1.
  - destruct (land_out_cases (events p)) as [E0|E1].
    + rewrite bool_decide_eq_false_2 by (intros [? _]; done). by rewrite E0.
    + rewrite bool_decide_eq_true_2; [by rewrite E1|].
      split; [by rewrite E1|]. apply Hw. exists p. by rewrite E1.
Qed.

Lemma select_failure_returns_every_requested_event_witness :
  let fds := [ {| fd := 3; events := 1; revents := 0 |};
               {| fd := 7; events := 3; revents := 0 |} ] in
  let select := fun call : PollImpl.Select.select_call =>
                  {| PollImpl.Select.result := -1;
                     PollImpl.Select.readfds_out := PollImpl.Select.readfds call;
                     PollImpl.Select.writefds_out := PollImpl.Select.writefds call |} in
  let fds' := [ {| fd := 3; events := 1; revents := 1 |};
                {| fd := 7; events := 3; revents := 3 |} ] in
  PollImpl.Select.poll_fds_impl 1024 select fds None = Some (fds', -1, true) /\
  Forall2 (fun p p' =>
             revents p' =
               Z.lor (Z.land (events p) polling_in)
                     (Z.land (events p) PollImpl.polling_out))
          fds fds'.
Proof.
  intros fds select fds'.
  assert (PollImpl.Select.poll_fds_impl 1024 select fds None = Some (fds', -1, true))
    as E by (vm_compute; reflexivity).
  split; [exact E|].
  refine (proj2 (select_failure_returns_every_requested_event
                   1024 select fds None _ _ _ E _)).
  intros call _. split; [reflexivity|]. split; reflexivity.
Defined.

Section timeout_facts.
Import PollImpl.

Lemma quot_split a d k :
  0 < d -> 0 < k ->
  (a ÷ d) * k + ((a - (a ÷ d) * d) * k) ÷ d = (a * k) ÷ d.
Proof.
  intros Hd Hk. pose proof (Z.quot_rem' a d) as Hqr.
  pose proof (Z.rem_sign_mul a d ltac:(lia)) as Hs.
  assert (a - a ÷ d * d = Z.rem a d) as -> by (rewrite Hqr at 1; ring).
  assert (a * k = Z.rem a d * k + (a ÷ d * k) * d) as Hak
    by (rewrite Hqr at 1; ring).
  rewrite Hak. rewrite Z.quot_add; [ring|lia|].
  rewrite <- Hak.
  replace (a * k * (Z.rem a d * k)) with ((Z.rem a d * a) * (k * k)) by ring.
  apply Z.mul_nonneg_nonneg; [exact Hs|]. apply Z.mul_nonneg_nonneg; lia.
Qed.

Lemma rem_part_bound a d k :
  0 < d -> 0 < k ->
  - k < ((a - (a ÷ d) * d) * k) ÷ d < k /\
  (0 <= a -> 0 <= a ÷ d /\ 0 <= ((a - (a ÷ d) * d) * k) ÷ d) /\
  (a <= 0 -> a ÷ d <= 0 /\ ((a - (a ÷ d) * d) * k) ÷ d <= 0).
Proof.
  intros Hd Hk. pose proof (Z.quot_rem' a d) as Hqr.
  assert (a - a ÷ d * d = Z.rem a d) as -> by (rewrite Hqr at 1; ring).
  clear Hqr.
  destruct (Z.le_ge_cases 0 a) as [Ha|Ha].
  - pose proof (Z.rem_bound_pos a d Ha Hd) as Hr.
    pose proof (Z.quot_pos a d Ha Hd).
    assert (0 <= (Z.rem a d * k) ÷ d < k) as Hq.
    { split; [apply Z.quot_pos; nia|]. apply Z.quot_lt_upper_bound; nia. }
    split; [lia|]. split; [lia|]. intros Ha'.
    assert (a = 0) as -> by lia. rewrite Z.rem_0_l, Z.quot_0_l by lia. cbn.
    rewrite Z.quot_0_l by lia. lia.
  - assert (- d < Z.rem a d <= 0) as Hr.
    { replace a with (- - a) by lia. rewrite Z.rem_opp_l by lia.
      pose proof (Z.rem_bound_pos (- a) d ltac:(lia) Hd). lia. }
    assert (a ÷ d <= 0) as Hq0.
    { replace a with (- (- a)) by lia. rewrite Z.quot_opp_l by lia.
      pose proof (Z.quot_pos (- a) d ltac:(lia) Hd). lia. }
    assert (- k < (Z.rem a d * k) ÷ d <= 0) as Hq.
    { replace (Z.rem a d * k) with (- (- Z.rem a d * k)) by lia.
      rewrite Z.quot_opp_l by lia.
      assert (0 <= (- Z.rem a d * k) ÷ d < k); [|lia].
      split; [apply Z.quot_pos; nia|]. apply Z.quot_lt_upper_bound; nia. }
    split; [lia|]. split; [|lia]. intros Ha'.
    assert (a = 0) as -> by lia. rewrite Z.rem_0_l, Z.quot_0_l by lia. cbn.
    rewrite Z.quot_0_l by lia. lia.
Qed.

End timeout_facts.

(** ** The timeout of [poll_fds_impl] *)

(** X16. The [timeval] of the select fallback, for a timeout whose
    length in microseconds stays within 64 bits (so that no value of the
    conversion leaves that range): the seconds are the timeout truncated to
    whole seconds, seconds and microseconds add up to the timeout truncated
    to whole microseconds, the microseconds stay below one second in
    absolute value, and both fields have the sign of the timeout; a timeout
    that is not negative gives a normalised [timeval]. *)
Theorem select_timeout_splits_exactly (x : PollImpl.duration) :
  0 < PollImpl.period_num x -> 0 < PollImpl.period_den x ->
  Z.abs (PollImpl.ticks x * PollImpl.period_num x) * 1000000 < 2 ^ 63 ->
  exists tv,
    PollImpl.Select.select_timeout (Some x) = Some tv /\
    PollImpl.Select.tv_sec tv = PollImpl.duration_cast 1 1 x /\
    PollImpl.Select.tv_sec tv * 1000000 + PollImpl.Select.tv_usec tv =
      PollImpl.duration_cast 1 1000000 x /\
    - 1000000 < PollImpl.Select.tv_usec tv < 1000000 /\
    (0 <= PollImpl.ticks x ->
       0 <= PollImpl.Select.tv_sec tv /\ 0 <= PollImpl.Select.tv_usec tv) /\
    (PollImpl.ticks x <= 0 ->
       PollImpl.Select.tv_sec tv <= 0 /\ PollImpl.Select.tv_usec tv <= 0).
Proof.
  intros Hn Hd Hrange. eexists. split; [reflexivity|].
  cbn [PollImpl.Select.tv_sec PollImpl.Select.tv_usec].
  unfold PollImpl.duration_cast, PollImpl.minus_seconds.
  cbn [PollImpl.ticks PollImpl.period_num PollImpl.period_den].
  rewrite !Z.mul_1_r, !Z.mul_1_l.
  set (a := PollImpl.ticks x * PollImpl.period_num x) in *.
  set (d := PollImpl.period_den x) in *.
  replace (PollImpl.ticks x * (PollImpl.period_num x * 1000000)) with (a * 1000000)
    by (subst a; lia).
  pose proof (quot_split a d 1000000 Hd ltac:(lia)) as Hs.
  pose proof (rem_part_bound a d 1000000 Hd ltac:(lia)) as (Hb & Hpos & Hneg).
  assert (Z.abs (a ÷ d) <= Z.abs a) as Hq.
  { destruct (Z.le_ge_cases 0 a) as [Ha|Ha].
    - pose proof (Z.quot_pos a d Ha Hd).
      assert (a ÷ d <= a) by (apply Z.quot_le_upper_bound; nia). lia.
    - replace a with (- - a) at 1 by lia. rewrite Z.quot_opp_l by lia.
      pose proof (Z.quot_pos (- a) d ltac:(lia) Hd).
      assert (- a ÷ d <= - a) by (apply Z.quot_le_upper_bound; nia). lia. }
  assert (PollImpl.to_long (a ÷ d) = a ÷ d) as ->.
  { unfold PollImpl.to_long. rewrite Z.mod_small; lia. }
  assert (PollImpl.to_long ((a - a ÷ d * d) * 1000000 ÷ d) =
            (a - a ÷ d * d) * 1000000 ÷ d) as ->.
  { unfold PollImpl.to_long. rewrite Z.mod_small; lia. }
  split; [reflexivity|]. split; [exact Hs|]. split; [exact Hb|].
  split; intros Ht; [apply Hpos|apply Hneg]; subst a; nia.
Qed.

Lemma select_timeout_splits_exactly_witness :
  let x := {| PollImpl.ticks := 2500; PollImpl.period_num := 1;
              PollImpl.period_den := 1000 |} in
  0 < PollImpl.period_num x /\ 0 < PollImpl.period_den x /\
  Z.abs (PollImpl.ticks x * PollImpl.period_num x) * 1000000 < 2 ^ 63 /\
  exists tv,
    PollImpl.Select.select_timeout (Some x) = Some tv /\
    PollImpl.Select.tv_sec tv * 1000000 + PollImpl.Select.tv_usec tv =
      PollImpl.duration_cast 1 1000000 x.
Proof.
  intros x.
  assert (0 < PollImpl.period_num x) as Hn by (cbn; lia).
  assert (0 < PollImpl.period_den x) as Hd by (cbn; lia).
  assert (Z.abs (PollImpl.ticks x * PollImpl.period_num x) * 1000000 < 2 ^ 63)
    as Hr by (cbn; lia).
  split; [exact Hn|]. split; [exact Hd|]. split; [exact Hr|].
  destruct (select_timeout_splits_exactly x Hn Hd Hr) as (tv & E & _ & Hsum & _).
  exists tv. split; [exact E|exact Hsum].
Defined.



(** ** The zip iterator *)

Section zip_facts.
Import Zip.

Lemma iter_incr k : forall it, Nat.iter k incr it = (fun x => x + Z.of_nat k) <$> it.
Proof.
  induction k as [|k IH]; intros it.
  - cbn. rewrite <- (list_fmap_id it) at 1. apply list_fmap_ext. intros; cbn; lia.
  - rewrite Nat.iter_succ, IH. unfold incr. rewrite <- list_fmap_compose.
    apply list_fmap_ext. intros; cbn; lia.
Qed.

Lemma op_eq_spec l r :
  length l = length r -> (op_eq l r = true <-> l = r).
Proof.
  revert r. induction l as [|x l IH]; intros [|y r] Hlen; try done.
  cbn in Hlen. unfold op_eq in *. cbn. rewrite andb_true_iff, IH by lia.
  unfold equal. rewrite Z.eqb_eq. split; [by intros [-> ->]|by intros [= -> ->]].
Qed.

End zip_facts.

(** X18. Moving a zip iterator forward and back again, or back and
    forward again, gives the iterator it was: its components move
    together, and the iterator moved differs from the one it was unless the
    tuple is empty. *)
Theorem zip_incr_decr_round_trip (it : Zip.zip_iterator) :
  Zip.decr (Zip.incr it) = it /\ Zip.incr (Zip.decr it) = it /\
  (Zip.post_incr it).1 = it /\ (Zip.post_decr it).1 = it /\
  (it <> [] -> Zip.op_ne (Zip.incr it) it = true /\ Zip.op_eq it it = true).
Proof.
  unfold Zip.decr, Zip.incr. rewrite <- !list_fmap_compose.
  split; [|split; [|split; [done|split; [done|]]]].
  - rewrite <- (list_fmap_id it) at 2. apply list_fmap_ext. intros; cbn; lia.
  - rewrite <- (list_fmap_id it) at 2. apply list_fmap_ext. intros; cbn; lia.
  - intros Hne. split.
    + unfold Zip.op_ne. apply negb_true_iff, not_true_iff_false.
      rewrite op_eq_spec by (by rewrite length_fmap).
      destruct it as [|x it]; [done|]. cbn. intros [= ? _]. lia.
    + by apply op_eq_spec.
Qed.

Lemma zip_incr_decr_round_trip_witness :
  ([0; 0] : Zip.zip_iterator) <> [] /\
  Zip.decr (Zip.incr [0; 0]) = [0; 0] /\
  Zip.op_ne (Zip.incr [0; 0]) [0; 0] = true.
Proof.
  assert (([0; 0] : Zip.zip_iterator) <> []) as Hne by discriminate.
  split; [exact Hne|].
  pose proof (zip_incr_decr_round_trip [0; 0]) as (H1 & _ & _ & _ & H5).
  split; [exact H1|exact (proj1 (H5 Hne))].
Defined.

(** X19. An iterator moved forward [k] times from [first] compares equal
    to [last] exactly when every component of [last] is [k] ahead of the
    one of [first]. For the zip of two vectors from their begins to their
    ends: the end is reached by moving forward only when both vectors have
    the same length, and then after that many moves. *)
Theorem zip_reaches_end (first last : Zip.zip_iterator) (k : nat) :
  length first = length last ->
  (Zip.op_eq (Nat.iter k Zip.incr first) last = true <->
   Forall2 (fun x y => y = x + Z.of_nat k) first last) /\
  (forall n m : nat,
     first = [0; 0] -> last = [Z.of_nat n; Z.of_nat m] ->
     (Zip.op_eq (Nat.iter k Zip.incr first) last = true <-> k = n /\ k = m)).
Proof.
  intros Hlen.
  assert (Zip.op_eq (Nat.iter k Zip.incr first) last = true <->
          Forall2 (fun x y => y = x + Z.of_nat k) first last) as Hgen.
  { rewrite iter_incr, op_eq_spec by (by rewrite length_fmap).
    clear Hlen. revert last. induction first as [|x first IH]; intros [|y last]; cbn.
    - split; [constructor|done].
    - split; [done|by intros ?%Forall2_nil_inv_l].
    - split; [done|by intros ?%Forall2_nil_inv_r].
    - rewrite Forall2_cons, <- IH. split; [by intros [= -> ->]|by intros [-> ->]]. }
  split; [exact Hgen|]. intros n m -> ->. rewrite Hgen.
  rewrite !Forall2_cons. split.
  - intros (Hn & Hm & _). lia.
  - intros [-> ->]. repeat split; try lia. constructor.
Qed.

Lemma zip_reaches_end_witness :
  length ([0; 0] : Zip.zip_iterator) = length ([2; 3] : Zip.zip_iterator) /\
  (Zip.op_eq (Nat.iter 2 Zip.incr [0; 0]) [2; 3] = true <-> 2%nat = 2%nat /\ 2%nat = 3%nat).
Proof.
  split; [reflexivity|].
  exact (proj2 (zip_reaches_end [0; 0] [2; 3] 2 eq_refl) 2%nat 3%nat eq_refl eq_refl).
Defined.
